(** * asdl.py: tokenizer, recursive-descent parser and checker of ASDL files

    A shallow embedding of [src/asdl.py].  The development follows the
    layers of the program:

    - [Chars]      the character classes the tokenizer's regular expression
                   and [str] methods rely on (code points U+0000..U+00FF);
    - [Lexer]      [tokenize_asdl], a generator of [Token]s;
    - node model   [Field], [Constructor], [Sum], [Product], [Type_],
                   [Module_];
    - [Parser]     the methods of [ASDLParser], run over a token generator;
    - [Checker]    the [Check] visitor and [check];
    - [Grammar]    the EBNF of the specification, as derivation relations.
    - [Accepted]   the grammar the parser follows, as derivation relations.

    Text is a [string] whose characters are read as code points below 256. *)

From Stdlib Require Import Ascii String NArith Lia.
From stdpp Require Import base option list strings gmap sorting.

Local Open Scope string_scope.

(** ** Token kinds and exceptions

    The exceptions are those that can leave the functions modelled here.
    The message of an [ASDLSyntaxError] is kept as the data the source
    formats into it. *)

(** The members of [class TokenKind(Enum)].  An [Enum] class body turns
    every plain (non-descriptor, non-dunder) name bound in it into a member,
    so besides the eleven token kinds the class has a twelfth member,
    [operator_table], whose value is the dictionary. *)
Inductive TokenKind : Set :=
  | ConstructorId | TypeId | Equals | Comma | Question | Pipe | Asterisk
  | LParen | RParen | LBrace | RBrace
  | operator_table.

Global Instance TokenKind_eq_dec : EqDecision TokenKind.
Proof. solve_decision. Defined.

(** The value of a member.  When the class body runs, [Equals] and the
    other names are still bound to the integers, so these are what the
    dictionary holds. *)
Inductive member_value : Set :=
  | Int (n : nat)
  | Dict (d : list (string * nat)).

Definition TokenKind_value (k : TokenKind) : member_value :=
  match k with
  | ConstructorId => Int 0 | TypeId => Int 1 | Equals => Int 2
  | Comma => Int 3 | Question => Int 4 | Pipe => Int 5 | Asterisk => Int 6
  | LParen => Int 7 | RParen => Int 8 | LBrace => Int 9 | RBrace => Int 10
  | operator_table =>
      Dict [("=", 2); (",", 3); ("?", 4); ("|", 5); ("(", 7); (")", 8);
            ("*", 6); ("{", 9); ("}", 10)]
  end.

(** The argument of [ASDLParser._match]: one kind, or a tuple of kinds. *)
Inductive kind_arg : Set :=
  | One (k : TokenKind)
  | Tuple (ks : list TokenKind).

(** What the source formats into the message of a syntax error. *)
Inductive syntax_msg : Set :=
  | Invalid_operator (c : string)
      (* 'Invalid operator %s' % c *)
  | Expected_module (found : string)
      (* 'Expected "module" (found {})'.format(cur_token.value) *)
  | Unmatched (expected : kind_arg) (found : TokenKind).
      (* 'Unmatched {} (found {})'.format(kind, cur_token.kind) *)

Inductive exn : Set :=
  | ASDLSyntaxError (msg : syntax_msg) (lineno : option nat)
  | KeyError (key : string)
  | IndexError (what : string)
  | TypeError (what : string)
  | AttributeError (what : string).

(** [ASDLSyntaxError.__init__]: [self.lineno = lineno or '<unknown>'];
    [None] stands for ['<unknown>']. *)
Definition ASDLSyntaxError_init (msg : syntax_msg) (lineno : nat) : exn :=
  ASDLSyntaxError msg (if decide (lineno = 0) then None else Some lineno).

Inductive result (A : Type) : Type :=
  | Ok (a : A)
  | Raise (e : exn).
Arguments Ok {A} a.
Arguments Raise {A} e.

(** ** Characters *)
Module Chars.

Definition code (c : ascii) : N := N_of_ascii c.

Definition between (lo hi : N) (c : ascii) : bool :=
  ((lo <=? code c) && (code c <=? hi))%N.

Definition has_code (n : N) (c : ascii) : bool := (code c =? n)%N.

(** [str.isspace] on one character, and [\s] of [re] on [str]. *)
Definition isspace (c : ascii) : bool :=
  between 9 13 c || between 28 32 c || has_code 133 c || has_code 160 c.

(** The line boundaries of [str.splitlines]. *)
Definition is_linebreak (c : ascii) : bool :=
  between 10 13 c || between 28 30 c || has_code 133 c.

(** [str.isalpha] on one character. *)
Definition isalpha (c : ascii) : bool :=
  between 65 90 c || between 97 122 c
  || has_code 170 c || has_code 181 c || has_code 186 c
  || between 192 214 c || between 216 246 c || between 248 255 c.

(** [str.isupper] on one character. *)
Definition isupper (c : ascii) : bool :=
  between 65 90 c || between 192 214 c || between 216 222 c.

(** [\w] of [re] on [str]: alphanumeric (alphabetic, decimal, digit or
    numeric) characters and the underscore. *)
Definition is_word (c : ascii) : bool :=
  isalpha c || between 48 57 c || has_code 95 c
  || has_code 178 c || has_code 179 c || has_code 185 c || between 188 190 c.

(** [.] of [re] without DOTALL: anything but a newline. *)
Definition is_dot (c : ascii) : bool := negb (has_code 10 c).

End Chars.

(** ** Strings: the [str] methods and the regular expression used *)
Module Str.
Import Chars.

(** Longest prefix whose characters satisfy [p], and what follows it. *)
Fixpoint span (p : ascii -> bool) (s : string) : string * string :=
  match s with
  | EmptyString => (EmptyString, EmptyString)
  | String c s' =>
      if p c then let '(a, b) := span p s' in (String c a, b)
      else (EmptyString, s)
  end.

Fixpoint lstrip (s : string) : string :=
  match s with
  | EmptyString => EmptyString
  | String c s' => if isspace c then lstrip s' else s
  end.

Fixpoint rstrip (s : string) : string :=
  match s with
  | EmptyString => EmptyString
  | String c s' =>
      match rstrip s' with
      | EmptyString => if isspace c then EmptyString else String c EmptyString
      | r => String c r
      end
  end.

(** [str.strip()] *)
Definition strip (s : string) : string := rstrip (lstrip s).

(** [str.splitlines()]: [acc] is the line being read.  A carriage return
    followed by a line feed is one boundary; a boundary at the very end of
    the text opens no further line. *)
Fixpoint splitlines_from (acc : string) (s : string) : list string :=
  match s with
  | EmptyString =>
      match acc with EmptyString => [] | _ => [acc] end
  | String c s' =>
      if is_linebreak c then
        acc :: match s' with
               | String d s'' =>
                   if (has_code 13 c && has_code 10 d)%bool
                   then splitlines_from EmptyString s''
                   else splitlines_from EmptyString s'
               | EmptyString => splitlines_from EmptyString s'
               end
      else splitlines_from (acc ++ String c EmptyString) s'
  end.

Definition splitlines (s : string) : list string :=
  splitlines_from EmptyString s.

(** [c[:2] == '--'] *)
Definition starts_with_dashes (s : string) : bool :=
  match s with
  | String a (String b _) => (has_code 45 a && has_code 45 b)%bool
  | _ => false
  end.

(** The last character of the run of white space [ws] that [.] can match,
    and the white space after it. *)
Fixpoint last_dot (ws : string) : option (ascii * string) :=
  match ws with
  | EmptyString => None
  | String c ws' =>
      match last_dot ws' with
      | Some r => Some r
      | None => if is_dot c then Some (c, ws') else None
      end
  end.

(** One match of [\s*(\w+|--.*|.)] anchored at the start of [s]:
    group 1 and the text after the match.  [\s*] is greedy; the
    alternatives are tried in order; when the white space runs to the end
    of [s] the expression backtracks into it and [.] takes its last
    character that is not a newline. *)
Definition re_match (s : string) : option (string * string) :=
  let '(ws, r) := span isspace s in
  match r with
  | String c r' =>
      if is_word c then Some (span is_word r)
      else if starts_with_dashes r then Some (span is_dot r)
      else Some (String c EmptyString, r')
  | EmptyString =>
      match last_dot ws with
      | Some (c, rest) => Some (String c EmptyString, rest)
      | None => None
      end
  end.

(** [re.finditer(r'\s*(\w+|--.*|.)', s)], as the list of its group 1.
    A match is searched from the current position onwards; every match
    takes at least one character, which [fuel] counts. *)
Fixpoint finditer (fuel : nat) (s : string) : list string :=
  match fuel with
  | O => []
  | S fuel' =>
      match re_match s with
      | Some (c, rest) => c :: finditer fuel' rest
      | None =>
          match s with
          | EmptyString => []
          | String _ s' => finditer fuel' s'
          end
      end
  end.

End Str.

(** ** The tokenizer *)

Record Token : Set := mkToken { kind : TokenKind; value : string; lineno : nat }.

(** A generator of tokens, as the parser sees it through [next]: the
    tokens it still yields, in order, and how it ends after them, by
    [StopIteration] ([None]) or by raising an exception. *)
Record generator : Set := mkGenerator { pending : list Token; stop : option exn }.

Module Lexer.
Import Chars Str.

(** [m[key]] for a member [m] of [TokenKind].  [EnumType.__getitem__]
    subscripts the class by member name ([TokenKind['Equals']]); the
    members themselves have no [__getitem__], whatever their value is.
    Subscripting the member [TokenKind.operator_table] therefore raises
    [TypeError] and never looks into the dictionary. *)
Definition member_getitem (m : TokenKind) (key : string) : result TokenKind :=
  Raise (TypeError "'TokenKind' object is not subscriptable").

(** The body of [for m in re.finditer(...)], over the group 1 of the
    matches of one line: the tokens the line yields and the exception that
    interrupts it, if any.  A comment ends the line ([break]). *)
Fixpoint tokenize_matches (lineno : nat) (ms : list string)
  : list Token * option exn :=
  match ms with
  | [] => ([], None)
  | c :: ms' =>
      match c with
      | EmptyString => ([], Some (IndexError "string index out of range"))
      | String c0 _ =>
          if isalpha c0 then
            let tok := if isupper c0
                       then mkToken ConstructorId c lineno
                       else mkToken TypeId c lineno in
            let '(toks, e) := tokenize_matches lineno ms' in
            (tok :: toks, e)
          else if starts_with_dashes c then ([], None)
          else
            match member_getitem operator_table c with
            | Ok op_kind =>
                let '(toks, e) := tokenize_matches lineno ms' in
                (mkToken op_kind c lineno :: toks, e)
            | Raise (KeyError _) =>
                ([], Some (ASDLSyntaxError_init (Invalid_operator c) lineno))
            | Raise e => ([], Some e)
            end
      end
  end.

Definition tokenize_line (lineno : nat) (line : string)
  : list Token * option exn :=
  let s := strip line in
  tokenize_matches lineno (finditer (S (String.length s)) s).

(** [for lineno, line in enumerate(lines, lineno)] *)
Fixpoint tokenize_lines (lineno : nat) (lines : list string) : generator :=
  match lines with
  | [] => mkGenerator [] None
  | line :: lines' =>
      match tokenize_line lineno line with
      | (toks, Some e) => mkGenerator toks (Some e)
      | (toks, None) =>
          let g := tokenize_lines (S lineno) lines' in
          mkGenerator (toks ++ pending g) (stop g)
      end
  end.

Definition tokenize_asdl (buf : string) : generator :=
  tokenize_lines 1 (splitlines buf).

End Lexer.

(** ** The node model *)

Record Field : Set := mkField {
  Field_type : string;
  Field_name : option string;
  Field_seq : bool;
  Field_opt : bool }.

Record Constructor : Set := mkConstructor {
  Constructor_name : string;
  Constructor_fields : list Field }.

(** [Constructor.__init__]: [self.fields = fields or []] *)
Definition Constructor_init (name : string) (fields : option (list Field)) : Constructor :=
  mkConstructor name (default [] fields).

Record Sum : Set := mkSum {
  Sum_types : list Constructor;
  Sum_attributes : list Field }.

Definition Sum_init (types : list Constructor) (attributes : option (list Field)) : Sum :=
  mkSum types (default [] attributes).

Record Product : Set := mkProduct {
  Product_fields : list Field;
  Product_attributes : list Field }.

Definition Product_init (fields : list Field) (attributes : option (list Field)) : Product :=
  mkProduct fields (default [] attributes).

(** The value of a [Type]: the parser builds a [Sum] or a [Product]. *)
Inductive TypeValue : Set :=
  | VSum (s : Sum)
  | VProduct (p : Product).

(** [class Type]. *)
Record Type_ : Set := mkType {
  Type_name : string;
  Type_value : TypeValue }.

(** [class Module]; [types] is the dictionary built by [__init__]. *)
Record Module_ : Type := mkModule {
  Module_name : string;
  Module_dfns : list Type_;
  Module_types : gmap string TypeValue }.

(** [{type.name: type.value for type in dfns}]: a later definition of a
    name replaces an earlier one. *)
Definition types_of (dfns : list Type_) : gmap string TypeValue :=
  foldl (fun m t => <[Type_name t := Type_value t]> m) ∅ dfns.

Definition Module_init (name : string) (dfns : list Type_) : Module_ :=
  mkModule name dfns (types_of dfns).

(** ** The parser

    [ASDLParser] holds the token generator and the current token.  Its
    methods are computations on that state which return a value, raise, or
    (the model only) run out of fuel in one of the three [while] loops. *)

Record ASDLParser : Set := mkParser {
  _tokenizer : generator;
  cur_token : option Token }.

Module Parser.

(** [None]: the fuel of the model ran out. *)
Definition M (A : Type) : Type := ASDLParser -> option (result (A * ASDLParser)).

Definition ret {A} (a : A) : M A := fun self => Some (Ok (a, self)).

Definition bind {A B} (m : M A) (k : A -> M B) : M B := fun self =>
  match m self with
  | Some (Ok (a, self')) => k a self'
  | Some (Raise e) => Some (Raise e)
  | None => None
  end.

Definition raise {A} (e : exn) : M A := fun _ => Some (Raise e).

Definition out_of_fuel {A} : M A := fun _ => None.

Global Instance M_ret : MRet M := @ret.
Global Instance M_bind : MBind M := fun A B k m => bind m k.

(** [self.cur_token.<attribute>]: on [None] the attribute access raises. *)
Definition cur : M Token := fun self =>
  match cur_token self with
  | Some tok => Some (Ok (tok, self))
  | None => Some (Raise (AttributeError "'NoneType' object has no attribute"))
  end.

Definition _id_kinds : list TokenKind := [ConstructorId; TypeId].

(** [_advance]: returns the value of the current token and reads the next
    one; an exception of the generator other than [StopIteration] is not
    caught. *)
Definition _advance : M (option string) := fun self =>
  let cur_val := value <$> cur_token self in
  let g := _tokenizer self in
  match pending g with
  | tok :: rest => Some (Ok (cur_val, mkParser (mkGenerator rest (stop g)) (Some tok)))
  | [] =>
      match stop g with
      | None => Some (Ok (cur_val, mkParser g None))
      | Some e => Some (Raise e)
      end
  end.

(** [isinstance(kind, tuple) and cur.kind in kind or cur.kind == kind] *)
Definition kind_matches (kinds : kind_arg) (k : TokenKind) : bool :=
  match kinds with
  | Tuple ks => bool_decide (k ∈ ks)
  | One k' => bool_decide (k = k')
  end.

Definition _match (kinds : kind_arg) : M string :=
  tok ← cur;
  if kind_matches kinds (kind tok) then
    _advance;; ret (value tok)
  else
    raise (ASDLSyntaxError_init (Unmatched kinds (kind tok)) (lineno tok)).

Definition _at_keyword (keyword : string) : M bool :=
  tok ← cur;
  ret (bool_decide (kind tok = TypeId) && bool_decide (value tok = keyword)).

(** [_parse_optional_field_quantifier]: returns [(is_seq, is_opt)]. *)
Definition _parse_optional_field_quantifier : M (bool * bool) :=
  tok ← cur;
  is_opt ← (if bool_decide (kind tok = Question)
             then _advance;; ret true else ret false);
  tok ← cur;
  is_seq ← (if bool_decide (kind tok = Asterisk)
             then _advance;; ret true else ret false);
  ret (is_seq, is_opt).

(** The [while] loop of [_parse_fields]; [typename = self._advance()] is
    the value of the token the loop test has just inspected. *)
Fixpoint fields_loop (fuel : nat) : M (list Field) :=
  match fuel with
  | O => out_of_fuel
  | S fuel' =>
      tok ← cur;
      if bool_decide (kind tok = TypeId) then
        _advance;;
        let typename := value tok in
        '(is_seq, is_opt) ← _parse_optional_field_quantifier;
        tok ← cur;
        id ← (if bool_decide (kind tok ∈ _id_kinds) then _advance else ret None);
        let f := mkField typename id is_seq is_opt in
        tok ← cur;
        if bool_decide (kind tok = RParen) then ret [f]
        else
          (if bool_decide (kind tok = Comma) then _advance;; ret tt else ret tt);;
          fields ← fields_loop fuel';
          ret (f :: fields)
      else ret []
  end.

Definition _parse_fields (fuel : nat) : M (list Field) :=
  _match (One LParen);;
  fields ← fields_loop fuel;
  _match (One RParen);;
  ret fields.

Definition _parse_optional_fields (fuel : nat) : M (option (list Field)) :=
  tok ← cur;
  if bool_decide (kind tok = LParen)
  then fields ← _parse_fields fuel; ret (Some fields)
  else ret None.

Definition _parse_optional_attributes (fuel : nat) : M (option (list Field)) :=
  kw ← _at_keyword "attributes";
  if kw : bool
  then _advance;; fields ← _parse_fields fuel; ret (Some fields)
  else ret None.

Definition _parse_product (fuel : nat) : M Product :=
  fields ← _parse_fields fuel;
  attributes ← _parse_optional_attributes fuel;
  ret (Product_init fields attributes).

(** [Constructor(self._match(ConstructorId), self._parse_optional_fields())] *)
Definition parse_constructor (fuel : nat) : M Constructor :=
  name ← _match (One ConstructorId);
  fields ← _parse_optional_fields fuel;
  ret (Constructor_init name fields).

(** The [while] loop of [_parse_type]: the constructors after the first. *)
Fixpoint sum_loop (fuel : nat) : M (list Constructor) :=
  match fuel with
  | O => out_of_fuel
  | S fuel' =>
      tok ← cur;
      if bool_decide (kind tok = Pipe) then
        _advance;;
        c ← parse_constructor fuel;
        cs ← sum_loop fuel';
        ret (c :: cs)
      else ret []
  end.

Definition _parse_type (fuel : nat) : M TypeValue :=
  tok ← cur;
  if bool_decide (kind tok = LParen) then
    p ← _parse_product fuel; ret (VProduct p)
  else
    c ← parse_constructor fuel;
    cs ← sum_loop fuel;
    attributes ← _parse_optional_attributes fuel;
    ret (VSum (Sum_init (c :: cs) attributes)).

(** The [while] loop of [_parse_definitions]. *)
Fixpoint _parse_definitions (fuel : nat) : M (list Type_) :=
  match fuel with
  | O => out_of_fuel
  | S fuel' =>
      tok ← cur;
      if bool_decide (kind tok = TypeId) then
        _advance;;
        let typename := value tok in
        _match (One Equals);;
        type ← _parse_type fuel;
        defs ← _parse_definitions fuel';
        ret (mkType typename type :: defs)
      else ret []
  end.

Definition _parse_module (fuel : nat) : M Module_ :=
  kw ← _at_keyword "module";
  (if kw : bool then _advance;; ret tt
   else tok ← cur;
        raise (ASDLSyntaxError_init (Expected_module (value tok)) (lineno tok)));;
  name ← _match (Tuple _id_kinds);
  _match (One LBrace);;
  defs ← _parse_definitions fuel;
  _match (One RBrace);;
  ret (Module_init name defs).

(** What is left to read: the current token and the pending ones. *)
Definition remaining (self : ASDLParser) : nat :=
  (if cur_token self is Some _ then 1 else 0) + length (pending (_tokenizer self)).

(** [ASDLParser.parse] once [self._tokenizer] is set to [g]: a loop of the
    parser takes a token at each turn, so that the number of tokens bounds
    the turns. *)
Definition parse_tokens (g : generator) : option (result Module_) :=
  let fuel := S (S (length (pending g))) in
  match (_advance;; _parse_module fuel) (mkParser g None) with
  | Some (Ok (m, _)) => Some (Ok m)
  | Some (Raise e) => Some (Raise e)
  | None => None
  end.

(** [ASDLParser().parse(buf)] *)
Definition parse (buf : string) : option (result Module_) :=
  parse_tokens (Lexer.tokenize_asdl buf).

End Parser.

(** ** The checker *)

Definition builtin_types : gset string :=
  {[ "identifier"; "string"; "int"; "constant"; "bool"; "conversion_flag" ]}.

(** The state of a [Check] visitor.  What [print] writes is left out. *)
Record Check : Type := mkCheck {
  cons : gmap string string;
  errors : nat;
  types : gmap string (list string) }.

Module Checker.

(** [Check.__init__] *)
Definition Check_init : Check := mkCheck ∅ 0 ∅.

(** [l = self.types.setdefault(key, []); l.append(name)] *)
Definition visitField (v : Check) (field : Field) (name : string) : Check :=
  let key := Field_type field in
  let l := default [] (types v !! key) in
  mkCheck (cons v) (errors v) (<[key := (l ++ [name])%list]> (types v)).

Definition visitConstructor (v : Check) (c : Constructor) (name : string) : Check :=
  let key := Constructor_name c in
  let v' :=
    match cons v !! key with
    | None => mkCheck (<[key := name]> (cons v)) (errors v) (types v)
    | Some conflict => mkCheck (cons v) (S (errors v)) (types v)
    end in
  foldl (fun v f => visitField v f key) v' (Constructor_fields c).

Definition visitSum (v : Check) (sum : Sum) (name : string) : Check :=
  foldl (fun v t => visitConstructor v t name) v (Sum_types sum).

Definition visitProduct (v : Check) (prod : Product) (name : string) : Check :=
  foldl (fun v f => visitField v f name) v (Product_fields prod).

(** [self.visit(type.value, str(type.name))], dispatched on the class of
    the value. *)
Definition visitType (v : Check) (type : Type_) : Check :=
  match Type_value type with
  | VSum sum => visitSum v sum (Type_name type)
  | VProduct prod => visitProduct v prod (Type_name type)
  end.

Definition visitModule (v : Check) (mod_ : Module_) : Check :=
  foldl visitType v (Module_dfns mod_).

(** [t not in mod_.types and not t in builtin_types] *)
Definition undefined (mod_ : Module_) (t : string) : bool :=
  bool_decide (Module_types mod_ !! t = None) && bool_decide (t ∉ builtin_types).

(** [check]: one more error for each key of [v.types] that is undefined;
    the result is [not v.errors]. *)
Definition check (mod_ : Module_) : bool :=
  let v := visitModule Check_init mod_ in
  let errors :=
    map_fold (fun t _ n => if undefined mod_ t then S n else n) (errors v) (types v) in
  bool_decide (errors = 0).

End Checker.

(** ** What a module contains *)

(** The constructors of a module, in source order. *)
Definition constructors_of (v : TypeValue) : list Constructor :=
  match v with
  | VSum s => Sum_types s
  | VProduct _ => []
  end.

Definition module_constructors (mod_ : Module_) : list Constructor :=
  Module_dfns mod_ ≫= (fun t => constructors_of (Type_value t)).

(** The fields of products and of constructors. *)
Definition argument_fields (v : TypeValue) : list Field :=
  match v with
  | VSum s => Sum_types s ≫= Constructor_fields
  | VProduct p => Product_fields p
  end.

(** The attribute fields of a sum or product. *)
Definition attribute_fields (v : TypeValue) : list Field :=
  match v with
  | VSum s => Sum_attributes s
  | VProduct p => Product_attributes p
  end.

Definition module_argument_fields (mod_ : Module_) : list Field :=
  Module_dfns mod_ ≫= (fun t => argument_fields (Type_value t)).

Definition module_attribute_fields (mod_ : Module_) : list Field :=
  Module_dfns mod_ ≫= (fun t => attribute_fields (Type_value t)).

(** A referenced type name is known when it is a builtin primitive or a key
    of the module's name-to-value mapping. *)
Definition known_type (mod_ : Module_) (t : string) : Prop :=
  t ∈ builtin_types ∨ is_Some (Module_types mod_ !! t).

(** ** The grammar of the specification

    The EBNF of the specification, over tokens: a relation for each
    non-terminal, between a token sequence and the node it denotes.  The
    literals ["module"] and ["attributes"] are type-identifier tokens
    with that value, the only form in which the tokenizer can deliver them; the
    operators are tokens of their kind.  The relations are parameterised
    by the quantifier rule [Q], so that the same rules also describe field
    lists with other markings; [quantifier] is the rule of the EBNF. *)
Module Grammar.

Definition is_keyword (w : string) (t : Token) : Prop :=
  kind t = TypeId ∧ value t = w.

Definition is_Id (t : Token) : Prop :=
  kind t = ConstructorId ∨ kind t = TypeId.

(** [ "?" | "*" ], with the flags [(seq, opt)] it stands for. *)
Inductive quantifier : list Token -> bool -> bool -> Prop :=
  | quantifier_none : quantifier [] false false
  | quantifier_opt q : kind q = Question -> quantifier [q] false true
  | quantifier_seq a : kind a = Asterisk -> quantifier [a] true false.

(** [ Id ] *)
Inductive opt_id : list Token -> option string -> Prop :=
  | opt_id_none : opt_id [] None
  | opt_id_some t : is_Id t -> opt_id [t] (Some (value t)).

Section Rules.
Variable Q : list Token -> bool -> bool -> Prop.

(** field := TypeId [ "?" | "*" ] [ Id ] *)
Inductive field : list Token -> Field -> Prop :=
  | field_intro t q i seq opt id :
      kind t = TypeId -> Q q seq opt -> opt_id i id ->
      field (t :: q ++ i) (mkField (value t) id seq opt).

(** { field "," } field *)
Inductive field_seq : list Token -> list Field -> Prop :=
  | field_seq_last ts f :
      field ts f -> field_seq ts [f]
  | field_seq_cons ts f c rest fs :
      field ts f -> kind c = Comma -> field_seq rest fs ->
      field_seq (ts ++ c :: rest) (f :: fs).

(** fields := "(" { field "," } field ")" *)
Inductive fields : list Token -> list Field -> Prop :=
  | fields_intro l ts r fs :
      kind l = LParen -> field_seq ts fs -> kind r = RParen ->
      fields (l :: ts ++ [r]) fs.

(** [ "attributes" fields ] *)
Inductive opt_attributes : list Token -> option (list Field) -> Prop :=
  | opt_attributes_none : opt_attributes [] None
  | opt_attributes_some kw ts fs :
      is_keyword "attributes" kw -> fields ts fs ->
      opt_attributes (kw :: ts) (Some fs).

(** product := fields [ "attributes" fields ] *)
Inductive product : list Token -> Product -> Prop :=
  | product_intro ts fs ats attrs :
      fields ts fs -> opt_attributes ats attrs ->
      product (ts ++ ats) (Product_init fs attrs).

(** constructor := ConstructorId [ fields ] *)
Inductive constructor : list Token -> Constructor -> Prop :=
  | constructor_bare t :
      kind t = ConstructorId ->
      constructor [t] (Constructor_init (value t) None)
  | constructor_fields t ts fs :
      kind t = ConstructorId -> fields ts fs ->
      constructor (t :: ts) (Constructor_init (value t) (Some fs)).

(** { "|" constructor } *)
Inductive more_constructors : list Token -> list Constructor -> Prop :=
  | more_constructors_nil : more_constructors [] []
  | more_constructors_cons p ts c rest cs :
      kind p = Pipe -> constructor ts c -> more_constructors rest cs ->
      more_constructors (p :: ts ++ rest) (c :: cs).

(** sum := constructor { "|" constructor } [ "attributes" fields ] *)
Inductive sum : list Token -> Sum -> Prop :=
  | sum_intro ts c rest cs ats attrs :
      constructor ts c -> more_constructors rest cs ->
      opt_attributes ats attrs ->
      sum (ts ++ rest ++ ats) (Sum_init (c :: cs) attrs).

(** type := product | sum *)
Inductive type : list Token -> TypeValue -> Prop :=
  | type_product ts p : product ts p -> type ts (VProduct p)
  | type_sum ts s : sum ts s -> type ts (VSum s).

(** definitions := { TypeId "=" type } *)
Inductive definitions : list Token -> list Type_ -> Prop :=
  | definitions_nil : definitions [] []
  | definitions_cons t e ts v rest ds :
      kind t = TypeId -> kind e = Equals -> type ts v ->
      definitions rest ds ->
      definitions (t :: e :: ts ++ rest) (mkType (value t) v :: ds).

(** module := "module" Id "{" definitions "}" *)
Inductive module : list Token -> Module_ -> Prop :=
  | module_intro kw n l ts r ds :
      is_keyword "module" kw -> is_Id n -> kind l = LBrace ->
      definitions ts ds -> kind r = RBrace ->
      module (kw :: n :: l :: ts ++ [r]) (Module_init (value n) ds).

End Rules.

(** The markings the parser's quantifier logic takes: those of the EBNF,
    and the optional marker followed by the sequence marker. *)
Inductive quantifier_or_both : list Token -> bool -> bool -> Prop :=
  | quantifier_one q seq opt :
      quantifier q seq opt -> quantifier_or_both q seq opt
  | quantifier_both q a :
      kind q = Question -> kind a = Asterisk ->
      quantifier_or_both [q; a] true true.

End Grammar.

(** A definition named [attributes] is read as the keyword when it comes
    right after a type that has no attributes of its own: the definitions
    [defs] are free of that. *)
Fixpoint attributes_unambiguous (defs : list Type_) : bool :=
  match defs with
  | [] => true
  | d :: rest =>
      match rest with
      | [] => true
      | d' :: _ =>
          negb (bool_decide (attribute_fields (Type_value d) = [])
                && bool_decide (Type_name d' = "attributes"))
      end && attributes_unambiguous rest
  end.

(** ** Parser states and sample token sequences *)

(** The parser positioned on [ts]: the first token is current, the others
    are still to be read from a generator that then stops. *)
Definition at_tokens (ts : list Token) : ASDLParser :=
  match ts with
  | [] => mkParser (mkGenerator [] None) None
  | t :: ts' => mkParser (mkGenerator ts' None) (Some t)
  end.

(** The character of an operator kind, as listed in [operator_table]. *)
Definition symbol (k : TokenKind) : string :=
  match k with
  | Equals => "=" | Comma => "," | Question => "?" | Pipe => "|"
  | Asterisk => "*" | LParen => "(" | RParen => ")"
  | LBrace => "{" | RBrace => "}"
  | _ => ""
  end.

(** Tokens on line [l]: an operator, and a word classified by its first
    letter as the tokenizer does. *)
Definition op (l : nat) (k : TokenKind) : Token := mkToken k (symbol k) l.

Definition word (l : nat) (w : string) : Token :=
  match w with
  | String c _ =>
      mkToken (if Chars.isupper c then ConstructorId else TypeId) w l
  | EmptyString => mkToken TypeId w l
  end.

(** A token that is a word classified by the case of its first letter. *)
Definition classified_word (tok : Token) : Prop :=
  exists c w, value tok = String c w /\ Chars.isalpha c = true /\
    kind tok = if Chars.isupper c then ConstructorId else TypeId.

(** A parse succeeded with a module. *)
Definition succeeds (r : option (result Module_)) : Prop :=
  exists m, r = Some (Ok m).

(** The state of the visitor after it has met the constructors named [cs]
    and the fields [fs]. *)
Definition visited (v : Check) (cs : list string) (fs : list Field) : Prop :=
  (forall k, is_Some (cons v !! k) <-> k ∈ cs) /\
  (errors v = 0 <-> NoDup cs) /\
  (forall t, is_Some (types v !! t) <-> t ∈ Field_type <$> fs).

(** The tokens the parser still has to read are all identifiers. *)
Definition ids_only (self : ASDLParser) : Prop :=
  (forall t, cur_token self = Some t -> kind t = ConstructorId \/ kind t = TypeId) /\
  Forall (fun t => kind t = ConstructorId \/ kind t = TypeId) (pending (_tokenizer self)).

(** The computation [m] ends from [self], by an exception or with at most
    [b] tokens left to read. *)
Definition terminates {A} (b : nat) (m : Parser.M A) (self : ASDLParser) : Prop :=
  match m self with
  | Some (Ok (_, self')) => Parser.remaining self' <= b
  | Some (Raise _) => True
  | None => False
  end.

(** ** Sample inputs *)

(** The exception the tokenizer raises on an operator character. *)
Definition not_subscriptable : exn :=
  TypeError "'TokenKind' object is not subscriptable".

(** Tokens of [module Test { stmt = Expr(int value) | Pass }]. *)
Definition example1_tokens : list Token :=
  [word 1 "module"; word 1 "Test"; op 1 LBrace;
   word 1 "stmt"; op 1 Equals;
   word 1 "Expr"; op 1 LParen; word 1 "int"; word 1 "value"; op 1 RParen;
   op 1 Pipe; word 1 "Pass";
   op 1 RBrace].

Definition example1_module : Module_ :=
  Module_init "Test"
    [mkType "stmt"
       (VSum (Sum_init
                [Constructor_init "Expr" (Some [mkField "int" (Some "value") false false]);
                 Constructor_init "Pass" None]
                None))].

(** Tokens of [module M { a = X attributes = Y }]. *)
Definition attributes_definition_tokens : list Token :=
  [word 1 "module"; word 1 "M"; op 1 LBrace;
   word 1 "a"; op 1 Equals; word 1 "X";
   word 1 "attributes"; op 1 Equals; word 1 "Y";
   op 1 RBrace].

Definition attributes_definition_module : Module_ :=
  Module_init "M"
    [mkType "a" (VSum (Sum_init [Constructor_init "X" None] None));
     mkType "attributes" (VSum (Sum_init [Constructor_init "Y" None] None))].

(** Tokens of
    [module M { attributes = (attributes attributes) attributes (int x)
                attributes = A }]:
    the second and third [attributes] are a field's type and name, the
    fourth is the keyword, the first and the last name definitions. *)
Definition attributes_everywhere_tokens : list Token :=
  [word 1 "module"; word 1 "M"; op 1 LBrace;
   word 1 "attributes"; op 1 Equals;
   op 1 LParen; word 1 "attributes"; word 1 "attributes"; op 1 RParen;
   word 1 "attributes"; op 1 LParen; word 1 "int"; word 1 "x"; op 1 RParen;
   word 2 "attributes"; op 2 Equals; word 2 "A";
   op 2 RBrace].

Definition attributes_everywhere_module : Module_ :=
  Module_init "M"
    [mkType "attributes"
       (VProduct (Product_init [mkField "attributes" (Some "attributes") false false]
                               (Some [mkField "int" (Some "x") false false])));
     mkType "attributes" (VSum (Sum_init [Constructor_init "A" None] None))].

(** Tokens of [(int?* x)] and of [module M { t = (int*? x) }]. *)
Definition both_markers_tokens : list Token :=
  [op 1 LParen; word 1 "int"; op 1 Question; op 1 Asterisk; word 1 "x"; op 1 RParen].

Definition markers_reversed_tokens : list Token :=
  [word 1 "module"; word 1 "M"; op 1 LBrace; word 1 "t"; op 1 Equals;
   op 1 LParen; word 1 "int"; op 1 Asterisk; op 1 Question; word 1 "x"; op 1 RParen;
   op 1 RBrace].

(** Tokens of [a, b], and the fields they stand for. *)
Definition a_b_tokens : list Token := [word 1 "a"; op 1 Comma; word 1 "b"].

Definition a_b_fields : list Field :=
  [mkField "a" None false false; mkField "b" None false false].

(** Tokens and module of [module M { t = (int x) attributes (foo y) }]. *)
Definition undefined_attribute_tokens : list Token :=
  [word 1 "module"; word 1 "M"; op 1 LBrace; word 1 "t"; op 1 Equals;
   op 1 LParen; word 1 "int"; word 1 "x"; op 1 RParen;
   word 1 "attributes"; op 1 LParen; word 1 "foo"; word 1 "y"; op 1 RParen;
   op 1 RBrace].

Definition undefined_attribute_module : Module_ :=
  Module_init "M"
    [mkType "t" (VProduct (Product_init [mkField "int" (Some "x") false false]
                                        (Some [mkField "foo" (Some "y") false false])))].

(** Tokens of [module M { t = () }]. *)
Definition empty_fields_tokens : list Token :=
  [word 1 "module"; word 1 "M"; op 1 LBrace; word 1 "t"; op 1 Equals;
   op 1 LParen; op 1 RParen; op 1 RBrace].

(** Tokens and module of [module M { t = A t = B }]. *)
Definition duplicate_definition_tokens : list Token :=
  [word 1 "module"; word 1 "M"; op 1 LBrace;
   word 1 "t"; op 1 Equals; word 1 "A";
   word 1 "t"; op 1 Equals; word 1 "B";
   op 1 RBrace].

Definition duplicate_definition_module : Module_ :=
  Module_init "M"
    [mkType "t" (VSum (Sum_init [Constructor_init "A" None] None));
     mkType "t" (VSum (Sum_init [Constructor_init "B" None] None))].

(** The condition of the specification on a module that passes [check]:
    constructor names are unique and every field, attribute fields
    included, has a known type. *)
Definition all_fields_known (mod_ : Module_) : Prop :=
  NoDup (Constructor_name <$> module_constructors mod_) /\
  (forall f, f ∈ (module_argument_fields mod_ ++ module_attribute_fields mod_)%list ->
             known_type mod_ (Field_type f)).

(** ** What the tokenizer yields and how a parse of a text ends *)

(** All characters of [s] satisfy [p]. *)
Fixpoint string_forallb (p : ascii -> bool) (s : string) : bool :=
  match s with
  | EmptyString => true
  | String c s' => p c && string_forallb p s'
  end.

(** A token whose value is an identifier: it starts with a letter and
    consists of word characters, those the expression [\w] matches. *)
Definition identifier_token (tok : Token) : Prop :=
  exists c w, value tok = String c w /\ Chars.isalpha c = true /\
    string_forallb Chars.is_word (value tok) = true.

(** Group 1 of a match of the tokenizer's expression: a run of word
    characters, a comment, or one character. *)
Definition match_shape (c : string) : Prop :=
  c <> EmptyString /\
  (string_forallb Chars.is_word c = true \/ Str.starts_with_dashes c = true \/
   String.length c = 1).

(** A line without tokens: blank, or a comment from its first character
    that is not white space. *)
Definition blank_or_comment (line : string) : Prop :=
  Str.strip line = EmptyString \/ Str.starts_with_dashes (Str.strip line) = true.

(** The exception of an attribute access on [self.cur_token] when it is
    [None], at the end of the input. *)
Definition end_of_input : exn :=
  AttributeError "'NoneType' object has no attribute".

(** How the generator [g] ends once it has nothing more to yield, seen from
    the parser: by its exception, or by the parser's access to the missing
    token. *)
Definition at_end (g : generator) : exn := default end_of_input (stop g).

(** The exception that ends the parse of a stream of identifier tokens:
    [_parse_module] looks for [module], a name and an opening brace, in
    that order, and no identifier is a brace. *)
Definition parse_outcome (g : generator) : exn :=
  match pending g with
  | [] => at_end g
  | t1 :: r1 =>
      if bool_decide (kind t1 = TypeId) && bool_decide (value t1 = "module") then
        match r1 with
        | [] => at_end g
        | t2 :: [] => at_end g
        | t2 :: t3 :: _ =>
            ASDLSyntaxError_init (Unmatched (One LBrace) (kind t3)) (lineno t3)
        end
      else ASDLSyntaxError_init (Expected_module (value t1)) (lineno t1)
  end.

(** ** How the parser can fail *)

(** A syntax error raised at the token [tok]: the message names what was
    found there, and the line is the token's. *)
Definition syntax_error_at (tok : Token) (e : exn) : Prop :=
  e = ASDLSyntaxError_init (Expected_module (value tok)) (lineno tok) \/
  exists kinds, Parser.kind_matches kinds (kind tok) = false /\
    e = ASDLSyntaxError_init (Unmatched kinds (kind tok)) (lineno tok).

(** The exceptions of a parse over the generator [g]: the access to a
    missing token once [g] has stopped, the exception [g] itself ends with,
    or a syntax error at one of the tokens of [g]. *)
Definition expected_failure (g : generator) (e : exn) : Prop :=
  (e = end_of_input /\ stop g = None) \/
  stop g = Some e \/
  exists tok, tok ∈ pending g /\ syntax_error_at tok e.

(** The parser [self] is reading [g]. *)
Definition reading (g : generator) (self : ASDLParser) : Prop :=
  stop (_tokenizer self) = stop g /\
  (forall t, cur_token self = Some t -> t ∈ pending g) /\
  (forall t, t ∈ pending (_tokenizer self) -> t ∈ pending g) /\
  (cur_token self = None -> stop g = None).

(** The computation [m], run while reading [g], fails only as expected. *)
Definition fails_as_expected {A} (g : generator) (m : Parser.M A) (self : ASDLParser) : Prop :=
  match m self with
  | Some (Ok (_, self')) => reading g self'
  | Some (Raise e) => expected_failure g e
  | None => True
  end.

(** ** The language of the parser *)

(** What the parser [self] has still to read: the current token, then the
    pending ones. *)
Definition unread (self : ASDLParser) : list Token :=
  (option_list (cur_token self) ++ pending (_tokenizer self))%list.

(** The field lists [_parse_fields] takes between the parentheses,
    [{ field [","] }]: after a field comes a comma, the closing
    parenthesis, or, when the field has a name, the next field at once. *)
Inductive field_items : list Token -> list Field -> Prop :=
  | field_items_nil : field_items [] []
  | field_items_last ts f :
      Grammar.field Grammar.quantifier_or_both ts f -> field_items ts [f]
  | field_items_comma ts f c rest fs :
      Grammar.field Grammar.quantifier_or_both ts f -> kind c = Comma ->
      field_items rest fs -> field_items (ts ++ c :: rest) (f :: fs)
  | field_items_juxtaposed ts f rest fs :
      Grammar.field Grammar.quantifier_or_both ts f -> Field_name f <> None ->
      rest <> [] -> field_items rest fs -> field_items (ts ++ rest) (f :: fs).

(** The grammar the parser follows: the EBNF with the field lists of
    [field_items] between the parentheses. *)
Module Accepted.

(** fields := "(" { field [","] } ")" *)
Inductive fields : list Token -> list Field -> Prop :=
  | fields_of_items l body r fs :
      kind l = LParen -> field_items body fs -> kind r = RParen ->
      fields (l :: body ++ [r]) fs.

(** [ "attributes" fields ] *)
Inductive opt_attributes : list Token -> option (list Field) -> Prop :=
  | attributes_absent : opt_attributes [] None
  | attributes_present kw ts fs :
      Grammar.is_keyword "attributes" kw -> fields ts fs ->
      opt_attributes (kw :: ts) (Some fs).

(** product := fields [ "attributes" fields ] *)
Inductive product : list Token -> Product -> Prop :=
  | product_of ts fs ats attrs :
      fields ts fs -> opt_attributes ats attrs ->
      product (ts ++ ats) (Product_init fs attrs).

(** constructor := ConstructorId [ fields ] *)
Inductive constructor : list Token -> Constructor -> Prop :=
  | constructor_alone t :
      kind t = ConstructorId ->
      constructor [t] (Constructor_init (value t) None)
  | constructor_with_fields t ts fs :
      kind t = ConstructorId -> fields ts fs ->
      constructor (t :: ts) (Constructor_init (value t) (Some fs)).

(** { "|" constructor } *)
Inductive more_constructors : list Token -> list Constructor -> Prop :=
  | no_more_constructors : more_constructors [] []
  | one_more_constructor p ts c rest cs :
      kind p = Pipe -> constructor ts c -> more_constructors rest cs ->
      more_constructors (p :: ts ++ rest) (c :: cs).

(** sum := constructor { "|" constructor } [ "attributes" fields ] *)
Inductive sum : list Token -> Sum -> Prop :=
  | sum_of ts c rest cs ats attrs :
      constructor ts c -> more_constructors rest cs ->
      opt_attributes ats attrs ->
      sum (ts ++ rest ++ ats) (Sum_init (c :: cs) attrs).

(** type := product | sum *)
Inductive type : list Token -> TypeValue -> Prop :=
  | type_of_product ts p : product ts p -> type ts (VProduct p)
  | type_of_sum ts s : sum ts s -> type ts (VSum s).

(** definitions := { TypeId "=" type } *)
Inductive definitions : list Token -> list Type_ -> Prop :=
  | no_definitions : definitions [] []
  | one_more_definition t e ts v rest ds :
      kind t = TypeId -> kind e = Equals -> type ts v ->
      definitions rest ds ->
      definitions (t :: e :: ts ++ rest) (mkType (value t) v :: ds).

(** module := "module" Id "{" definitions "}" *)
Inductive module : list Token -> Module_ -> Prop :=
  | module_of kw n l ts r ds :
      Grammar.is_keyword "module" kw -> Grammar.is_Id n -> kind l = LBrace ->
      definitions ts ds -> kind r = RBrace ->
      module (kw :: n :: l :: ts ++ [r]) (Module_init (value n) ds).

End Accepted.

(** ** What the checker records *)

(** The constructors of a type with the name of the type, and of a module,
    in the order of the traversal: pairs (constructor name, type name). *)
Definition constructor_sites_of (t : Type_) : list (string * string) :=
  (fun c => (Constructor_name c, Type_name t)) <$> constructors_of (Type_value t).

Definition module_constructor_sites (mod_ : Module_) : list (string * string) :=
  Module_dfns mod_ ≫= constructor_sites_of.

(** The uses of type names by the fields the checker visits, in the order
    of the traversal: pairs (referenced type, name of the constructor or
    product that has the field). *)
Definition usage_sites_of (t : Type_) : list (string * string) :=
  match Type_value t with
  | VSum s =>
      Sum_types s ≫= (fun c =>
        (fun f => (Field_type f, Constructor_name c)) <$> Constructor_fields c)
  | VProduct p => (fun f => (Field_type f, Type_name t)) <$> Product_fields p
  end.

Definition module_usage_sites (mod_ : Module_) : list (string * string) :=
  Module_dfns mod_ ≫= usage_sites_of.

(** The second components of the pairs of [sites] whose first is [k]. *)
Definition sites_of (k : string) (sites : list (string * string)) : list string :=
  (filter (fun p => p.1 = k) sites).*2.

(** [v.errors] when [check] returns: the count its result negates. *)
Definition check_errors (mod_ : Module_) : nat :=
  let v := Checker.visitModule Checker.Check_init mod_ in
  map_fold (fun t _ n => if Checker.undefined mod_ t then S n else n) (errors v) (types v).

(** The occurrences in [names] beyond the first of each name. *)
Definition redefinitions (names : list string) : nat :=
  length names - size (list_to_set names : gset string).

(** The type names the visited fields refer to. *)
Definition referenced_types (mod_ : Module_) : gset string :=
  list_to_set (Field_type <$> module_argument_fields mod_).

(** The visitor has met exactly the constructor sites [cs] and the usage
    sites [us]. *)
Definition recorded (v : Check) (cs us : list (string * string)) : Prop :=
  cons v = list_to_map cs /\
  errors v + size (cons v) = length cs /\
  (forall t, types v !! t =
             if decide (sites_of t us = []) then None else Some (sites_of t us)).

(** ** Further sample inputs *)

Definition newline : string := String (ascii_of_nat 10) EmptyString.

(** A text of two lines with a comment at the end of the first. *)
Definition two_lines_text : string :=
  "module M -- first" ++ newline ++ "   stmt_2 Pass".

(** A text of comments and a blank line. *)
Definition comments_text : string :=
  "-- ASDL's builtin types" ++ newline ++ newline ++ "   -- none yet  ".

(** A text whose second line starts with an operator. *)
Definition operator_line_text : string :=
  "module Python" ++ newline ++ "  { mod = Module }" ++ newline ++ "  more".

(** Tokens of [int x string? y, expr* z,], the body of a field list with
    two fields side by side and a comma before the closing parenthesis,
    and the fields it stands for. *)
Definition loose_fields_tokens : list Token :=
  [word 1 "int"; word 1 "x"; word 1 "string"; op 1 Question; word 1 "y"; op 1 Comma;
   word 2 "expr"; op 2 Asterisk; word 2 "z"; op 2 Comma].

Definition loose_fields : list Field :=
  [mkField "int" (Some "x") false false;
   mkField "string" (Some "y") false true;
   mkField "expr" (Some "z") true false].

(** Tokens and module of
    [module M { t = (int x string? y, expr* z,) }]. *)
Definition loose_module_tokens : list Token :=
  ([word 1 "module"; word 1 "M"; op 1 LBrace; word 1 "t"; op 1 Equals; op 1 LParen]
   ++ loose_fields_tokens ++ [op 2 RParen; op 3 RBrace])%list.

Definition loose_module : Module_ :=
  Module_init "M" [mkType "t" (VProduct (Product_init loose_fields None))].

(** ** Texts of identifiers *)

(** An identifier: a letter, then word characters. *)
Definition identifier (w : string) : Prop :=
  exists c r, w = String c r /\ Chars.isalpha c = true /\
    string_forallb Chars.is_word r = true.

(** The characters of a line of words: word characters and spaces. *)
Definition line_char (c : ascii) : bool := Chars.is_word c || Chars.has_code 32 c.

(** The words [ws] on one line, a space between two of them. *)
Fixpoint unwords (ws : list string) : string :=
  match ws with
  | [] => EmptyString
  | w :: ws' =>
      match ws' with
      | [] => w
      | _ :: _ => w ++ " " ++ unwords ws'
      end
  end.

(** The lines [ls], each ended by a line feed. *)
Fixpoint unlines (ls : list string) : string :=
  match ls with
  | [] => EmptyString
  | l :: ls' => l ++ newline ++ unlines ls'
  end.

(** The tokens of the lines of words [ls], the first of them on line [n]. *)
Fixpoint word_tokens (n : nat) (ls : list (list string)) : list Token :=
  match ls with
  | [] => []
  | ws :: ls' => ((word n <$> ws) ++ word_tokens (S n) ls')%list
  end.

(** The lines [module Python], an empty line and [stmt Pass_2], as words. *)
Definition identifier_lines : list (list string) :=
  [["module"; "Python"]; []; ["stmt"; "Pass_2"]].

(** * Properties *)

(** ** The tokenizer *)
Section Lexer_facts.
Import Chars Str Lexer.

Lemma tokenize_matches_words lineno ms :
  Forall classified_word (tokenize_matches lineno ms).1.
Proof.
  induction ms as [|c ms IH]; [constructor|].
  destruct c as [|c0 w]; [constructor|].
  cbn -[starts_with_dashes].
  destruct (isalpha c0) eqn:Halpha.
  - destruct (tokenize_matches lineno ms) as [toks e]; simpl in *.
    constructor; [|exact IH].
    exists c0, w. destruct (isupper c0); simpl; auto.
  - destruct (starts_with_dashes (String c0 w)); simpl; constructor.
Qed.

Lemma tokenize_lines_words lines : forall lineno,
  Forall classified_word (pending (tokenize_lines lineno lines)).
Proof.
  induction lines as [|line lines IH]; intros lineno; simpl; [constructor|].
  unfold tokenize_line.
  pose proof (tokenize_matches_words lineno
    (finditer (S (String.length (strip line))) (strip line))) as Hw.
  destruct (tokenize_matches _ _) as [toks [e|]]; simpl in *; [exact Hw|].
  apply Forall_app; split; [exact Hw | apply IH].
Qed.

(** Every token the tokenizer yields is a word: no operator token is
    ever produced. *)
Lemma tokenize_asdl_words buf :
  Forall classified_word (pending (tokenize_asdl buf)).
Proof. apply tokenize_lines_words. Qed.

Lemma classified_word_kind tok :
  classified_word tok -> kind tok = ConstructorId \/ kind tok = TypeId.
Proof.
  intros (c & w & _ & _ & ->). destruct (isupper c); auto.
Qed.

End Lexer_facts.

Section Tokenizer_claims.
Import Chars Str Lexer.

(** C7.  A word the tokenizer emits is classified by the case of its
    first character alone: an uppercase first character makes it a
    constructor identifier, any other letter a type identifier. *)
Theorem identifier_classification (buf : string) (tok : Token) (c : ascii) (w : string) :
  tok ∈ pending (tokenize_asdl buf) ->
  value tok = String c w ->
  isalpha c = true ->
  kind tok = if isupper c then ConstructorId else TypeId.
Proof.
  intros Hin Hval _.
  pose proof (tokenize_asdl_words buf) as Hall.
  rewrite Forall_forall in Hall.
  destruct (Hall tok Hin) as (c' & w' & Hval' & _ & Hkind).
  rewrite Hval in Hval'. injection Hval' as -> ->. exact Hkind.
Qed.

Lemma identifier_classification_witness :
  let tok := mkToken ConstructorId "Expr" 1 in
  tok ∈ pending (tokenize_asdl "Expr value") /\
  value tok = String "E" "xpr" /\
  isalpha "E" = true /\
  kind tok = ConstructorId.
Proof.
  intros tok. split; [|split; [|split]].
  - vm_compute. left.
  - reflexivity.
  - reflexivity.
  - apply (identifier_classification "Expr value" tok "E" "xpr").
    + vm_compute. left.
    + reflexivity.
    + reflexivity.
Defined.

(** C6, on the code.  The lookup [TokenKind.operator_table[c]] subscripts
    an [Enum] member: on each of the nine operator characters, and on a
    character outside the table such as [!], the tokenizer raises
    [TypeError]; it yields no operator token and raises no syntax error. *)
Theorem operator_lookup_raises_TypeError :
  Forall (fun c => tokenize_asdl c =
                   mkGenerator [] (Some (TypeError "'TokenKind' object is not subscriptable")))
         ["="; ","; "?"; "|"; "("; ")"; "*"; "{"; "}"; "!"].
Proof. repeat constructor. Qed.

(** No text makes the tokenizer yield an operator token. *)
Lemma tokenize_asdl_no_operator buf tok :
  tok ∈ pending (tokenize_asdl buf) ->
  kind tok = ConstructorId \/ kind tok = TypeId.
Proof.
  intros Hin. apply classified_word_kind.
  pose proof (tokenize_asdl_words buf) as Hall.
  rewrite Forall_forall in Hall. auto.
Qed.

End Tokenizer_claims.

(** ** Strings *)
Section Str_facts.
Import Chars Str.

Lemma span_length p s a b :
  span p s = (a, b) -> String.length a + String.length b = String.length s.
Proof.
  revert a b. induction s as [|c s IH]; intros a b; simpl.
  - by intros [= <- <-].
  - destruct (p c).
    + destruct (span p s) as [a' b'] eqn:E. intros [= <- <-]. simpl.
      specialize (IH _ _ eq_refl). lia.
    + intros [= <- <-]. simpl. lia.
Qed.

Lemma span_first p c s a b :
  p c = true -> span p (String c s) = (a, b) -> 0 < String.length a.
Proof.
  intros Hp. simpl. rewrite Hp. destruct (span p s). intros [= <- <-]. simpl. lia.
Qed.

Lemma last_dot_length ws c rest :
  last_dot ws = Some (c, rest) -> String.length rest < String.length ws.
Proof.
  revert c rest. induction ws as [|d ws IH]; intros c rest; simpl; [done|].
  destruct (last_dot ws) as [[c' rest']|].
  - intros [= <- <-]. specialize (IH _ _ eq_refl). lia.
  - destruct (is_dot d); [|done]. intros [= <- <-]. lia.
Qed.

(** A match takes at least one character. *)
Lemma re_match_shorter s c rest :
  re_match s = Some (c, rest) -> String.length rest < String.length s.
Proof.
  unfold re_match. destruct (span isspace s) as [ws r] eqn:Hws.
  apply span_length in Hws.
  destruct r as [|d r'].
  - destruct (last_dot ws) as [[c' rest']|] eqn:Hl; [|done].
    intros [= <- <-]. apply last_dot_length in Hl. lia.
  - destruct (is_word d) eqn:Hw.
    + destruct (span is_word (String d r')) as [w r''] eqn:Hsp. intros [= <- <-].
      pose proof (span_first _ _ _ _ _ Hw Hsp). apply span_length in Hsp. lia.
    + destruct (starts_with_dashes (String d r')) eqn:Hd.
      * destruct (span is_dot (String d r')) as [w r''] eqn:Hsp. intros [= <- <-].
        assert (is_dot d = true) as Hdot.
        { simpl in Hd. destruct r'; [done|].
          apply andb_true_iff in Hd as [Hd _].
          unfold is_dot, has_code in *. apply N.eqb_eq in Hd. by rewrite Hd. }
        pose proof (span_first _ _ _ _ _ Hdot Hsp). apply span_length in Hsp. lia.
      * intros [= <- <-]. simpl in *. lia.
Qed.

(** The fuel [tokenize_line] gives to [finditer] is never used up: more
    fuel finds the same matches. *)
Lemma finditer_fuel n : forall m s,
  String.length s < n -> String.length s < m -> finditer n s = finditer m s.
Proof.
  induction n as [|n IH]; intros m s Hn Hm; [lia|].
  destruct m as [|m]; [lia|]. simpl.
  destruct (re_match s) as [[c rest]|] eqn:E.
  - apply re_match_shorter in E. f_equal. apply IH; lia.
  - destruct s as [|c s]; [done|]. simpl in *. apply IH; lia.
Qed.

End Str_facts.

(** ** The parser on grammatical token sequences *)
Import Parser.

Lemma bind_ok {A B} (m : M A) (k : A -> M B) s a s' :
  m s = Some (Ok (a, s')) -> (m ≫= k) s = k a s'.
Proof. intros H. unfold mbind, M_bind, bind. rewrite H. reflexivity. Qed.

Lemma bind_raise {A B} (m : M A) (k : A -> M B) s e :
  m s = Some (Raise e) -> (m ≫= k) s = Some (Raise e).
Proof. intros H. unfold mbind, M_bind, bind. rewrite H. reflexivity. Qed.

Lemma match_at kinds t ts :
  kind_matches kinds (kind t) = true ->
  _match kinds (at_tokens (t :: ts)) = Some (Ok (value t, at_tokens ts)).
Proof.
  intros H. unfold _match, mbind, M_bind, bind. simpl. rewrite H.
  destruct ts; reflexivity.
Qed.

Lemma match_at_raise kinds t ts :
  kind_matches kinds (kind t) = false ->
  _match kinds (at_tokens (t :: ts)) =
    Some (Raise (ASDLSyntaxError_init (Unmatched kinds (kind t)) (lineno t))).
Proof.
  intros H. unfold _match, mbind, M_bind, bind. simpl. rewrite H. reflexivity.
Qed.

Lemma advance_at t ts :
  _advance (at_tokens (t :: ts)) = Some (Ok (Some (value t), at_tokens ts)).
Proof. destruct ts; reflexivity. Qed.

Ltac concrete t := destruct t as [? ? ?]; simpl in *; subst.
Ltac concrete_tokens := repeat match goal with x : Token |- _ => concrete x end.

Section Completeness.
Variable Q : list Token -> bool -> bool -> Prop.
Hypothesis HQ : forall q s o, Q q s o -> Grammar.quantifier_or_both q s o.

Lemma fields_loop_comma ts f c rest n :
  Grammar.field Q ts f ->
  kind c = Comma ->
  fields_loop (S n) (at_tokens (ts ++ c :: rest)) =
    (fs ← fields_loop n; mret (f :: fs)) (at_tokens rest).
Proof.
  intros Hf Hc. destruct Hf as [t q i seq opt id Ht Hq Hi].
  apply HQ in Hq.
  destruct Hq as [? ? ? [ | q1 Hqk | a1 Hak] | q1 a1 Hqk Hak];
    destruct Hi as [ | i [Hi|Hi] ];
    concrete_tokens; destruct rest; reflexivity.
Qed.

Lemma fields_loop_last ts f r rest n :
  Grammar.field Q ts f ->
  kind r = RParen ->
  fields_loop (S n) (at_tokens (ts ++ r :: rest)) =
    Some (Ok ([f], at_tokens (r :: rest))).
Proof.
  intros Hf Hc. destruct Hf as [t q i seq opt id Ht Hq Hi].
  apply HQ in Hq.
  destruct Hq as [? ? ? [ | q1 Hqk | a1 Hak] | q1 a1 Hqk Hak];
    destruct Hi as [ | i [Hi|Hi] ];
    concrete_tokens; reflexivity.
Qed.

Lemma field_seq_fields_loop ts fs :
  Grammar.field_seq Q ts fs ->
  forall n r rest, kind r = RParen -> length ts < n ->
  fields_loop n (at_tokens (ts ++ r :: rest)) = Some (Ok (fs, at_tokens (r :: rest))).
Proof.
  induction 1 as [ts f Hf | ts f c more fs Hf Hc Hmore IH]; intros n r rest Hr Hn.
  - destruct Hf as [t q i seq opt id Ht Hq Hi] eqn:E. clear E.
    destruct n as [|n]; [simpl in Hn; lia|].
    apply fields_loop_last; [by constructor | done].
  - rewrite length_app in Hn. simpl in Hn.
    destruct n as [|n]; [lia|].
    rewrite <- app_assoc, <- app_comm_cons.
    rewrite (fields_loop_comma _ _ _ _ _ Hf Hc).
    erewrite bind_ok; [reflexivity|].
    apply IH; [done | lia].
Qed.

Lemma field_seq_nonempty ts fs : Grammar.field_seq Q ts fs -> fs <> [].
Proof. destruct 1; discriminate. Qed.

Lemma fields_nonempty ts fs : Grammar.fields Q ts fs -> fs <> [].
Proof. destruct 1; eauto using field_seq_nonempty. Qed.

Lemma fields_parse_fields ts fs n rest :
  Grammar.fields Q ts fs -> length ts < n ->
  _parse_fields n (at_tokens (ts ++ rest)) = Some (Ok (fs, at_tokens rest)).
Proof.
  destruct 1 as [l ts r fs Hl Hfs Hr]. intros Hn.
  simpl in Hn. rewrite length_app in Hn. simpl in Hn.
  unfold _parse_fields. rewrite <- app_comm_cons, <- app_assoc. change ([r] ++ rest)%list with (r :: rest).
  erewrite bind_ok; [|apply match_at; simpl; by rewrite Hl].
  erewrite bind_ok; [|apply field_seq_fields_loop; [done..|lia]].
  erewrite bind_ok; [|apply match_at; simpl; by rewrite Hr].
  reflexivity.
Qed.


Lemma opt_attributes_parse ats attrs n h rest :
  Grammar.opt_attributes Q ats attrs ->
  (attrs = None -> ~ Grammar.is_keyword "attributes" h) ->
  length ats < n ->
  _parse_optional_attributes n (at_tokens (ats ++ h :: rest)) =
    Some (Ok (attrs, at_tokens (h :: rest))).
Proof.
  destruct 1 as [| kw ts fs [Hk Hv] Hfs]; intros Hh Hn;
    unfold _parse_optional_attributes.
  - erewrite bind_ok by reflexivity.
    destruct (bool_decide (kind h = TypeId) && bool_decide (value h = "attributes")) eqn:E;
      [|reflexivity].
    exfalso. apply andb_true_iff in E as [E1 E2].
    apply bool_decide_eq_true in E1, E2. by apply Hh.
  - rewrite <- app_comm_cons.
    erewrite bind_ok by reflexivity.
    rewrite !bool_decide_eq_true_2 by done. cbn [andb].
    erewrite bind_ok by apply advance_at.
    erewrite bind_ok by (apply fields_parse_fields; [done | simpl in Hn; lia]).
    reflexivity.
Qed.

Lemma product_parse ts p n h rest :
  Grammar.product Q ts p ->
  (Product_attributes p = [] -> ~ Grammar.is_keyword "attributes" h) ->
  length ts < n ->
  _parse_product n (at_tokens (ts ++ h :: rest)) = Some (Ok (p, at_tokens (h :: rest))).
Proof.
  destruct 1 as [ts fs ats attrs Hfs Hats]. intros Hh Hn.
  rewrite length_app in Hn.
  unfold _parse_product. rewrite <- app_assoc.
  erewrite bind_ok by (apply fields_parse_fields; [done | lia]).
  erewrite bind_ok; [reflexivity|].
  apply opt_attributes_parse; [done | | lia].
  intros ->. by apply Hh.
Qed.

Lemma fields_starts_LParen ts fs :
  Grammar.fields Q ts fs -> exists l ts', ts = l :: ts' /\ kind l = LParen.
Proof. destruct 1; eauto. Qed.

Lemma constructor_starts ts c :
  Grammar.constructor Q ts c -> exists t ts', ts = t :: ts' /\ kind t = ConstructorId.
Proof. destruct 1; eauto. Qed.

Lemma optional_fields_absent n h rest :
  kind h <> LParen ->
  _parse_optional_fields n (at_tokens (h :: rest)) = Some (Ok (None, at_tokens (h :: rest))).
Proof.
  intros Hh. unfold _parse_optional_fields.
  erewrite bind_ok by reflexivity.
  rewrite bool_decide_eq_false_2 by done. reflexivity.
Qed.

Lemma optional_fields_present ts fs n rest :
  Grammar.fields Q ts fs -> length ts < n ->
  _parse_optional_fields n (at_tokens (ts ++ rest)) = Some (Ok (Some fs, at_tokens rest)).
Proof.
  intros Hfs Hn. unfold _parse_optional_fields.
  destruct (fields_starts_LParen _ _ Hfs) as (l & ts' & Hts & Hl).
  erewrite bind_ok by (rewrite Hts; reflexivity).
  rewrite bool_decide_eq_true_2 by done.
  erewrite bind_ok by (apply fields_parse_fields; done).
  reflexivity.
Qed.

Lemma constructor_parse ts c n h rest :
  Grammar.constructor Q ts c ->
  kind h <> LParen ->
  length ts < n ->
  parse_constructor n (at_tokens (ts ++ h :: rest)) = Some (Ok (c, at_tokens (h :: rest))).
Proof.
  destruct 1 as [t Ht | t ts fs Ht Hfs]; intros Hh Hn; unfold parse_constructor.
  - erewrite bind_ok by (apply match_at; simpl; by rewrite Ht).
    erewrite bind_ok by (by apply optional_fields_absent).
    reflexivity.
  - rewrite <- app_comm_cons.
    erewrite bind_ok by (apply match_at; simpl; by rewrite Ht).
    erewrite bind_ok by (apply optional_fields_present; [done | simpl in Hn; lia]).
    reflexivity.
Qed.

Lemma constructor_length ts c : Grammar.constructor Q ts c -> 0 < length ts.
Proof. destruct 1; simpl; lia. Qed.

Lemma more_constructors_parse ts cs :
  Grammar.more_constructors Q ts cs ->
  forall n h rest, kind h <> LParen -> kind h <> Pipe -> length ts < n ->
  sum_loop n (at_tokens (ts ++ h :: rest)) = Some (Ok (cs, at_tokens (h :: rest))).
Proof.
  induction 1 as [| p ts c more cs Hp Hc Hmore IH]; intros n h rest HhL HhP Hn;
    (destruct n as [|n]; [simpl in Hn; lia|]).
  - simpl. erewrite bind_ok by reflexivity.
    rewrite bool_decide_eq_false_2 by done. reflexivity.
  - simpl in Hn. rewrite length_app in Hn.
    rewrite <- app_comm_cons, <- app_assoc.
    cbn [sum_loop]. erewrite bind_ok by reflexivity.
    rewrite bool_decide_eq_true_2 by done.
    erewrite bind_ok by apply advance_at.
    assert (exists h' rest', (more ++ h :: rest)%list = h' :: rest' /\ kind h' <> LParen)
      as (h' & rest' & Heq & Hh').
    { destruct Hmore; simpl; eauto. eexists _, _. split; [reflexivity|]. congruence. }
    erewrite bind_ok by (rewrite Heq; apply constructor_parse; [done.. | lia]).
    rewrite <- Heq.
    erewrite bind_ok by (apply IH; [done.. | lia]).
    reflexivity.
Qed.

Lemma type_parse ts v n h rest :
  Grammar.type Q ts v ->
  kind h = TypeId \/ kind h = RBrace ->
  (attribute_fields v = [] -> ~ Grammar.is_keyword "attributes" h) ->
  length ts < n ->
  _parse_type n (at_tokens (ts ++ h :: rest)) = Some (Ok (v, at_tokens (h :: rest))).
Proof.
  destruct 1 as [ts p Hp | ts s Hs]; intros Hk Hh Hn; unfold _parse_type.
  - assert (exists l ts', ts = l :: ts' /\ kind l = LParen) as (l & ts' & Hts & Hl).
    { destruct Hp as [? ? ? ? Hfs _]. destruct Hfs. eauto. }
    erewrite bind_ok by (rewrite Hts; reflexivity).
    rewrite bool_decide_eq_true_2 by done.
    erewrite bind_ok by (apply product_parse; done).
    reflexivity.
  - destruct Hs as [ts c more cs ats attrs Hc Hmore Hats].
    rewrite !length_app in Hn.
    destruct (constructor_starts _ _ Hc) as (t & ts' & Hts & Ht).
    erewrite bind_ok by (rewrite Hts; reflexivity).
    rewrite bool_decide_eq_false_2 by congruence.
    rewrite <- !app_assoc.
    assert (kind h <> LParen /\ kind h <> Pipe) as [HhL HhP]
      by (destruct Hk as [-> | ->]; done).
    assert (exists a rest', (ats ++ h :: rest)%list = a :: rest' /\
              kind a <> LParen /\ kind a <> Pipe) as (a & rest' & Hats_eq & HaL & HaP).
    { destruct Hats as [| kw ? ? [Hkw _] _]; simpl; eauto.
      eexists _, _. split; [reflexivity|]. rewrite Hkw. done. }
    assert (exists b rest'', (more ++ ats ++ h :: rest)%list = b :: rest'' /\ kind b <> LParen)
      as (b & rest'' & Hmore_eq & HbL).
    { destruct Hmore; simpl; [rewrite Hats_eq; eauto|].
      eexists _, _. split; [reflexivity|]. congruence. }
    erewrite bind_ok by (rewrite Hmore_eq; apply constructor_parse; [done.. | lia]).
    rewrite <- Hmore_eq.
    erewrite bind_ok by (rewrite Hats_eq; apply more_constructors_parse; [done.. | lia]).
    rewrite <- Hats_eq.
    erewrite bind_ok; [reflexivity|].
    apply opt_attributes_parse; [done | | lia].
    intros ->. by apply Hh.
Qed.

Lemma type_length ts v : Grammar.type Q ts v -> 0 < length ts.
Proof.
  destruct 1 as [ts p [? ? ? ? [] _] | ts s [? ? ? ? ? ? Hc _ _]].
  - simpl. lia.
  - apply constructor_length in Hc. rewrite length_app. lia.
Qed.

Lemma definitions_parse ts ds :
  Grammar.definitions Q ts ds ->
  forall n r rest, attributes_unambiguous ds = true -> kind r = RBrace ->
  length ts < n ->
  _parse_definitions n (at_tokens (ts ++ r :: rest)) = Some (Ok (ds, at_tokens (r :: rest))).
Proof.
  induction 1 as [| t e ts v more ds Ht He Hv Hmore IH]; intros n r rest Hu Hr Hn;
    (destruct n as [|n]; [simpl in Hn; lia|]).
  - simpl. erewrite bind_ok by reflexivity.
    rewrite bool_decide_eq_false_2 by congruence. reflexivity.
  - simpl in Hn. rewrite length_app in Hn.
    rewrite <- !app_comm_cons, <- app_assoc.
    cbn [_parse_definitions]. erewrite bind_ok by reflexivity.
    rewrite bool_decide_eq_true_2 by done.
    erewrite bind_ok by apply advance_at.
    erewrite bind_ok by (apply match_at; simpl; by rewrite He).
    assert (exists h rest', (more ++ r :: rest)%list = h :: rest' /\
              (kind h = TypeId \/ kind h = RBrace) /\
              (attribute_fields v = [] -> ~ Grammar.is_keyword "attributes" h))
      as (h & rest' & Heq & Hk & Hh).
    { destruct Hmore as [| t' e' ts' v' more' ds' Ht' _ _ _]; simpl.
      - eexists _, _. split; [reflexivity|]. split; [by right|].
        intros _ [Hkind _]. congruence.
      - eexists _, _. split; [reflexivity|]. split; [by left|].
        intros Hnil [_ Hval]. simpl in Hu.
        rewrite (bool_decide_eq_true_2 _ Hnil), (bool_decide_eq_true_2 _ Hval) in Hu.
        discriminate. }
    erewrite bind_ok by (rewrite Heq; apply type_parse; [done.. | lia]).
    rewrite <- Heq.
    erewrite bind_ok; [reflexivity|].
    apply IH; [| done | lia].
    simpl in Hu. apply andb_true_iff in Hu as [_ Hu]. exact Hu.
Qed.

Lemma module_parse_tokens ts m :
  Grammar.module Q ts m ->
  attributes_unambiguous (Module_dfns m) = true ->
  parse_tokens (mkGenerator ts None) = Some (Ok m).
Proof.
  destruct 1 as [kw n l ts r ds [Hkw Hval] Hn Hl Hds Hr]. simpl. intros Hu.
  unfold parse_tokens.
  erewrite bind_ok by reflexivity.
  unfold _parse_module.
  erewrite bind_ok by reflexivity.
  rewrite !bool_decide_eq_true_2 by done. cbn [andb].
  erewrite bind_ok by (erewrite bind_ok by reflexivity; reflexivity).
  erewrite bind_ok.
  2:{ apply (match_at _ n). simpl. apply bool_decide_eq_true_2.
      unfold _id_kinds. destruct Hn as [-> | ->]; set_solver. }
  erewrite bind_ok by (apply match_at; simpl; by rewrite Hl).
  erewrite bind_ok.
  2:{ apply definitions_parse; [done.. |]. simpl. rewrite !length_app. simpl. lia. }
  erewrite bind_ok by (apply match_at; simpl; by rewrite Hr).
  reflexivity.
Qed.



(** *** A definition named [attributes] after a type without attributes *)

Lemma optional_attributes_keyword n kw e rest :
  Grammar.is_keyword "attributes" kw ->
  kind e = Equals ->
  _parse_optional_attributes n (at_tokens (kw :: e :: rest)) =
    Some (Raise (ASDLSyntaxError_init (Unmatched (One LParen) Equals) (lineno e))).
Proof.
  intros [Hk Hv] He. unfold _parse_optional_attributes.
  erewrite bind_ok by reflexivity.
  rewrite !bool_decide_eq_true_2 by done. cbn [andb].
  erewrite bind_ok by apply advance_at.
  apply bind_raise. unfold _parse_fields.
  apply bind_raise. rewrite match_at_raise by (simpl; by rewrite He).
  by rewrite He.
Qed.

Lemma type_parse_keyword ts v n kw e rest :
  Grammar.type Q ts v ->
  attribute_fields v = [] ->
  Grammar.is_keyword "attributes" kw ->
  kind e = Equals ->
  length ts < n ->
  _parse_type n (at_tokens (ts ++ kw :: e :: rest)) =
    Some (Raise (ASDLSyntaxError_init (Unmatched (One LParen) Equals) (lineno e))).
Proof.
  intros Hty Hnil Hkw He Hn. pose proof Hkw as [Hk _].
  destruct Hty as [ts p Hp | ts s Hs]; unfold _parse_type.
  - destruct Hp as [ts fs ats attrs Hfs Hats].
    destruct (fields_starts_LParen _ _ Hfs) as (l & ts' & Hts & Hl).
    rewrite length_app in Hn.
    erewrite bind_ok by (rewrite Hts; reflexivity).
    rewrite bool_decide_eq_true_2 by done.
    apply bind_raise. unfold _parse_product. rewrite <- app_assoc.
    erewrite bind_ok by (apply fields_parse_fields; [done | lia]).
    apply bind_raise.
    destruct Hats as [| ? ? ? _ Hfs'].
    + by apply optional_attributes_keyword.
    + simpl in Hnil. by apply fields_nonempty in Hfs'.
  - destruct Hs as [ts c more cs ats attrs Hc Hmore Hats].
    rewrite !length_app in Hn.
    destruct (constructor_starts _ _ Hc) as (t & ts' & Hts & Ht).
    erewrite bind_ok by (rewrite Hts; reflexivity).
    rewrite bool_decide_eq_false_2 by congruence.
    rewrite <- !app_assoc.
    destruct Hats as [| ? ? ? _ Hfs'];
      [|simpl in Hnil; by apply fields_nonempty in Hfs'].
    simpl app.
    assert (exists b rest'', (more ++ kw :: e :: rest)%list = b :: rest'' /\ kind b <> LParen)
      as (b & rest'' & Hmore_eq & HbL).
    { destruct Hmore; simpl; eexists _, _; (split; [reflexivity|]); congruence. }
    erewrite bind_ok by (rewrite Hmore_eq; apply constructor_parse; [done.. | lia]).
    rewrite <- Hmore_eq.
    erewrite bind_ok by (apply more_constructors_parse; [done | congruence | congruence | simpl in Hn; lia]).
    apply bind_raise. by apply optional_attributes_keyword.
Qed.

Lemma definitions_parse_ambiguous ts ds :
  Grammar.definitions Q ts ds ->
  forall n r rest, attributes_unambiguous ds = false -> kind r = RBrace ->
  length ts < n ->
  exists e, kind e = Equals /\
    _parse_definitions n (at_tokens (ts ++ r :: rest)) =
      Some (Raise (ASDLSyntaxError_init (Unmatched (One LParen) Equals) (lineno e))).
Proof.
  induction 1 as [| t e ts v more ds Ht He Hv Hmore IH]; intros n r rest Hu Hr Hn;
    [discriminate|].
  destruct n as [|n]; [simpl in Hn; lia|].
  simpl in Hn. rewrite length_app in Hn.
  rewrite <- !app_comm_cons, <- app_assoc.
  cbn [_parse_definitions].
  destruct Hmore as [| t' e' ts' v' more' ds' Ht' He' Hv' Hmore']; [discriminate|].
  erewrite bind_ok by reflexivity.
  rewrite bool_decide_eq_true_2 by done.
  erewrite bind_ok by apply advance_at.
  erewrite bind_ok by (apply match_at; simpl; by rewrite He).
  rewrite <- !app_comm_cons.
  destruct (decide (attribute_fields v = [] /\ value t' = "attributes"))
    as [[Hnil Hval]|Hne].
  - exists e'. split; [done|].
    apply bind_raise.
    apply (type_parse_keyword ts v); [done | done | by split | done | lia].
  - cbn [attributes_unambiguous] in Hu. apply andb_false_iff in Hu as [Hu|Hu].
    { apply negb_false_iff, andb_true_iff in Hu as [Hnil Hval].
      apply bool_decide_eq_true in Hnil, Hval. by destruct Hne. }
    destruct (IH n r rest Hu Hr ltac:(lia)) as (e0 & He0 & Hraise).
    exists e0. split; [done|].
    erewrite bind_ok.
    2:{ apply (type_parse ts v); [done | by left | | lia].
        intros Hnil [_ Hval]. by apply Hne. }
    apply bind_raise. rewrite <- !app_comm_cons in Hraise. exact Hraise.
Qed.

Lemma module_parse_tokens_ambiguous ts m :
  Grammar.module Q ts m ->
  attributes_unambiguous (Module_dfns m) = false ->
  exists e, kind e = Equals /\
    parse_tokens (mkGenerator ts None) =
      Some (Raise (ASDLSyntaxError_init (Unmatched (One LParen) Equals) (lineno e))).
Proof.
  destruct 1 as [kw n l ts r ds [Hkw Hval] Hn Hl Hds Hr]. simpl. intros Hu.
  unfold parse_tokens. cbn [pending].
  destruct (definitions_parse_ambiguous _ _ Hds
              (S (S (length (kw :: n :: l :: ts ++ [r])))) r [] Hu Hr)
    as (e & He & Hraise).
  { simpl. rewrite length_app. lia. }
  exists e. split; [done|].
  erewrite bind_ok by reflexivity.
  unfold _parse_module.
  erewrite bind_ok by reflexivity.
  rewrite !bool_decide_eq_true_2 by done. cbn [andb].
  erewrite bind_ok by (erewrite bind_ok by reflexivity; reflexivity).
  erewrite bind_ok.
  2:{ apply (match_at _ n). simpl. apply bool_decide_eq_true_2.
      unfold _id_kinds. destruct Hn as [-> | ->]; set_solver. }
  erewrite bind_ok by (apply match_at; simpl; by rewrite Hl).
  erewrite bind_raise; [reflexivity|]. exact Hraise.
Qed.


(** *** Commas in a fields list *)

Lemma fields_loop_stop n x rest :
  kind x <> TypeId ->
  fields_loop (S n) (at_tokens (x :: rest)) = Some (Ok ([], at_tokens (x :: rest))).
Proof.
  intros Hx. cbn [fields_loop]. erewrite bind_ok by reflexivity.
  rewrite bool_decide_eq_false_2 by done. reflexivity.
Qed.

Lemma field_seq_then_comma ts fs :
  Grammar.field_seq Q ts fs ->
  forall n c x rest, kind c = Comma -> kind x <> TypeId -> S (length ts) < n ->
  fields_loop n (at_tokens (ts ++ c :: x :: rest)) = Some (Ok (fs, at_tokens (x :: rest))).
Proof.
  induction 1 as [ts f Hf | ts f c0 more fs Hf Hc0 Hmore IH]; intros n c x rest Hc Hx Hn.
  - destruct n as [|[|n]]; [lia..|].
    rewrite (fields_loop_comma _ _ _ _ _ Hf Hc).
    erewrite bind_ok by (by apply fields_loop_stop). reflexivity.
  - rewrite length_app in Hn. simpl in Hn.
    destruct n as [|n]; [lia|].
    rewrite <- app_assoc, <- app_comm_cons.
    rewrite (fields_loop_comma _ _ _ _ _ Hf Hc0).
    erewrite bind_ok; [reflexivity|].
    apply IH; [done.. | lia].
Qed.

Lemma fields_loop_juxtaposed ts f nx rest n :
  Grammar.field Q ts f ->
  Field_name f <> None ->
  kind nx = TypeId ->
  fields_loop (S n) (at_tokens (ts ++ nx :: rest)) =
    (fs ← fields_loop n; mret (f :: fs)) (at_tokens (nx :: rest)).
Proof.
  intros Hf Hname Hnx. destruct Hf as [t q i seq opt id Ht Hq Hi].
  apply HQ in Hq.
  destruct Hi as [ | i [Hi|Hi] ]; [done | |];
    destruct Hq as [? ? ? [ | q1 Hqk | a1 Hak] | q1 a1 Hqk Hak];
    concrete_tokens; reflexivity.
Qed.

Lemma parse_fields_empty n l r rest :
  kind l = LParen -> kind r = RParen ->
  _parse_fields (S n) (at_tokens (l :: r :: rest)) = Some (Ok ([], at_tokens rest)).
Proof.
  intros Hl Hr. unfold _parse_fields.
  erewrite bind_ok by (apply match_at; simpl; by rewrite Hl).
  erewrite bind_ok by (apply fields_loop_stop; congruence).
  erewrite bind_ok by (apply match_at; simpl; by rewrite Hr).
  reflexivity.
Qed.

Lemma parse_fields_commas ts fs n l c c' r rest :
  Grammar.field_seq Q ts fs ->
  kind l = LParen -> kind c = Comma -> kind c' = Comma -> kind r = RParen ->
  S (length ts) < n ->
  _parse_fields n (at_tokens (l :: ts ++ r :: rest)) = Some (Ok (fs, at_tokens rest)) /\
  _parse_fields n (at_tokens (l :: ts ++ c :: r :: rest)) = Some (Ok (fs, at_tokens rest)) /\
  _parse_fields n (at_tokens (l :: ts ++ c :: c' :: rest)) =
    Some (Raise (ASDLSyntaxError_init (Unmatched (One RParen) Comma) (lineno c'))).
Proof.
  intros Hfs Hl Hc Hc' Hr Hn. unfold _parse_fields. split; [|split].
  - erewrite bind_ok by (apply match_at; simpl; by rewrite Hl).
    erewrite bind_ok by (apply field_seq_fields_loop; [done.. | lia]).
    erewrite bind_ok by (apply match_at; simpl; by rewrite Hr).
    reflexivity.
  - erewrite bind_ok by (apply match_at; simpl; by rewrite Hl).
    erewrite bind_ok by (apply field_seq_then_comma; [done | done | congruence | done]).
    erewrite bind_ok by (apply match_at; simpl; by rewrite Hr).
    reflexivity.
  - erewrite bind_ok by (apply match_at; simpl; by rewrite Hl).
    erewrite bind_ok by (apply field_seq_then_comma; [done | done | congruence | done]).
    erewrite bind_raise; [reflexivity|].
    rewrite match_at_raise by (simpl; by rewrite Hc').
    by rewrite Hc'.
Qed.

End Completeness.

(** *** A missing type *)
Lemma missing_type_raises kw n l t e r rest :
  Grammar.is_keyword "module" kw -> Grammar.is_Id n -> kind l = LBrace ->
  kind t = TypeId -> kind e = Equals -> kind r = RBrace ->
  parse_tokens (mkGenerator (kw :: n :: l :: t :: e :: r :: rest) None) =
    Some (Raise (ASDLSyntaxError_init (Unmatched (One ConstructorId) RBrace) (lineno r))).
Proof.
  intros [Hk Hv] [Hn|Hn] Hl Ht He Hr; concrete_tokens; reflexivity.
Qed.

(** *** The name-to-value mapping of a module *)
Lemma types_of_snoc ds d :
  types_of (ds ++ [d]) = <[Type_name d := Type_value d]> (types_of ds).
Proof. unfold types_of. by rewrite foldl_snoc. Qed.

Lemma types_of_last_wins ds1 d ds2 :
  (forall d', d' ∈ ds2 -> Type_name d' <> Type_name d) ->
  types_of (ds1 ++ d :: ds2) !! Type_name d = Some (Type_value d).
Proof.
  induction ds2 as [|d2 ds2 IH] using rev_ind; intros Hne.
  - rewrite types_of_snoc. apply lookup_insert_eq.
  - rewrite app_comm_cons, app_assoc, types_of_snoc.
    rewrite lookup_insert_ne.
    + apply IH. intros d' Hd'. apply Hne. apply elem_of_app. by left.
    + apply Hne. apply elem_of_app. right. by left.
Qed.

(** ** A token stream of identifiers alone *)
Lemma bind_inv {A B} (m : M A) (k : A -> M B) s b s2 :
  (m ≫= k) s = Some (Ok (b, s2)) ->
  exists a s1, m s = Some (Ok (a, s1)) /\ k a s1 = Some (Ok (b, s2)).
Proof.
  unfold mbind, M_bind, bind. destruct (m s) as [[[a s1]|e]|]; [eauto | done..].
Qed.

Section Never.

Lemma advance_ids s a s' :
  ids_only s -> _advance s = Some (Ok (a, s')) -> ids_only s'.
Proof.
  intros [Hc Hp]. unfold _advance.
  destruct (pending (_tokenizer s)) as [|t rest] eqn:E.
  - destruct (stop (_tokenizer s)); [done|]. intros [= _ <-].
    split; [done|]. simpl. by rewrite E.
  - intros [= _ <-]. inversion Hp; subst. split; simpl; [|done].
    by intros t' [= <-].
Qed.

Lemma match_ids kinds s v s' :
  ids_only s -> _match kinds s = Some (Ok (v, s')) ->
  ids_only s' /\ exists t, cur_token s = Some t /\ kind_matches kinds (kind t) = true.
Proof.
  intros Hs. unfold _match. intros (t & s1 & Hcur & Hk)%bind_inv.
  unfold cur in Hcur. destruct (cur_token s) as [t0|] eqn:E; [|done].
  injection Hcur as <- <-.
  destruct (kind_matches kinds (kind t0)) eqn:Hm; [|done].
  apply bind_inv in Hk as (a & s2 & Hadv & Hret).
  injection Hret as _ <-. split; [by eapply advance_ids | eauto].
Qed.

Lemma parse_tokens_ids g m :
  Forall (fun t => kind t = ConstructorId \/ kind t = TypeId) (pending g) ->
  parse_tokens g <> Some (Ok m).
Proof.
  intros Hg. unfold parse_tokens.
  destruct ((_advance;; _parse_module (S (S (length (pending g))))) (mkParser g None))
    as [[[m' s]|e]|] eqn:E; [|done..].
  exfalso. clear m.
  apply bind_inv in E as (a0 & s0 & Hadv & E).
  assert (ids_only s0) as H0.
  { eapply advance_ids; [|exact Hadv]. split; [done|exact Hg]. }
  unfold _parse_module in E.
  apply bind_inv in E as (kw & s1 & Hkw & E).
  assert (s1 = s0) as ->.
  { unfold _at_keyword in Hkw. apply bind_inv in Hkw as (t & s' & Hc & Hret).
    unfold cur in Hc. destruct (cur_token s0); [|done].
    injection Hc as <- <-. by injection Hret as _ <-. }
  apply bind_inv in E as ([] & s2 & Hstep & E).
  assert (ids_only s2) as H2.
  { destruct kw.
    - apply bind_inv in Hstep as (a & s' & Hadv' & Hret).
      injection Hret as <-. by eapply advance_ids.
    - apply bind_inv in Hstep as (t & s' & _ & Hraise). done. }
  apply bind_inv in E as (name & s3 & Hname & E).
  apply (match_ids _ _ _ _ H2) in Hname as [H3 _].
  apply bind_inv in E as (lb & s4 & Hlb & _).
  apply (match_ids _ _ _ _ H3) in Hlb as [_ (t & Hcur & Hk)].
  destruct H3 as [Hc _]. apply Hc in Hcur.
  simpl in Hk. apply bool_decide_eq_true in Hk.
  destruct Hcur; congruence.
Qed.

End Never.

(** ** Termination of the parser within its fuel *)
Section Termination.

Lemma terminates_le {A} b b' (m : M A) s :
  terminates b m s -> b <= b' -> terminates b' m s.
Proof. unfold terminates. destruct (m s) as [[[a s']|e]|]; [lia | done..]. Qed.

Lemma terminates_ret {A} (a : A) s : terminates (remaining s) (mret a) s.
Proof. unfold terminates. simpl. lia. Qed.

Lemma terminates_raise {A} b e s : terminates b (@raise A e) s.
Proof. done. Qed.

Lemma terminates_bind {A B} b b' (m : M A) (k : A -> M B) s :
  terminates b m s ->
  (forall a s', m s = Some (Ok (a, s')) -> remaining s' <= b -> terminates b' (k a) s') ->
  terminates b' (m ≫= k) s.
Proof.
  unfold terminates at 1. intros Hm Hk. unfold terminates, mbind, M_bind, bind.
  destruct (m s) as [[[a s']|e]|]; [|done..]. by apply Hk.
Qed.

Lemma cur_inv s t s' :
  cur s = Some (Ok (t, s')) -> s' = s /\ cur_token s = Some t.
Proof. unfold cur. destruct (cur_token s); [|done]. by intros [= <- <-]. Qed.

Lemma terminates_cur s : terminates (remaining s) cur s.
Proof. unfold terminates, cur. destruct (cur_token s); [lia | done]. Qed.

Lemma terminates_advance s : terminates (remaining s) _advance s.
Proof.
  unfold terminates, _advance, remaining.
  destruct s as [[p st] c]; simpl.
  destruct p as [|t p]; [destruct st|]; simpl; [done | lia | destruct c; lia].
Qed.

(** Advancing from a token takes it. *)
Lemma terminates_advance_cur s t :
  cur_token s = Some t -> terminates (pred (remaining s)) _advance s.
Proof.
  unfold terminates, _advance, remaining.
  destruct s as [[p st] c]; simpl. intros ->.
  destruct p as [|t' p]; [destruct st|]; simpl; [done | lia | lia].
Qed.

Ltac tbind lem :=
  eapply terminates_bind;
    [apply lem; try lia | intros ? ? ? ?; cbv beta].

Ltac goal_case :=
  match goal with |- context [bool_decide ?P] => destruct (bool_decide P) end.

Ltac tdone := eapply terminates_le; [apply terminates_ret | lia].

Lemma terminates_match kinds s : terminates (remaining s) (_match kinds) s.
Proof.
  unfold _match. tbind terminates_cur.
  destruct (kind_matches kinds _); [|apply terminates_raise].
  tbind terminates_advance. tdone.
Qed.

Lemma terminates_at_keyword w s : terminates (remaining s) (_at_keyword w) s.
Proof. unfold _at_keyword. tbind terminates_cur. tdone. Qed.

Lemma terminates_if_advance {A} (c : bool) (x y : A) s :
  terminates (remaining s) (if c then _advance;; ret x else ret y) s.
Proof. destruct c; [tbind terminates_advance; tdone | tdone]. Qed.

Lemma terminates_if_advance_value (c : bool) s :
  terminates (remaining s) (if c then _advance else ret None) s.
Proof. destruct c; [apply terminates_advance | tdone]. Qed.

Lemma terminates_quantifier s :
  terminates (remaining s) _parse_optional_field_quantifier s.
Proof.
  unfold _parse_optional_field_quantifier.
  tbind terminates_cur. tbind @terminates_if_advance.
  tbind terminates_cur. tbind @terminates_if_advance. tdone.
Qed.

Lemma terminates_fields_loop n : forall s,
  remaining s < n -> terminates (remaining s) (fields_loop n) s.
Proof.
  induction n as [|n IH]; intros s Hn; [lia|].
  cbn [fields_loop]. eapply terminates_bind; [apply terminates_cur|].
  intros t s0 [-> Hcur]%cur_inv _; cbv beta.
  assert (0 < remaining s) by (unfold remaining; rewrite Hcur; lia).
  goal_case; [|tdone].
  eapply terminates_bind; [by eapply terminates_advance_cur|].
  intros ? s1 _ H1; cbv beta.
  tbind terminates_quantifier. destruct a0 as [is_seq is_opt].
  tbind terminates_cur. tbind terminates_if_advance_value.
  tbind terminates_cur.
  goal_case; [tdone|].
  tbind @terminates_if_advance. tbind IH. tdone.
Qed.

Lemma terminates_parse_fields n s :
  remaining s < n -> terminates (remaining s) (_parse_fields n) s.
Proof.
  intros Hn. unfold _parse_fields.
  tbind terminates_match. tbind terminates_fields_loop.
  tbind terminates_match. tdone.
Qed.

Lemma terminates_optional_fields n s :
  remaining s < n -> terminates (remaining s) (_parse_optional_fields n) s.
Proof.
  intros Hn. unfold _parse_optional_fields.
  tbind terminates_cur. goal_case; [|tdone].
  tbind terminates_parse_fields. tdone.
Qed.

Lemma terminates_optional_attributes n s :
  remaining s < n -> terminates (remaining s) (_parse_optional_attributes n) s.
Proof.
  intros Hn. unfold _parse_optional_attributes.
  tbind terminates_at_keyword. destruct a; [|tdone].
  tbind terminates_advance. tbind terminates_parse_fields. tdone.
Qed.

Lemma terminates_product n s :
  remaining s < n -> terminates (remaining s) (_parse_product n) s.
Proof.
  intros Hn. unfold _parse_product.
  tbind terminates_parse_fields. tbind terminates_optional_attributes. tdone.
Qed.

Lemma terminates_constructor n s :
  remaining s < n -> terminates (remaining s) (parse_constructor n) s.
Proof.
  intros Hn. unfold parse_constructor.
  tbind terminates_match. tbind terminates_optional_fields. tdone.
Qed.

Lemma terminates_sum_loop n : forall s,
  remaining s < n -> terminates (remaining s) (sum_loop n) s.
Proof.
  induction n as [|n IH]; intros s Hn; [lia|].
  cbn [sum_loop]. eapply terminates_bind; [apply terminates_cur|].
  intros t s0 [-> Hcur]%cur_inv _; cbv beta.
  assert (0 < remaining s) by (unfold remaining; rewrite Hcur; lia).
  goal_case; [|tdone].
  eapply terminates_bind; [by eapply terminates_advance_cur|].
  intros ? s1 _ H1; cbv beta.
  tbind terminates_constructor. tbind IH. tdone.
Qed.

Lemma terminates_type n s :
  remaining s < n -> terminates (remaining s) (_parse_type n) s.
Proof.
  intros Hn. unfold _parse_type.
  tbind terminates_cur. goal_case.
  - tbind terminates_product. tdone.
  - tbind terminates_constructor. tbind terminates_sum_loop.
    tbind terminates_optional_attributes. tdone.
Qed.

Lemma terminates_definitions n : forall s,
  remaining s < n -> terminates (remaining s) (_parse_definitions n) s.
Proof.
  induction n as [|n IH]; intros s Hn; [lia|].
  cbn [_parse_definitions]. eapply terminates_bind; [apply terminates_cur|].
  intros t s0 [-> Hcur]%cur_inv _; cbv beta.
  assert (0 < remaining s) by (unfold remaining; rewrite Hcur; lia).
  goal_case; [|tdone].
  eapply terminates_bind; [by eapply terminates_advance_cur|].
  intros ? s1 _ H1; cbv beta.
  tbind terminates_match. tbind terminates_type. tbind IH. tdone.
Qed.

Lemma terminates_module n s :
  remaining s < n -> terminates (remaining s) (_parse_module n) s.
Proof.
  intros Hn. unfold _parse_module.
  tbind terminates_at_keyword.
  eapply terminates_bind with (b := remaining s').
  { destruct a.
    - tbind terminates_advance. tdone.
    - tbind terminates_cur. apply terminates_raise. }
  intros ? ? ? ?; cbv beta. tbind terminates_match. tbind terminates_match.
  tbind terminates_definitions. tbind terminates_match. tdone.
Qed.

(** The fuel [parse_tokens] gives to the loops is never used up: the
    parser returns a module or raises. *)
Lemma parse_tokens_total g : parse_tokens g <> None.
Proof.
  unfold parse_tokens.
  assert (terminates (length (pending g))
            (_advance;; _parse_module (S (S (length (pending g))))) (mkParser g None)) as H.
  { eapply terminates_bind; [apply terminates_advance|].
    intros a s' _ Hs'. unfold remaining in Hs'. simpl in Hs'.
    eapply terminates_le; [apply terminates_module | ]; unfold remaining; lia. }
  unfold terminates in H.
  destruct ((_advance;; _parse_module _) _) as [[[m s]|e]|]; done.
Qed.

End Termination.

(** ** The checker *)
Section Checker_facts.
Import Checker.

Lemma visited_init : visited Check_init [] [].
Proof.
  split; [|split].
  - intros k. simpl. rewrite lookup_empty. split; [intros []; done | by intros ?%elem_of_nil].
  - split; [constructor | reflexivity].
  - intros t. simpl. rewrite lookup_empty. split; [intros []; done | by intros ?%elem_of_nil].
Qed.

Lemma visited_field v cs fs f name :
  visited v cs fs -> visited (visitField v f name) cs (fs ++ [f]).
Proof.
  intros (Hc & He & Ht). split; [exact Hc | split; [exact He|]].
  intros t. simpl. rewrite fmap_app, elem_of_app, <- Ht. simpl.
  rewrite list_elem_of_singleton.
  destruct (decide (Field_type f = t)) as [->|Hne].
  - rewrite lookup_insert_eq. split; [by right | by eexists].
  - rewrite lookup_insert_ne by done. split; [by left | intros [?|?]; congruence].
Qed.

Lemma visited_fields fs' name : forall v cs fs,
  visited v cs fs ->
  visited (foldl (fun v f => visitField v f name) v fs') cs (fs ++ fs').
Proof.
  induction fs' as [|f fs' IH]; intros v cs fs Hv.
  - simpl. by rewrite app_nil_r.
  - cbn [foldl]. rewrite (cons_middle f fs), (app_assoc fs).
    apply IH. by apply visited_field.
Qed.

Lemma visited_constructor v cs fs c name :
  visited v cs fs ->
  visited (visitConstructor v c name)
          (cs ++ [Constructor_name c]) (fs ++ Constructor_fields c).
Proof.
  intros (Hc & He & Ht). unfold visitConstructor.
  apply visited_fields.
  destruct (cons v !! Constructor_name c) as [conflict|] eqn:Hlook.
  - assert (Constructor_name c ∈ cs) as Hin by (apply Hc; by eexists).
    split; [|split; [|exact Ht]]; simpl.
    + intros k. rewrite elem_of_app, list_elem_of_singleton, Hc.
      split; [by left | intros [?| ->]; done].
    + split; [discriminate|].
      intros Hnd. apply NoDup_app in Hnd as (_ & Hdisj & _).
      exfalso. apply (Hdisj _ Hin). by left.
  - assert (Constructor_name c ∉ cs) as Hnin.
    { intros Hin. apply Hc in Hin as [? Hin]. congruence. }
    split; [|split; [|exact Ht]]; simpl.
    + intros k. rewrite elem_of_app, list_elem_of_singleton, <- Hc.
      destruct (decide (Constructor_name c = k)) as [->|Hne].
      * rewrite lookup_insert_eq. split; [by right | by eexists].
      * rewrite lookup_insert_ne by done. split; [by left | intros [?|?]; congruence].
    + rewrite He. rewrite NoDup_app. split.
      * intros Hnd. split; [done|]. split; [|apply NoDup_singleton].
        intros x Hx ->%list_elem_of_singleton. done.
      * by intros (? & _).
Qed.

Lemma visited_sum cs' name : forall v cs fs,
  visited v cs fs ->
  visited (foldl (fun v t => visitConstructor v t name) v cs')
          (cs ++ (Constructor_name <$> cs')) (fs ++ (cs' ≫= Constructor_fields)).
Proof.
  induction cs' as [|c cs' IH]; intros v cs fs Hv.
  - simpl. by rewrite !app_nil_r.
  - rewrite fmap_cons, bind_cons. cbn [foldl].
    rewrite (app_assoc fs), (cons_middle (Constructor_name c) cs), (app_assoc cs).
    apply IH. by apply visited_constructor.
Qed.

Lemma visited_type v cs fs t :
  visited v cs fs ->
  visited (visitType v t)
          (cs ++ (Constructor_name <$> constructors_of (Type_value t)))
          (fs ++ argument_fields (Type_value t)).
Proof.
  intros Hv. unfold visitType. destruct (Type_value t) as [s|p]; simpl.
  - by apply visited_sum.
  - rewrite app_nil_r. by apply visited_fields.
Qed.

Lemma visited_dfns dfns : forall v cs fs,
  visited v cs fs ->
  visited (foldl visitType v dfns)
          (cs ++ (Constructor_name <$> (dfns ≫= fun t => constructors_of (Type_value t))))
          (fs ++ (dfns ≫= fun t => argument_fields (Type_value t))).
Proof.
  induction dfns as [|t dfns IH]; intros v cs fs Hv.
  - simpl. by rewrite !app_nil_r.
  - rewrite !bind_cons, fmap_app, !app_assoc. cbn [foldl].
    apply IH. by apply visited_type.
Qed.

Lemma visited_module mod_ :
  visited (visitModule Check_init mod_)
          (Constructor_name <$> module_constructors mod_)
          (module_argument_fields mod_).
Proof. apply (visited_dfns _ _ [] []), visited_init. Qed.

Lemma undefined_false mod_ t : undefined mod_ t = false <-> known_type mod_ t.
Proof.
  unfold undefined, known_type. rewrite andb_false_iff, !bool_decide_eq_false.
  rewrite <- not_eq_None_Some. split.
  - intros [H|H]; [by right | left]. by destruct (decide (t ∈ builtin_types)).
  - intros [H|H]; [right | by left]. auto.
Qed.

Lemma undefined_count mod_ (e : nat) (m : gmap string (list string)) :
  map_fold (fun t _ n => if undefined mod_ t then S n else n) e m = 0 <->
  e = 0 /\ forall t, is_Some (m !! t) -> known_type mod_ t.
Proof.
  apply (map_fold_weak_ind (fun r m => r = 0 <-> e = 0 /\ forall t, is_Some (m !! t) -> known_type mod_ t)).
  - split; [|by intros []]. intros ->. split; [done|].
    intros t. rewrite lookup_empty. by intros [].
  - intros t x m' r Hnone IH.
    destruct (undefined mod_ t) eqn:Hu.
    + split; [discriminate|]. intros [_ Hall].
      assert (known_type mod_ t) as Hk by (apply Hall; rewrite lookup_insert_eq; by eexists).
      apply undefined_false in Hk. congruence.
    + rewrite IH. apply undefined_false in Hu.
      split; intros [He Hall]; (split; [done|]); intros t' Ht'.
      * destruct (decide (t = t')) as [<-|Hne]; [done|].
        rewrite lookup_insert_ne in Ht' by done. auto.
      * apply Hall. destruct (decide (t = t')) as [<-|Hne].
        -- rewrite lookup_insert_eq. by eexists.
        -- by rewrite lookup_insert_ne.
Qed.


End Checker_facts.

(** * The claims of the specification *)

Lemma quantifier_is_accepted q s o :
  Grammar.quantifier q s o -> Grammar.quantifier_or_both q s o.
Proof. by constructor. Qed.

Lemma quantifier_or_both_refl q s o :
  Grammar.quantifier_or_both q s o -> Grammar.quantifier_or_both q s o.
Proof. done. Qed.

(** ** No text parses *)

(** Whatever the text, [parse] returns no module: a module needs an
    opening brace, and the tokenizer yields no operator token. *)
Lemma parse_never_succeeds buf : ~ succeeds (parse buf).
Proof.
  intros [m Hm]. revert Hm. apply parse_tokens_ids.
  eapply Forall_impl; [apply tokenize_asdl_words|].
  apply classified_word_kind.
Qed.

(** ** Derivations of the sample inputs *)

Lemma example1_grammar :
  Grammar.module Grammar.quantifier example1_tokens example1_module.
Proof.
  apply (Grammar.module_intro _ (word 1 "module") (word 1 "Test") (op 1 LBrace)
           [word 1 "stmt"; op 1 Equals;
            word 1 "Expr"; op 1 LParen; word 1 "int"; word 1 "value"; op 1 RParen;
            op 1 Pipe; word 1 "Pass"]
           (op 1 RBrace)); [by split | by left | done | | done].
  apply (Grammar.definitions_cons _ (word 1 "stmt") (op 1 Equals)
           [word 1 "Expr"; op 1 LParen; word 1 "int"; word 1 "value"; op 1 RParen;
            op 1 Pipe; word 1 "Pass"] _ [] []); [done | done | | constructor].
  apply Grammar.type_sum.
  apply (Grammar.sum_intro _
           [word 1 "Expr"; op 1 LParen; word 1 "int"; word 1 "value"; op 1 RParen] _
           [op 1 Pipe; word 1 "Pass"] [_] [] None); [ | | constructor].
  - apply (Grammar.constructor_fields _ (word 1 "Expr")); [done|].
    apply (Grammar.fields_intro _ (op 1 LParen) [word 1 "int"; word 1 "value"] (op 1 RParen));
      [done | | done].
    apply Grammar.field_seq_last.
    apply (Grammar.field_intro _ (word 1 "int") [] [word 1 "value"] false false);
      [done | constructor | ].
    apply (Grammar.opt_id_some (word 1 "value")). by right.
  - apply (Grammar.more_constructors_cons _ (op 1 Pipe) [word 1 "Pass"] _ [] []);
      [done | | constructor].
    by apply (Grammar.constructor_bare _ (word 1 "Pass")).
Qed.

(** A sum of one constructor without fields, as in [X]. *)
Lemma bare_sum_grammar l (w : string) :
  kind (word l w) = ConstructorId ->
  Grammar.type Grammar.quantifier [word l w]
    (VSum (Sum_init [Constructor_init (value (word l w)) None] None)).
Proof.
  intros Hk. apply Grammar.type_sum.
  apply (Grammar.sum_intro _ [word l w] _ [] [] [] None); [|constructor..].
  by apply Grammar.constructor_bare.
Qed.

Lemma attributes_definition_grammar :
  Grammar.module Grammar.quantifier
    attributes_definition_tokens attributes_definition_module.
Proof.
  apply (Grammar.module_intro _ (word 1 "module") (word 1 "M") (op 1 LBrace)
           [word 1 "a"; op 1 Equals; word 1 "X";
            word 1 "attributes"; op 1 Equals; word 1 "Y"]
           (op 1 RBrace)); [by split | by left | done | | done].
  apply (Grammar.definitions_cons _ (word 1 "a") (op 1 Equals) [word 1 "X"] _
           [word 1 "attributes"; op 1 Equals; word 1 "Y"] [_]);
    [done | done | by apply (bare_sum_grammar 1 "X") | ].
  apply (Grammar.definitions_cons _ (word 1 "attributes") (op 1 Equals) [word 1 "Y"] _ [] []);
    [done | done | by apply (bare_sum_grammar 1 "Y") | constructor].
Qed.

(** One field with a name, as in [(int x)]. *)
Lemma named_field_grammar l (t n : string) :
  kind (word l t) = TypeId ->
  Grammar.fields Grammar.quantifier
    [op l LParen; word l t; word l n; op l RParen]
    [mkField (value (word l t)) (Some (value (word l n))) false false].
Proof.
  intros Hk.
  apply (Grammar.fields_intro _ (op l LParen) [word l t; word l n] (op l RParen));
    [done | | done].
  apply Grammar.field_seq_last.
  apply (Grammar.field_intro _ (word l t) [] [word l n] false false);
    [done | constructor | ].
  apply Grammar.opt_id_some. unfold Grammar.is_Id, word.
  destruct n as [|c n]; [by right|]. simpl. destruct (Chars.isupper c); auto.
Qed.

Lemma attributes_everywhere_grammar :
  Grammar.module Grammar.quantifier
    attributes_everywhere_tokens attributes_everywhere_module.
Proof.
  apply (Grammar.module_intro _ (word 1 "module") (word 1 "M") (op 1 LBrace)
           [word 1 "attributes"; op 1 Equals;
            op 1 LParen; word 1 "attributes"; word 1 "attributes"; op 1 RParen;
            word 1 "attributes"; op 1 LParen; word 1 "int"; word 1 "x"; op 1 RParen;
            word 2 "attributes"; op 2 Equals; word 2 "A"]
           (op 2 RBrace)); [by split | by left | done | | done].
  apply (Grammar.definitions_cons _ (word 1 "attributes") (op 1 Equals)
           [op 1 LParen; word 1 "attributes"; word 1 "attributes"; op 1 RParen;
            word 1 "attributes"; op 1 LParen; word 1 "int"; word 1 "x"; op 1 RParen] _
           [word 2 "attributes"; op 2 Equals; word 2 "A"] [_]);
    [done | done | | ].
  - apply Grammar.type_product.
    apply (Grammar.product_intro _
             [op 1 LParen; word 1 "attributes"; word 1 "attributes"; op 1 RParen] _
             [word 1 "attributes"; op 1 LParen; word 1 "int"; word 1 "x"; op 1 RParen]
             (Some _)).
    + by apply (named_field_grammar 1 "attributes" "attributes").
    + apply (Grammar.opt_attributes_some _ (word 1 "attributes")); [by split|].
      by apply (named_field_grammar 1 "int" "x").
  - apply (Grammar.definitions_cons _ (word 2 "attributes") (op 2 Equals) [word 2 "A"] _ [] []);
      [done | done | by apply (bare_sum_grammar 2 "A") | constructor].
Qed.

Lemma both_markers_grammar :
  Grammar.fields Grammar.quantifier_or_both both_markers_tokens
    [mkField "int" (Some "x") true true].
Proof.
  apply (Grammar.fields_intro _ (op 1 LParen)
           [word 1 "int"; op 1 Question; op 1 Asterisk; word 1 "x"] (op 1 RParen));
    [done | | done].
  apply Grammar.field_seq_last.
  apply (Grammar.field_intro _ (word 1 "int") [op 1 Question; op 1 Asterisk] [word 1 "x"]);
    [done | by apply Grammar.quantifier_both | ].
  apply (Grammar.opt_id_some (word 1 "x")). by right.
Qed.

Lemma a_b_grammar : Grammar.field_seq Grammar.quantifier a_b_tokens a_b_fields.
Proof.
  apply (Grammar.field_seq_cons _ [word 1 "a"] _ (op 1 Comma) [word 1 "b"] [_]); [|done|].
  - apply (Grammar.field_intro _ (word 1 "a") [] []); [done | constructor..].
  - apply Grammar.field_seq_last.
    apply (Grammar.field_intro _ (word 1 "b") [] []); [done | constructor..].
Qed.

(** ** C1: what [check] decides *)

(** C1, as amended.  [check] returns true exactly when no constructor name
    occurs twice in the module and every field of a product or of a
    constructor has a type that is a builtin primitive or a key of the
    module's name-to-value mapping.  Attribute fields are not examined. *)
Theorem check_decides (mod_ : Module_) :
  Checker.check mod_ = true <->
  NoDup (Constructor_name <$> module_constructors mod_) /\
  (forall f, f ∈ module_argument_fields mod_ -> known_type mod_ (Field_type f)).
Proof.
  unfold Checker.check. rewrite bool_decide_eq_true, undefined_count.
  destruct (visited_module mod_) as (_ & He & Ht).
  rewrite He. split; intros [Hnd Hall]; (split; [done|]).
  - intros f Hf. apply Hall, Ht. by apply list_elem_of_fmap_2.
  - intros t [f [-> Hf]]%Ht%list_elem_of_fmap. by apply Hall.
Qed.

(** C1, as stated, fails: the module of
    [module M { t = (int x) attributes (foo y) }], which the parser builds
    from these tokens, passes [check] although the type [foo] of its
    attribute field is neither builtin nor declared. *)
Lemma check_ignores_attribute_fields :
  parse_tokens (mkGenerator undefined_attribute_tokens None) =
    Some (Ok undefined_attribute_module) /\
  ~ (Checker.check undefined_attribute_module = true <->
     all_fields_known undefined_attribute_module).
Proof.
  split; [vm_compute; reflexivity|].
  intros [Himp _].
  destruct (Himp ltac:(vm_compute; reflexivity)) as [_ Hall].
  specialize (Hall (mkField "foo" (Some "y") false false)).
  assert (Checker.undefined undefined_attribute_module "foo" = true) as Hu
    by (vm_compute; reflexivity).
  apply not_false_iff_true in Hu. apply Hu, undefined_false, Hall.
  vm_compute. right. left.
Qed.

(** ** C2: definitions in source order *)

(** C2, as amended.  A token sequence that conforms to the grammar, [m]
    being the module the grammar reads in it with its definitions in
    textual order, is parsed into [m], provided no definition named
    [attributes] comes right after a type without attributes. *)
Theorem parse_definitions_in_order (ts : list Token) (m : Module_) :
  Grammar.module Grammar.quantifier ts m ->
  attributes_unambiguous (Module_dfns m) = true ->
  parse_tokens (mkGenerator ts None) = Some (Ok m).
Proof.
  intros Hg Hu.
  by apply (module_parse_tokens Grammar.quantifier quantifier_is_accepted).
Qed.

Lemma parse_definitions_in_order_witness :
  Grammar.module Grammar.quantifier example1_tokens example1_module /\
  attributes_unambiguous (Module_dfns example1_module) = true /\
  parse_tokens (mkGenerator example1_tokens None) = Some (Ok example1_module).
Proof.
  split; [exact example1_grammar | split; [reflexivity|]].
  apply (parse_definitions_in_order example1_tokens example1_module).
  - exact example1_grammar.
  - reflexivity.
Defined.

(** C2, as stated, fails on [module M { a = X attributes = Y }]: its tokens
    conform to the grammar, as two definitions, yet the parser takes
    [attributes] for the keyword and raises a syntax error at the [=];
    parsing the text itself stops earlier, at the opening brace. *)
Lemma attributes_definition_rejected :
  Grammar.module Grammar.quantifier
    attributes_definition_tokens attributes_definition_module /\
  parse_tokens (mkGenerator attributes_definition_tokens None) =
    Some (Raise (ASDLSyntaxError (Unmatched (One LParen) Equals) (Some 1))) /\
  parse "module M { a = X attributes = Y }" = Some (Raise not_subscriptable).
Proof.
  split; [exact attributes_definition_grammar|].
  split; vm_compute; reflexivity.
Qed.

(** ** C3: both quantifier markers *)

(** C3, as amended.  A fields list whose fields carry no marker, one
    marker, or the optional marker followed by the sequence marker, is
    accepted, and a field with both markers is recorded with both flags. *)
Theorem both_markers_accepted (ts : list Token) (fs : list Field)
    (n : nat) (rest : list Token) :
  Grammar.fields Grammar.quantifier_or_both ts fs ->
  length ts < n ->
  _parse_fields n (at_tokens (ts ++ rest)) = Some (Ok (fs, at_tokens rest)).
Proof.
  intros Hg Hn.
  by apply (fields_parse_fields Grammar.quantifier_or_both quantifier_or_both_refl).
Qed.

Lemma both_markers_accepted_witness :
  Grammar.fields Grammar.quantifier_or_both both_markers_tokens
    [mkField "int" (Some "x") true true] /\
  length both_markers_tokens < 7 /\
  _parse_fields 7 (at_tokens (both_markers_tokens ++ [])) =
    Some (Ok ([mkField "int" (Some "x") true true], at_tokens [])).
Proof.
  split; [exact both_markers_grammar | split; [simpl; lia|]].
  apply (both_markers_accepted both_markers_tokens _ 7 []).
  - exact both_markers_grammar.
  - simpl; lia.
Defined.

(** C3, as stated, fails for the other order: on the tokens of
    [module M { t = (int*? x) }] the parser raises a syntax error at the
    [?]; parsing the text itself stops earlier, at the opening brace. *)
Lemma sequence_then_optional_rejected :
  parse_tokens (mkGenerator markers_reversed_tokens None) =
    Some (Raise (ASDLSyntaxError (Unmatched (One RParen) Question) (Some 1))) /\
  parse "module M { t = (int*? x) }" = Some (Raise not_subscriptable).
Proof. split; vm_compute; reflexivity. Qed.

(** ** C4: the contextual keyword *)

(** C4.  On a token sequence that conforms to the grammar, whose
    identifiers may be [attributes] anywhere, the parser returns the module
    the grammar reads in it exactly when no definition named [attributes]
    comes right after a type without attributes, that is, right after a
    fields list or a constructor list: only there is the identifier taken
    for the keyword. *)
Theorem attributes_keyword_contextual (ts : list Token) (m : Module_) :
  Grammar.module Grammar.quantifier ts m ->
  (parse_tokens (mkGenerator ts None) = Some (Ok m) <->
   attributes_unambiguous (Module_dfns m) = true).
Proof.
  intros Hg. split.
  - intros Hok. destruct (attributes_unambiguous (Module_dfns m)) eqn:E; [done|].
    destruct (module_parse_tokens_ambiguous Grammar.quantifier quantifier_is_accepted
                _ _ Hg E) as (e & _ & Hraise).
    congruence.
  - by apply (module_parse_tokens Grammar.quantifier quantifier_is_accepted).
Qed.

Lemma attributes_keyword_contextual_witness :
  Grammar.module Grammar.quantifier
    attributes_everywhere_tokens attributes_everywhere_module /\
  parse_tokens (mkGenerator attributes_everywhere_tokens None) =
    Some (Ok attributes_everywhere_module).
Proof.
  split; [exact attributes_everywhere_grammar|].
  apply (attributes_keyword_contextual
           attributes_everywhere_tokens attributes_everywhere_module).
  - exact attributes_everywhere_grammar.
  - reflexivity.
Defined.

(** ** C5: commas in a fields list *)

(** C5, as amended.  After the fields [ts] of a fields list, the closing
    parenthesis may come at once or after one comma, with the same fields
    as the result; a second comma is a syntax error. *)
Theorem trailing_comma_same_fields (ts : list Token) (fs : list Field) (n : nat)
    (l c c' r : Token) (rest : list Token) :
  Grammar.field_seq Grammar.quantifier ts fs ->
  kind l = LParen -> kind c = Comma -> kind c' = Comma -> kind r = RParen ->
  S (length ts) < n ->
  _parse_fields n (at_tokens (l :: ts ++ r :: rest)) = Some (Ok (fs, at_tokens rest)) /\
  _parse_fields n (at_tokens (l :: ts ++ c :: r :: rest)) = Some (Ok (fs, at_tokens rest)) /\
  _parse_fields n (at_tokens (l :: ts ++ c :: c' :: rest)) =
    Some (Raise (ASDLSyntaxError_init (Unmatched (One RParen) Comma) (lineno c'))).
Proof.
  intros. by apply (parse_fields_commas Grammar.quantifier quantifier_is_accepted).
Qed.

Lemma trailing_comma_same_fields_witness :
  Grammar.field_seq Grammar.quantifier a_b_tokens a_b_fields /\
  S (length a_b_tokens) < 5 /\
  _parse_fields 5 (at_tokens (op 1 LParen :: a_b_tokens ++ op 1 Comma :: op 1 RParen :: [])) =
    Some (Ok (a_b_fields, at_tokens [])).
Proof.
  split; [exact a_b_grammar | split; [simpl; lia|]].
  apply (trailing_comma_same_fields a_b_tokens a_b_fields 5
           (op 1 LParen) (op 1 Comma) (op 1 Comma) (op 1 RParen) []).
  - exact a_b_grammar.
  - reflexivity.
  - reflexivity.
  - reflexivity.
  - reflexivity.
  - simpl; lia.
Defined.

(** C5, as stated, fails in its last clause: in [(a, b,)] a comma stands
    immediately before the closing parenthesis, and the list is accepted. *)
Lemma comma_before_closing_parenthesis_accepted :
  let ts := [op 1 LParen; word 1 "a"; op 1 Comma; word 1 "b"; op 1 Comma; op 1 RParen] in
  (kind <$> ts) !! 4 = Some Comma /\ (kind <$> ts) !! 5 = Some RParen /\
  _parse_fields 7 (at_tokens ts) = Some (Ok (a_b_fields, at_tokens [])).
Proof. repeat split. Qed.

(** ** C8, C9, C10: texts with an operator *)

(** C8, on the code.  Parsing [module Test { stmt = }] raises [TypeError]
    when the tokenizer meets the opening brace, not a syntax error at the
    closing one. *)
Theorem missing_type_text_raises_TypeError :
  parse "module Test { stmt = }" = Some (Raise not_subscriptable).
Proof. vm_compute. reflexivity. Qed.

(** C9, on the code.  Parsing [module M { t = () }] raises [TypeError] at
    the opening brace and returns no module. *)
Theorem empty_fields_text_raises_TypeError :
  parse "module M { t = () }" = Some (Raise not_subscriptable).
Proof. vm_compute. reflexivity. Qed.

(** C10, on the code.  Parsing [module M { t = A t = B }] raises
    [TypeError] at the opening brace and returns no module. *)
Theorem duplicate_definition_text_raises_TypeError :
  parse "module M { t = A t = B }" = Some (Raise not_subscriptable).
Proof. vm_compute. reflexivity. Qed.

(** *** What the parser does with the tokens of these texts *)

(** Fed the tokens of [module M { t = () }], the parser builds a product
    without fields. *)
Lemma empty_fields_tokens_parsed :
  parse_tokens (mkGenerator empty_fields_tokens None) =
    Some (Ok (Module_init "M" [mkType "t" (VProduct (Product_init [] None))])).
Proof. vm_compute. reflexivity. Qed.

(** Fed the tokens of [module M { t = A t = B }], the parser keeps both
    definitions in order; the mapping holds the value of the last one; and
    [check] passes. *)
Lemma duplicate_definition_tokens_parsed :
  parse_tokens (mkGenerator duplicate_definition_tokens None) =
    Some (Ok duplicate_definition_module) /\
  Type_name <$> Module_dfns duplicate_definition_module = ["t"; "t"] /\
  Module_types duplicate_definition_module !! "t" =
    Some (VSum (Sum_init [Constructor_init "B" None] None)) /\
  Checker.check duplicate_definition_module = true.
Proof. repeat split; vm_compute; reflexivity. Qed.

(** Fed the tokens of a module whose first definition has nothing after
    the [=], on whatever lines, the parser raises a syntax error on the
    line of the closing brace. *)
Lemma missing_type_tokens_rejected (l1 l2 l3 l4 l5 l6 : nat) :
  parse_tokens
    (mkGenerator [word l1 "module"; word l2 "Test"; op l3 LBrace;
                  word l4 "stmt"; op l5 Equals; op l6 RBrace] None) =
    Some (Raise (ASDLSyntaxError_init (Unmatched (One ConstructorId) RBrace) l6)).
Proof. by apply missing_type_raises; [split | left | ..]. Qed.

(** * Further properties of the code *)

(** ** The tokenizer *)
Section Tokenizer_matches.
Import Chars Str Lexer.

Lemma span_forall p s a b : span p s = (a, b) -> string_forallb p a = true.
Proof.
  revert a b. induction s as [|c s IH]; intros a b; simpl.
  - by intros [= <- <-].
  - destruct (p c) eqn:Hp; [|by intros [= <- <-]].
    destruct (span p s) as [a' b'] eqn:E. intros [= <- <-]. simpl.
    rewrite Hp. by apply (IH a' b').
Qed.

Lemma span_dashes s a b :
  starts_with_dashes s = true -> span is_dot s = (a, b) -> starts_with_dashes a = true.
Proof.
  destruct s as [|c [|d s]]; [done..|]. simpl.
  intros [Hc Hd]%andb_true_iff.
  assert (is_dot c = true /\ is_dot d = true) as [-> ->].
  { unfold is_dot, has_code in *. apply N.eqb_eq in Hc, Hd. by rewrite Hc, Hd. }
  destruct (span is_dot s). intros [= <- <-]. simpl. by rewrite Hc, Hd.
Qed.

Lemma re_match_shape s c rest : re_match s = Some (c, rest) -> match_shape c.
Proof.
  unfold re_match, match_shape. destruct (span isspace s) as [ws r].
  destruct r as [|d r'].
  - destruct (last_dot ws) as [[c' rest']|]; [|done]. intros [= <- <-].
    split; [done | right; right; reflexivity].
  - destruct (is_word d) eqn:Hw.
    + destruct (span is_word (String d r')) as [w r''] eqn:Hsp. intros [= <- <-].
      split; [|left; by eapply span_forall].
      pose proof (span_first _ _ _ _ _ Hw Hsp). destruct w; [simpl in *; lia | done].
    + destruct (starts_with_dashes (String d r')) eqn:Hd.
      * destruct (span is_dot (String d r')) as [w r''] eqn:Hsp. intros [= <- <-].
        pose proof (span_dashes _ _ _ Hd Hsp) as Hw'.
        split; [by destruct w | right; left; exact Hw'].
      * intros [= <- <-]. split; [done | right; right; reflexivity].
Qed.

Lemma finditer_shape n : forall s, Forall match_shape (finditer n s).
Proof.
  induction n as [|n IH]; intros s; simpl; [constructor|].
  destruct (re_match s) as [[c rest]|] eqn:E.
  - constructor; [by eapply re_match_shape | apply IH].
  - destruct s; [constructor | apply IH].
Qed.

Lemma isalpha_is_word c : isalpha c = true -> is_word c = true.
Proof. unfold is_word. by intros ->. Qed.

Lemma dash_not_alpha c : has_code 45 c = true -> isalpha c = false.
Proof.
  unfold has_code, code. intros Hc%N.eqb_eq.
  rewrite <- (ascii_N_embedding c), Hc. reflexivity.
Qed.

Lemma tokenize_matches_identifiers lineno ms :
  Forall match_shape ms ->
  Forall identifier_token (tokenize_matches lineno ms).1.
Proof.
  induction 1 as [|c ms [Hne Hshape] _ IH]; [constructor|].
  destruct c as [|c0 w]; [done|].
  cbn -[starts_with_dashes string_forallb].
  destruct (isalpha c0) eqn:Halpha.
  - destruct (tokenize_matches lineno ms) as [toks e]; simpl in *.
    constructor; [|exact IH].
    assert (string_forallb is_word (String c0 w) = true) as Hall.
    { destruct Hshape as [Hw | [Hd | Hlen]]; [done | |].
      - destruct w as [|d w]; [done|]. simpl in Hd.
        apply andb_true_iff in Hd as [Hd _]. apply dash_not_alpha in Hd. congruence.
      - destruct w; [|done]. simpl. by rewrite (isalpha_is_word _ Halpha). }
    exists c0, w. by destruct (isupper c0).
  - destruct (starts_with_dashes (String c0 w)); simpl; constructor.
Qed.

Lemma tokenize_lines_identifiers lines : forall lineno,
  Forall identifier_token (pending (tokenize_lines lineno lines)).
Proof.
  induction lines as [|line lines IH]; intros lineno; simpl; [constructor|].
  unfold tokenize_line.
  pose proof (tokenize_matches_identifiers lineno _
    (finditer_shape (S (String.length (strip line))) (strip line))) as Hw.
  destruct (tokenize_matches _ _) as [toks [e|]]; simpl in *; [exact Hw|].
  apply Forall_app; split; [exact Hw | apply IH].
Qed.

(** The exception of a line, if any, is the [TypeError] of the lookup. *)
Lemma tokenize_matches_stop lineno ms :
  Forall match_shape ms ->
  (tokenize_matches lineno ms).2 = None \/
  (tokenize_matches lineno ms).2 = Some (TypeError "'TokenKind' object is not subscriptable").
Proof.
  induction 1 as [|c ms [Hne _] _ IH]; [by left|].
  destruct c as [|c0 w]; [done|].
  cbn -[starts_with_dashes].
  destruct (isalpha c0).
  - by destruct (tokenize_matches lineno ms) as [toks e].
  - destruct (starts_with_dashes (String c0 w)); [by left | by right].
Qed.

Lemma tokenize_lines_stop lines : forall lineno,
  stop (tokenize_lines lineno lines) = None \/
  stop (tokenize_lines lineno lines) =
    Some (TypeError "'TokenKind' object is not subscriptable").
Proof.
  induction lines as [|line lines IH]; intros lineno; simpl; [by left|].
  unfold tokenize_line.
  pose proof (tokenize_matches_stop lineno _
    (finditer_shape (S (String.length (strip line))) (strip line))) as Hs.
  destruct (tokenize_matches _ _) as [toks [e|]]; simpl in *.
  - destruct Hs as [?|Hs]; [done | by right].
  - apply IH.
Qed.

Lemma tokenize_matches_lineno ln ms :
  Forall (fun t => lineno t = ln) (tokenize_matches ln ms).1.
Proof.
  induction ms as [|c ms IH]; [constructor|].
  destruct c as [|c0 w]; [constructor|].
  cbn -[starts_with_dashes].
  destruct (isalpha c0).
  - destruct (tokenize_matches ln ms) as [toks e]; simpl in *.
    constructor; [by destruct (isupper c0) | exact IH].
  - destruct (starts_with_dashes (String c0 w)); simpl; constructor.
Qed.

Lemma tokenize_lines_linenos lines : forall n,
  Forall (fun t => n <= lineno t < n + length lines) (pending (tokenize_lines n lines)) /\
  StronglySorted le (lineno <$> pending (tokenize_lines n lines)).
Proof.
  induction lines as [|line lines IH]; intros n; simpl; [split; constructor|].
  unfold tokenize_line.
  pose proof (tokenize_matches_lineno n
    (finditer (S (String.length (strip line))) (strip line))) as Hl.
  assert (forall toks, Forall (fun t => lineno t = n) toks ->
            StronglySorted le (lineno <$> toks)) as Hsame.
  { induction 1 as [|t toks Ht Hts IHt]; simpl; constructor; [done|].
    apply Forall_fmap. eapply Forall_impl; [exact Hts|]. simpl. intros; lia. }
  destruct (tokenize_matches _ _) as [toks [e|]]; simpl in *.
  - split; [|by apply Hsame].
    eapply Forall_impl; [exact Hl|]. simpl. intros; lia.
  - destruct (IH (S n)) as [Hrange Hsorted]. split.
    + apply Forall_app. split; (eapply Forall_impl; [eassumption|]); simpl; intros; lia.
    + rewrite fmap_app. apply StronglySorted_app_2; [|by apply Hsame|done].
      intros x1 x2 [t1 [-> Ht1]]%list_elem_of_fmap [t2 [-> Ht2]]%list_elem_of_fmap.
      rewrite Forall_forall in Hl, Hrange.
      pose proof (Hl _ Ht1). pose proof (Hrange _ Ht2). lia.
Qed.

Lemma tokenize_line_blank lineno line :
  blank_or_comment line -> tokenize_line lineno line = ([], None).
Proof.
  unfold blank_or_comment, tokenize_line. intros [-> | Hd]; [reflexivity|].
  destruct (strip line) as [|a [|b r]]; [done..|].
  simpl in Hd. apply andb_true_iff in Hd as [Ha Hb].
  assert (a = "-"%char /\ b = "-"%char) as [-> ->].
  { unfold has_code, code in *. apply N.eqb_eq in Ha, Hb.
    split; [rewrite <- (ascii_N_embedding a), Ha | rewrite <- (ascii_N_embedding b), Hb];
      reflexivity. }
  cbn [finditer]. unfold re_match.
  change (span isspace (String "-" (String "-" r))) with (EmptyString, String "-" (String "-" r)).
  cbn iota. change (is_word "-") with false. cbn iota.
  change (starts_with_dashes (String "-" (String "-" r))) with true. cbn iota.
  destruct (span is_dot (String "-" (String "-" r))) as [c rest] eqn:Hsp.
  pose proof (span_dashes (String "-" (String "-" r)) _ _ eq_refl Hsp) as Hc.
  destruct c as [|c0 [|c1 c]]; [done..|].
  simpl in Hc. apply andb_true_iff in Hc as [Hc0 Hc1].
  cbn -[starts_with_dashes]. rewrite (dash_not_alpha _ Hc0).
  simpl. by rewrite Hc0, Hc1.
Qed.

Lemma tokenize_lines_blank lines : forall lineno,
  Forall blank_or_comment lines ->
  tokenize_lines lineno lines = mkGenerator [] None.
Proof.
  induction lines as [|line lines IH]; intros lineno Hall; [reflexivity|].
  inversion Hall as [|? ? Hline Hrest]; subst. simpl.
  rewrite (tokenize_line_blank _ _ Hline), (IH _ Hrest). reflexivity.
Qed.

End Tokenizer_matches.

Section Tokenizer_lines.
Import Chars Str Lexer.

Lemma lstrip_head s c r : lstrip s = String c r -> isspace c = false.
Proof.
  induction s as [|d s IH]; simpl; [done|].
  destruct (isspace d) eqn:E; [done|]. by intros [= <- <-].
Qed.

Lemma rstrip_head s c r : rstrip s = String c r -> exists s', s = String c s'.
Proof.
  destruct s as [|d s]; simpl; [done|].
  destruct (rstrip s); [destruct (isspace d); [done|]|]; intros [= <- <-]; eauto.
Qed.

Lemma strip_head s c r : strip s = String c r -> isspace c = false.
Proof.
  unfold strip. intros [s' Hs]%rstrip_head. by eapply lstrip_head.
Qed.

(** The first match of a line that starts with a character other than a
    letter and is no comment: it starts with that character. *)
Lemma first_match_not_alpha s c r n :
  s = String c r -> isspace c = false -> isalpha c = false ->
  starts_with_dashes s = false ->
  exists w ms, finditer (S n) s = String c w :: ms /\
               starts_with_dashes (String c w) = false.
Proof.
  intros -> Hsp Halpha Hd. cbn [finditer]. unfold re_match.
  cbn [span]. rewrite Hsp.
  destruct (is_word c) eqn:Hw.
  - cbn [span]. rewrite Hw. destruct (span is_word r) as [w r''].
    eexists w, _. split; [reflexivity|].
    destruct w as [|d w]; [done|]. simpl.
    destruct (has_code 45 c) eqn:Hc; [|done].
    unfold has_code, code in Hc. apply N.eqb_eq in Hc.
    rewrite <- (ascii_N_embedding c), Hc in Hw. done.
  - rewrite Hd. eexists EmptyString, _. split; reflexivity.
Qed.

Lemma tokenize_line_not_alpha ln line c r :
  strip line = String c r -> isalpha c = false ->
  starts_with_dashes (strip line) = false ->
  tokenize_line ln line =
    ([], Some (TypeError "'TokenKind' object is not subscriptable")).
Proof.
  intros Hs Halpha Hd. unfold tokenize_line.
  destruct (first_match_not_alpha _ _ _ (String.length (strip line)) Hs
              (strip_head _ _ _ Hs) Halpha Hd) as (w & ms & -> & Hd').
  cbn -[starts_with_dashes]. rewrite Halpha, Hd'. reflexivity.
Qed.

End Tokenizer_lines.

Section Tokenizer_text.
Import Chars Str Lexer.

(** The lines are tokenized one after the other: those after a line that
    raises are never looked at. *)
Lemma tokenize_lines_app l1 l2 : forall n,
  tokenize_lines n (l1 ++ l2) =
    match stop (tokenize_lines n l1) with
    | Some e => tokenize_lines n l1
    | None =>
        let g := tokenize_lines (n + length l1) l2 in
        mkGenerator (pending (tokenize_lines n l1) ++ pending g) (stop g)
    end.
Proof.
  induction l1 as [|line l1 IH]; intros n; simpl.
  - rewrite Nat.add_0_r. by destruct (tokenize_lines n l2).
  - destruct (tokenize_line n line) as [toks [e|]]; simpl.
    { reflexivity. }
    rewrite IH. destruct (stop (tokenize_lines (S n) l1)) eqn:E; simpl.
    { by rewrite E. }
    rewrite Nat.add_succ_r. by rewrite app_assoc.
Qed.

(** X1.  The value of every token the tokenizer yields is an identifier:
    it starts with a letter and consists of word characters only, so it
    holds no white space, no operator and no part of a comment. *)
Theorem token_values_are_identifiers (buf : string) (tok : Token) :
  tok ∈ pending (tokenize_asdl buf) -> identifier_token tok.
Proof.
  intros Hin. pose proof (tokenize_lines_identifiers (splitlines buf) 1) as Hall.
  rewrite Forall_forall in Hall. by apply Hall.
Qed.

Lemma token_values_are_identifiers_witness :
  let tok := mkToken TypeId "stmt_2" 2 in
  tok ∈ pending (tokenize_asdl two_lines_text) /\ identifier_token tok.
Proof.
  intros tok.
  assert (tok ∈ pending (tokenize_asdl two_lines_text)) as Hin
    by (vm_compute; repeat constructor).
  split; [exact Hin | exact (token_values_are_identifiers _ tok Hin)].
Defined.

(** X2.  The line numbers of the tokens count the lines of the text from
    1, and never decrease along the stream. *)
Theorem token_lines_in_order (buf : string) :
  Forall (fun t => 1 <= lineno t <= length (splitlines buf))
         (pending (tokenize_asdl buf)) /\
  StronglySorted le (lineno <$> pending (tokenize_asdl buf)).
Proof.
  destruct (tokenize_lines_linenos (splitlines buf) 1) as [Hrange Hsorted].
  split; [|exact Hsorted].
  eapply Forall_impl; [exact Hrange|]. simpl. intros t. lia.
Qed.

(** X3.  However the text reads, the tokenizer ends in one of two ways:
    it is exhausted, or the operator lookup raises [TypeError].  The
    handler that would raise the syntax error [Invalid operator] is never
    entered, and group 1 of a match is never empty. *)
Theorem tokenizer_ends_without_syntax_error (buf : string) :
  stop (tokenize_asdl buf) = None \/
  stop (tokenize_asdl buf) = Some not_subscriptable.
Proof. apply tokenize_lines_stop. Qed.

(** X4.  A text of blank lines and comment lines yields no token and the
    tokenizer ends normally; its parse fails on the first look at the
    missing token, with [AttributeError] and not with a syntax error. *)
Theorem comments_yield_no_tokens (buf : string) :
  Forall blank_or_comment (splitlines buf) ->
  tokenize_asdl buf = mkGenerator [] None /\
  parse buf = Some (Raise end_of_input).
Proof.
  intros Hall. unfold parse, tokenize_asdl.
  rewrite (tokenize_lines_blank _ 1 Hall). split; reflexivity.
Qed.

Lemma comments_yield_no_tokens_witness :
  Forall blank_or_comment (splitlines comments_text) /\
  tokenize_asdl comments_text = mkGenerator [] None /\
  parse comments_text = Some (Raise end_of_input).
Proof.
  assert (Forall blank_or_comment (splitlines comments_text)) as Hall.
  { replace (splitlines comments_text)
      with ["-- ASDL's builtin types"; ""; "   -- none yet  "] by (by vm_compute).
    constructor; [right; by vm_compute|].
    constructor; [left; by vm_compute|].
    constructor; [right; by vm_compute|]. constructor. }
  split; [exact Hall | exact (comments_yield_no_tokens comments_text Hall)].
Defined.

(** X5.  A line whose first character after the leading white space is
    neither a letter nor the start of a comment ends the tokenizer with
    [TypeError]: the tokens of the lines before it are yielded, none of
    that line or of the lines after it. *)
Theorem tokenizer_stops_at_operator_line
    (buf : string) (before after : list string) (line : string) (c : ascii) (r : string) :
  splitlines buf = (before ++ line :: after)%list ->
  stop (tokenize_lines 1 before) = None ->
  strip line = String c r -> isalpha c = false ->
  starts_with_dashes (strip line) = false ->
  tokenize_asdl buf =
    mkGenerator (pending (tokenize_lines 1 before)) (Some not_subscriptable).
Proof.
  intros Hlines Hbefore Hstrip Halpha Hdash. unfold tokenize_asdl.
  rewrite Hlines, tokenize_lines_app, Hbefore. simpl.
  rewrite (tokenize_line_not_alpha _ _ _ _ Hstrip Halpha Hdash). simpl.
  by rewrite app_nil_r.
Qed.

Lemma tokenizer_stops_at_operator_line_witness :
  let buf := operator_line_text in
  splitlines buf = (["module Python"] ++ "  { mod = Module }" :: ["  more"])%list /\
  stop (tokenize_lines 1 ["module Python"]) = None /\
  strip "  { mod = Module }" = String "{" " mod = Module }" /\
  isalpha "{" = false /\
  starts_with_dashes (strip "  { mod = Module }") = false /\
  tokenize_asdl buf =
    mkGenerator [mkToken TypeId "module" 1; mkToken ConstructorId "Python" 1]
                (Some not_subscriptable).
Proof.
  intros buf.
  assert (splitlines buf =
          (["module Python"] ++ "  { mod = Module }" :: ["  more"])%list) as H1
    by (by vm_compute).
  assert (stop (tokenize_lines 1 ["module Python"]) = None) as H2 by (by vm_compute).
  assert (strip "  { mod = Module }" = String "{" " mod = Module }") as H3
    by (by vm_compute).
  assert (isalpha "{" = false) as H4 by (by vm_compute).
  assert (starts_with_dashes (strip "  { mod = Module }") = false) as H5
    by (by vm_compute).
  repeat (split; [assumption|]).
  rewrite (tokenizer_stops_at_operator_line buf _ _ _ _ _ H1 H2 H3 H4 H5).
  by vm_compute.
Defined.

End Tokenizer_text.

(** ** Texts of identifiers *)
Section Identifier_texts.
Import Chars Str Lexer.

Ltac each_character c :=
  destruct c as [[] [] [] [] [] [] [] []]; try reflexivity; try discriminate.

Lemma word_not_space c : is_word c = true -> isspace c = false.
Proof. each_character c. Qed.

Lemma word_not_linebreak c : is_word c = true -> is_linebreak c = false.
Proof. each_character c. Qed.

Lemma identifier_words w : identifier w -> string_forallb is_word w = true.
Proof.
  intros (c & r & -> & Hc & Hr). simpl. by rewrite (isalpha_is_word _ Hc), Hr.
Qed.

Lemma append_cons c (s t : string) : String c s ++ t = String c (s ++ t).
Proof. reflexivity. Qed.

Lemma append_empty (s : string) : s ++ "" = s.
Proof. induction s as [|c s IH]; [done|]. by rewrite append_cons, IH. Qed.

Lemma append_assoc (a b c : string) : (a ++ b) ++ c = a ++ b ++ c.
Proof. induction a as [|x a IH]; [done|]. by rewrite !append_cons, IH. Qed.

Lemma append_length (a b : string) :
  String.length (a ++ b) = String.length a + String.length b.
Proof. induction a as [|x a IH]; [done|]. rewrite append_cons. simpl. by rewrite IH. Qed.

Lemma forallb_app p a b :
  string_forallb p (a ++ b) = string_forallb p a && string_forallb p b.
Proof.
  induction a as [|c a IH]; [done|].
  rewrite append_cons. simpl. by rewrite IH, andb_assoc.
Qed.

Lemma forallb_impl (p q : ascii -> bool) s :
  (forall c, p c = true -> q c = true) ->
  string_forallb p s = true -> string_forallb q s = true.
Proof.
  intros Hpq. induction s as [|c s IH]; simpl; [done|].
  intros [Hc Hs]%andb_true_iff. by rewrite (Hpq _ Hc), IH.
Qed.

Lemma unwords_chars ws :
  Forall identifier ws -> string_forallb line_char (unwords ws) = true.
Proof.
  assert (forall w, identifier w -> string_forallb line_char w = true) as Hw.
  { intros w Hw%identifier_words. eapply forallb_impl; [|exact Hw].
    intros c Hc. unfold line_char. by rewrite Hc. }
  induction 1 as [|w ws Hid _ IH]; [done|]. simpl.
  destruct ws as [|w' ws]; [by apply Hw|].
  rewrite !forallb_app, (Hw _ Hid), IH. reflexivity.
Qed.

(** *** [splitlines] *)

Lemma splitlines_from_line s : forall acc rest,
  string_forallb line_char s = true ->
  splitlines_from acc (s ++ newline ++ rest) = (acc ++ s) :: splitlines_from EmptyString rest.
Proof.
  induction s as [|c s IH]; intros acc rest.
  - intros _. rewrite append_empty.
    change ("" ++ newline ++ rest) with (String (ascii_of_nat 10) rest).
    cbn [splitlines_from].
    change (is_linebreak (ascii_of_nat 10)) with true. cbn iota.
    destruct rest as [|d rest]; [done|].
    change (has_code 13 (ascii_of_nat 10)) with false. done.
  - simpl. intros [Hc Hs]%andb_true_iff.
    rewrite ?append_cons. cbn [splitlines_from].
    assert (is_linebreak c = false) as ->.
    { unfold line_char in Hc. apply orb_true_iff in Hc as [Hc|Hc].
      - by apply word_not_linebreak.
      - revert Hc. each_character c. }
    rewrite IH by done. f_equal.
    by rewrite append_assoc.
Qed.

Lemma splitlines_unlines ls :
  Forall (fun l => string_forallb line_char l = true) ls ->
  splitlines (unlines ls) = ls.
Proof.
  unfold splitlines. induction 1 as [|l ls Hl _ IH]; [done|]. simpl.
  rewrite splitlines_from_line by done. by rewrite IH.
Qed.

(** *** [strip] *)

Lemma rstrip_app a : forall w c,
  isspace c = false -> rstrip (a ++ String c w) = (a ++ rstrip (String c w)).
Proof.
  induction a as [|d a IH]; intros w c Hc; [done|].
  specialize (IH w c Hc).
  assert (exists e r, rstrip (String c w) = String e r) as (e & r & Hr).
  { simpl. destruct (rstrip w); [rewrite Hc|]; eauto. }
  rewrite Hr in *. rewrite !append_cons. cbn [rstrip]. rewrite IH.
  by destruct a.
Qed.

Lemma rstrip_words w :
  string_forallb is_word w = true -> rstrip w = w.
Proof.
  induction w as [|c w IH]; [done|]. simpl.
  intros [Hc Hw]%andb_true_iff. rewrite IH by done.
  destruct w; [|done]. by rewrite (word_not_space _ Hc).
Qed.

Lemma rstrip_unwords ws :
  Forall identifier ws -> rstrip (unwords ws) = unwords ws.
Proof.
  induction 1 as [|w ws Hid Hws IH]; [done|]. simpl.
  destruct ws as [|w' ws]; [by apply rstrip_words, identifier_words|].
  rewrite <- append_assoc.
  destruct (unwords (w' :: ws)) as [|c r] eqn:E.
  { exfalso. inversion Hws as [|? ? (c & r & -> & _) _]; subst.
    simpl in E. by destruct ws. }
  assert (isspace c = false) as Hc.
  { inversion Hws as [|? ? (c' & r' & -> & Hc' & _) _]; subst.
    simpl in E. destruct ws; injection E as <- _;
      by apply word_not_space, isalpha_is_word. }
  rewrite rstrip_app by done. by rewrite IH.
Qed.

Lemma strip_unwords ws : Forall identifier ws -> strip (unwords ws) = unwords ws.
Proof.
  intros Hws. unfold strip.
  assert (lstrip (unwords ws) = unwords ws) as ->; [|by apply rstrip_unwords].
  destruct Hws as [|w ws (c & r & -> & Hc & _) _]; [done|].
  assert (exists s, unwords (String c r :: ws) = String c s) as [s ->]
    by (simpl; destruct ws; eauto).
  simpl. by rewrite (word_not_space _ (isalpha_is_word _ Hc)).
Qed.

(** *** The matches of a line of words *)

Lemma span_words w : forall rest,
  string_forallb is_word w = true ->
  match rest with String c _ => is_word c = false | EmptyString => True end ->
  span is_word (w ++ rest) = (w, rest).
Proof.
  induction w as [|c w IH]; intros rest; simpl.
  - intros _. destruct rest as [|c rest]; [done|].
    change ("" ++ String c rest) with (String c rest). simpl. by intros ->.
  - intros [Hc Hw]%andb_true_iff Hrest.
    rewrite ?append_cons. cbn [span]. by rewrite Hc, IH.
Qed.

Lemma re_match_word w rest :
  identifier w ->
  match rest with String c _ => is_word c = false | EmptyString => True end ->
  re_match (w ++ rest) = Some (w, rest) /\
  re_match (" " ++ w ++ rest) = Some (w, rest).
Proof.
  intros Hid Hrest. pose proof (identifier_words _ Hid) as Hw.
  destruct Hid as (c & r & -> & Hc & Hr).
  pose proof (isalpha_is_word _ Hc) as Hcw.
  pose proof (word_not_space _ Hcw) as Hcs.
  pose proof (span_words _ _ Hw Hrest) as Hspan.
  split; unfold re_match.
  - change (String c r ++ rest) with (String c (r ++ rest)) in *.
    cbn [span]. rewrite Hcs, Hcw. by rewrite Hspan.
  - change (" " ++ String c r ++ rest) with (String " " (String c (r ++ rest))).
    change (String c r ++ rest) with (String c (r ++ rest)) in Hspan.
    cbn [span]. change (isspace " ") with true. cbn iota. rewrite Hcs, Hcw.
    by rewrite Hspan.
Qed.

Lemma finditer_step n s :
  finditer (S n) s =
    match re_match s with
    | Some (c, rest) => c :: finditer n rest
    | None => match s with
              | EmptyString => []
              | String _ s' => finditer n s'
              end
    end.
Proof. reflexivity. Qed.

Lemma finditer_unwords ws : forall n,
  Forall identifier ws ->
  String.length (unwords ws) < n ->
  finditer n (unwords ws) = ws /\
  (ws <> [] -> finditer (S n) (" " ++ unwords ws) = ws).
Proof.
  induction ws as [|w ws IH]; intros n Hws Hn.
  { split; [by destruct n | done]. }
  inversion Hws as [|? ? Hid Hws']; subst.
  destruct n as [|n]; [lia|].
  destruct ws as [|w' ws].
  - change (unwords [w]) with w in *.
    destruct (re_match_word w "" Hid I) as [H1 H2].
    rewrite append_empty in H1, H2. split.
    + rewrite finditer_step, H1. by destruct n.
    + intros _. rewrite finditer_step, H2. by destruct n.
  - change (unwords (w :: w' :: ws)) with (w ++ " " ++ unwords (w' :: ws)) in *.
    destruct (re_match_word w (" " ++ unwords (w' :: ws)) Hid eq_refl) as [H1 H2].
    assert (S (S (String.length (unwords (w' :: ws)))) < S n) as Hn'.
    { rewrite !append_length in Hn.
      destruct Hid as (c & r & -> & _). cbn [String.length] in Hn. lia. }
    destruct n as [|n]; [lia|].
    destruct (IH n Hws') as [_ IH2]; [lia|]. specialize (IH2 ltac:(done)).
    assert (String.length (" " ++ unwords (w' :: ws)) = S (String.length (unwords (w' :: ws))))
      as Hlen by reflexivity.
    split.
    + rewrite finditer_step, H1. f_equal. exact IH2.
    + intros _. rewrite finditer_step, H2. f_equal.
      rewrite (finditer_fuel (S (S n)) (S n)); [exact IH2 | |]; rewrite Hlen; lia.
Qed.

Lemma tokenize_matches_identifier_words ln ws :
  Forall identifier ws -> tokenize_matches ln ws = (word ln <$> ws, None).
Proof.
  induction 1 as [|w ws (c & r & -> & Hc & _) _ IH]; [done|].
  cbn -[starts_with_dashes]. rewrite Hc, IH. simpl. by destruct (isupper c).
Qed.

Lemma tokenize_line_unwords ln ws :
  Forall identifier ws -> tokenize_line ln (unwords ws) = (word ln <$> ws, None).
Proof.
  intros Hws. unfold tokenize_line. rewrite strip_unwords by done.
  destruct (finditer_unwords ws (S (String.length (unwords ws))) Hws) as [-> _]; [lia|].
  by apply tokenize_matches_identifier_words.
Qed.

Lemma tokenize_lines_unwords ls : forall n,
  Forall (Forall identifier) ls ->
  tokenize_lines n (unwords <$> ls) = mkGenerator (word_tokens n ls) None.
Proof.
  induction ls as [|ws ls IH]; intros n Hls; [done|].
  inversion Hls as [|? ? Hws Hls']; subst. simpl.
  rewrite tokenize_line_unwords by done. by rewrite IH.
Qed.

(** X6.  A text whose lines consist of identifiers alone, one space
    between two of them, is tokenized in full: the tokens are the
    identifiers in order, each classified by its first letter and with the
    number of its line, and the tokenizer ends normally. *)
Theorem identifier_lines_tokenized (ls : list (list string)) :
  Forall (Forall identifier) ls ->
  tokenize_asdl (unlines (unwords <$> ls)) = mkGenerator (word_tokens 1 ls) None.
Proof.
  intros Hls. unfold tokenize_asdl.
  rewrite splitlines_unlines; [by apply tokenize_lines_unwords|].
  apply Forall_fmap. eapply Forall_impl; [exact Hls|].
  intros ws. apply unwords_chars.
Qed.

Lemma identifier_lines_tokenized_witness :
  Forall (Forall identifier) identifier_lines /\
  tokenize_asdl (unlines (unwords <$> identifier_lines)) =
    mkGenerator [mkToken TypeId "module" 1; mkToken ConstructorId "Python" 1;
                 mkToken TypeId "stmt" 3; mkToken ConstructorId "Pass_2" 3] None.
Proof.
  assert (Forall (Forall identifier) identifier_lines) as Hls.
  { repeat constructor; by eexists _, _. }
  split; [exact Hls|].
  rewrite (identifier_lines_tokenized identifier_lines Hls). by vm_compute.
Defined.

End Identifier_texts.

(** ** The parse of a stream of identifiers *)
Lemma parse_tokens_outcome g :
  Forall (fun t => kind t = ConstructorId \/ kind t = TypeId) (pending g) ->
  parse_tokens g = Some (Raise (parse_outcome g)).
Proof.
  destruct g as [p st]. unfold parse_outcome, at_end, parse_tokens. simpl.
  generalize (S (S (length p))). intros fuel Hids.
  destruct p as [|t1 r1].
  { destruct st; [erewrite bind_raise; reflexivity|].
    erewrite bind_ok by reflexivity. unfold _parse_module.
    erewrite bind_raise; [reflexivity|]. by apply bind_raise. }
  inversion Hids as [|? ? H1 Hr1]; subst.
  erewrite bind_ok by reflexivity. unfold _parse_module.
  erewrite bind_ok by reflexivity.
  destruct (bool_decide (kind t1 = TypeId) && bool_decide (value t1 = "module")).
  2:{ erewrite bind_raise; [reflexivity|].
      by erewrite bind_ok by reflexivity. }
  destruct r1 as [|t2 r2].
  { destruct st.
    - erewrite bind_raise; [reflexivity|]. by apply bind_raise.
    - erewrite bind_ok by (erewrite bind_ok by reflexivity; reflexivity).
      erewrite bind_raise; [reflexivity|]. by apply bind_raise. }
  inversion Hr1 as [|? ? H2 Hr2]; subst.
  erewrite bind_ok by (erewrite bind_ok by reflexivity; reflexivity).
  assert (kind_matches (Tuple _id_kinds) (kind t2) = true) as Hm2.
  { apply bool_decide_eq_true_2. unfold _id_kinds. destruct H2 as [-> | ->]; repeat constructor. }
  destruct r2 as [|t3 r3].
  { destruct st.
    - erewrite bind_raise; [reflexivity|].
      unfold _match. erewrite bind_ok by reflexivity. rewrite Hm2. by apply bind_raise.
    - erewrite bind_ok.
      2:{ unfold _match. erewrite bind_ok by reflexivity. rewrite Hm2.
          erewrite bind_ok by reflexivity. reflexivity. }
      erewrite bind_raise; [reflexivity|]. by apply bind_raise. }
  inversion Hr2 as [|? ? H3 Hr3]; subst.
  erewrite bind_ok.
  2:{ unfold _match. erewrite bind_ok by reflexivity. rewrite Hm2.
      erewrite bind_ok by reflexivity. reflexivity. }
  erewrite bind_raise; [reflexivity|].
  unfold _match. erewrite bind_ok by reflexivity.
  assert (kind_matches (One LBrace) (kind t3) = false) as ->; [|done].
  apply bool_decide_eq_false_2. destruct H3 as [-> | ->]; done.
Qed.

(** X7.  The parse of a text always raises, and the first three tokens
    decide how: a first token other than [module] is reported as a syntax
    error at its line, a third token as an unmatched [{] at its line, and
    when fewer tokens are yielded the parse ends as the tokenizer does,
    by the [TypeError] of the operator lookup or by the access to the
    missing token. *)
Theorem parse_text_outcome (buf : string) :
  parse buf = Some (Raise (parse_outcome (Lexer.tokenize_asdl buf))).
Proof.
  apply parse_tokens_outcome.
  eapply Forall_impl; [apply tokenize_asdl_words|].
  intros t. apply classified_word_kind.
Qed.

(** ** How the parser can fail *)
Section Failures.
Variable g : generator.

Lemma reading_cur s t : reading g s -> cur_token s = Some t -> t ∈ pending g.
Proof. intros (_ & Hc & _). apply Hc. Qed.

Lemma expected_ret {A} (a : A) s : reading g s -> fails_as_expected g (ret a) s.
Proof. done. Qed.

Lemma expected_bind {A B} (m : M A) (k : A -> M B) s :
  fails_as_expected g m s ->
  (forall a s', m s = Some (Ok (a, s')) -> reading g s' -> fails_as_expected g (k a) s') ->
  fails_as_expected g (m ≫= k) s.
Proof.
  unfold fails_as_expected at 1. intros Hm Hk.
  unfold fails_as_expected, mbind, M_bind, bind.
  destruct (m s) as [[[a s']|e]|]; [by apply Hk | done..].
Qed.

Lemma expected_cur s : reading g s -> fails_as_expected g cur s.
Proof.
  intros Hs. unfold fails_as_expected, cur.
  destruct (cur_token s) eqn:E; [exact Hs|]. left. split; [done|].
  destruct Hs as (_ & _ & _ & Hnone). by apply Hnone.
Qed.

Lemma expected_advance s :
  stop (_tokenizer s) = stop g ->
  (forall t, t ∈ pending (_tokenizer s) -> t ∈ pending g) ->
  fails_as_expected g _advance s.
Proof.
  intros Hstop Hp. unfold fails_as_expected, _advance, reading.
  destruct (pending (_tokenizer s)) as [|t rest] eqn:E.
  - destruct (stop (_tokenizer s)) as [e|] eqn:Es.
    + right. left. by rewrite <- Hstop.
    + simpl. rewrite Es, E. by repeat split.
  - simpl. split; [done|]. split; [|split; [|done]].
    + intros t' [= <-]. apply Hp. by left.
    + intros t' Ht'. apply Hp. by right.
Qed.

Lemma expected_advance_reading s : reading g s -> fails_as_expected g _advance s.
Proof. intros (Hstop & _ & Hp & _). by apply expected_advance. Qed.

Ltac ebind lem :=
  eapply expected_bind; [apply lem; try done | intros ? ? ? ?; cbv beta].

Ltac ecur t Ht :=
  eapply expected_bind; [by apply expected_cur |];
  intros t ? [-> Ht]%cur_inv _; cbv beta.

Lemma expected_match kinds s : reading g s -> fails_as_expected g (_match kinds) s.
Proof.
  intros Hs. unfold _match. ecur t Ht.
  destruct (kind_matches kinds (kind t)) eqn:Hm.
  - ebind expected_advance_reading. by apply expected_ret.
  - right. right. exists t. split; [by eapply reading_cur|]. right. by exists kinds.
Qed.

Lemma expected_at_keyword w s : reading g s -> fails_as_expected g (_at_keyword w) s.
Proof. intros Hs. unfold _at_keyword. ecur t Ht. by apply expected_ret. Qed.

Lemma expected_if_advance {A} (c : bool) (x y : A) s :
  reading g s -> fails_as_expected g (if c then _advance;; ret x else ret y) s.
Proof.
  intros Hs. destruct c; [|by apply expected_ret].
  ebind expected_advance_reading. by apply expected_ret.
Qed.

Lemma expected_if_advance_value (c : bool) s :
  reading g s -> fails_as_expected g (if c then _advance else ret None) s.
Proof.
  intros Hs. destruct c; [by apply expected_advance_reading | by apply expected_ret].
Qed.

Lemma expected_quantifier s :
  reading g s -> fails_as_expected g _parse_optional_field_quantifier s.
Proof.
  intros Hs. unfold _parse_optional_field_quantifier.
  ecur t Ht. ebind @expected_if_advance.
  ebind expected_cur. ebind @expected_if_advance. by apply expected_ret.
Qed.

Lemma expected_fields_loop n : forall s,
  reading g s -> fails_as_expected g (fields_loop n) s.
Proof.
  induction n as [|n IH]; intros s Hs; [done|].
  cbn [fields_loop]. ecur t Ht.
  destruct (bool_decide (kind t = TypeId)); [|by apply expected_ret].
  ebind expected_advance_reading.
  ebind expected_quantifier. destruct a0 as [is_seq is_opt].
  ebind expected_cur. ebind expected_if_advance_value. ebind expected_cur.
  destruct (bool_decide (kind a2 = RParen)); [by apply expected_ret|].
  ebind @expected_if_advance. ebind IH. by apply expected_ret.
Qed.

Lemma expected_parse_fields n s :
  reading g s -> fails_as_expected g (_parse_fields n) s.
Proof.
  intros Hs. unfold _parse_fields.
  ebind expected_match. ebind expected_fields_loop.
  ebind expected_match. by apply expected_ret.
Qed.

Lemma expected_optional_fields n s :
  reading g s -> fails_as_expected g (_parse_optional_fields n) s.
Proof.
  intros Hs. unfold _parse_optional_fields. ecur t Ht.
  destruct (bool_decide (kind t = LParen)); [|by apply expected_ret].
  ebind expected_parse_fields. by apply expected_ret.
Qed.

Lemma expected_optional_attributes n s :
  reading g s -> fails_as_expected g (_parse_optional_attributes n) s.
Proof.
  intros Hs. unfold _parse_optional_attributes.
  ebind expected_at_keyword. destruct a; [|by apply expected_ret].
  ebind expected_advance_reading. ebind expected_parse_fields. by apply expected_ret.
Qed.

Lemma expected_product n s :
  reading g s -> fails_as_expected g (_parse_product n) s.
Proof.
  intros Hs. unfold _parse_product.
  ebind expected_parse_fields. ebind expected_optional_attributes. by apply expected_ret.
Qed.

Lemma expected_constructor n s :
  reading g s -> fails_as_expected g (parse_constructor n) s.
Proof.
  intros Hs. unfold parse_constructor.
  ebind expected_match. ebind expected_optional_fields. by apply expected_ret.
Qed.

Lemma expected_sum_loop n : forall s,
  reading g s -> fails_as_expected g (sum_loop n) s.
Proof.
  induction n as [|n IH]; intros s Hs; [done|].
  cbn [sum_loop]. ecur t Ht.
  destruct (bool_decide (kind t = Pipe)); [|by apply expected_ret].
  ebind expected_advance_reading. ebind expected_constructor.
  ebind IH. by apply expected_ret.
Qed.

Lemma expected_type n s :
  reading g s -> fails_as_expected g (_parse_type n) s.
Proof.
  intros Hs. unfold _parse_type. ecur t Ht.
  destruct (bool_decide (kind t = LParen)).
  - ebind expected_product. by apply expected_ret.
  - ebind expected_constructor. ebind expected_sum_loop.
    ebind expected_optional_attributes. by apply expected_ret.
Qed.

Lemma expected_definitions n : forall s,
  reading g s -> fails_as_expected g (_parse_definitions n) s.
Proof.
  induction n as [|n IH]; intros s Hs; [done|].
  cbn [_parse_definitions]. ecur t Ht.
  destruct (bool_decide (kind t = TypeId)); [|by apply expected_ret].
  ebind expected_advance_reading. ebind expected_match.
  ebind expected_type. ebind IH. by apply expected_ret.
Qed.

Lemma expected_module n s :
  reading g s -> fails_as_expected g (_parse_module n) s.
Proof.
  intros Hs. unfold _parse_module.
  ebind expected_at_keyword.
  eapply expected_bind.
  { destruct a.
    - ebind expected_advance_reading. by apply expected_ret.
    - eapply expected_bind; [by apply expected_cur|].
      intros t ? [-> Ht]%cur_inv _; cbv beta.
      right. right. exists t. split; [by eapply reading_cur|]. by left. }
  intros ? ? ? ?; cbv beta.
  ebind expected_match. ebind expected_match.
  ebind expected_definitions. ebind expected_match. by apply expected_ret.
Qed.

Lemma expected_parse n :
  fails_as_expected g (_advance;; _parse_module n) (mkParser g None).
Proof.
  eapply expected_bind; [by apply expected_advance|].
  intros a s' _ Hs'. by apply expected_module.
Qed.

End Failures.

(** X8.  A parse over any token generator ends, with a module or with an
    exception, and the exception is one of three: the access to the missing
    token once the generator is exhausted, the exception the generator
    itself ends with, or a syntax error at a token of the stream, with that
    token's line, that reports it as found instead of [module] or as not
    of the kind looked for. *)
Theorem parse_returns_or_fails_as_expected (g : generator) :
  (exists m, parse_tokens g = Some (Ok m)) \/
  (exists e, parse_tokens g = Some (Raise e) /\ expected_failure g e).
Proof.
  unfold parse_tokens.
  pose proof (expected_parse g (S (S (length (pending g))))) as Hfail.
  assert (terminates (length (pending g))
            (_advance;; _parse_module (S (S (length (pending g))))) (mkParser g None)) as Hend.
  { eapply terminates_bind; [apply terminates_advance|].
    intros a s' _ Hs'. unfold remaining in Hs'. simpl in Hs'.
    eapply terminates_le; [apply terminates_module | ]; unfold remaining; lia. }
  unfold fails_as_expected in Hfail. unfold terminates in Hend.
  destruct ((_advance;; _parse_module _) _) as [[[m s]|e]|]; [|right|done]; eauto.
Qed.

(** X9.  A syntax error that the parse of a text raises is raised at a
    token of the text and names the line of that token, a line of the
    text: the line of a syntax error is never ['<unknown>']. *)
Theorem syntax_error_line_in_text (buf : string) (msg : syntax_msg) (l : option nat) :
  parse buf = Some (Raise (ASDLSyntaxError msg l)) ->
  exists tok, tok ∈ pending (Lexer.tokenize_asdl buf) /\ l = Some (lineno tok) /\
    1 <= lineno tok <= length (Str.splitlines buf).
Proof.
  unfold parse, parse_tokens. set (g := Lexer.tokenize_asdl buf).
  pose proof (expected_parse g (S (S (length (pending g))))) as Hfail.
  unfold fails_as_expected in Hfail.
  destruct ((_advance;; _parse_module _) _) as [[[m s]|e]|]; [done| |done].
  intros [= ->].
  destruct Hfail as [[He _] | [Hstop | (tok & Hin & Hat)]]; [done| |].
  - destruct (tokenize_lines_stop (Str.splitlines buf) 1) as [Hs|Hs];
      unfold g, Lexer.tokenize_asdl in Hstop; rewrite Hs in Hstop; done.
  - destruct (tokenize_lines_linenos (Str.splitlines buf) 1) as [Hrange _].
    rewrite Forall_forall in Hrange. specialize (Hrange tok Hin). simpl in Hrange.
    exists tok. split; [exact Hin|]. split; [|lia].
    assert (forall m', ASDLSyntaxError msg l = ASDLSyntaxError_init m' (lineno tok) ->
                       l = Some (lineno tok)) as Hinit.
    { unfold ASDLSyntaxError_init. intros m'.
      destruct (decide (lineno tok = 0)); [lia|]. congruence. }
    destruct Hat as [Hat | (kinds & _ & Hat)]; eauto.
Qed.

Lemma syntax_error_line_in_text_witness :
  parse "stmt = Pass" = Some (Raise (ASDLSyntaxError (Expected_module "stmt") (Some 1))) /\
  exists tok, tok ∈ pending (Lexer.tokenize_asdl "stmt = Pass") /\
    Some 1 = Some (lineno tok) /\
    1 <= lineno tok <= length (Str.splitlines "stmt = Pass").
Proof.
  assert (parse "stmt = Pass" =
          Some (Raise (ASDLSyntaxError (Expected_module "stmt") (Some 1)))) as H
    by (by vm_compute).
  split; [exact H | exact (syntax_error_line_in_text _ _ _ H)].
Defined.


(** ** The language of the parser *)
Section Language.

Lemma unread_at_tokens ts : unread (at_tokens ts) = ts.
Proof. by destruct ts. Qed.

Lemma unread_cur s t : cur_token s = Some t -> unread s = t :: pending (_tokenizer s).
Proof. unfold unread. by intros ->. Qed.

Lemma advance_inv s t v s' :
  cur_token s = Some t -> _advance s = Some (Ok (v, s')) ->
  v = Some (value t) /\ unread s = t :: unread s'.
Proof.
  intros Ht. unfold _advance, unread. rewrite Ht. simpl.
  destruct (pending (_tokenizer s)) as [|t' p] eqn:Hp.
  - destruct (stop (_tokenizer s)); [done|]. intros [= <- <-]. simpl. by rewrite Hp.
  - by intros [= <- <-].
Qed.

Lemma match_inv kinds s v s' :
  _match kinds s = Some (Ok (v, s')) ->
  exists t, kind_matches kinds (kind t) = true /\ v = value t /\
            unread s = t :: unread s'.
Proof.
  unfold _match. intros (t & s1 & [-> Ht]%cur_inv & H)%bind_inv.
  destruct (kind_matches kinds (kind t)) eqn:Hk; [|done].
  apply bind_inv in H as (a & s2 & Ha & [= <- <-]).
  destruct (advance_inv _ _ _ _ Ht Ha) as [_ Hu]. eauto.
Qed.

(** A token taken when the test [b] on it holds. *)
Lemma if_advance_inv {A} (b : bool) (x y : A) s t a s' :
  cur_token s = Some t ->
  (if b then _advance;; ret x else ret y) s = Some (Ok (a, s')) ->
  (b = true /\ a = x /\ unread s = t :: unread s') \/
  (b = false /\ a = y /\ s' = s).
Proof.
  intros Ht. destruct b.
  - intros (v & s1 & Hv & [= <- <-])%bind_inv. left.
    by destruct (advance_inv _ _ _ _ Ht Hv) as [_ Hu].
  - intros [= <- <-]. by right.
Qed.

Lemma quantifier_inv s seq opt s' :
  _parse_optional_field_quantifier s = Some (Ok ((seq, opt), s')) ->
  exists q, Grammar.quantifier_or_both q seq opt /\ unread s = (q ++ unread s')%list.
Proof.
  unfold _parse_optional_field_quantifier.
  intros (t & s1 & [-> Ht]%cur_inv & H)%bind_inv.
  apply bind_inv in H as (is_opt & s2 & Hopt & H).
  apply bind_inv in H as (t2 & s3 & [-> Ht2]%cur_inv & H).
  apply bind_inv in H as (is_seq & s4 & Hseq & [= <- <- <-]).
  destruct (if_advance_inv _ _ _ _ _ _ _ Ht Hopt) as [(Hq & -> & Hu) | (Hq & -> & ->)];
    destruct (if_advance_inv _ _ _ _ _ _ _ Ht2 Hseq) as [(Ha & -> & Hu') | (Ha & -> & ->)].
  - apply bool_decide_eq_true_1 in Hq, Ha. exists [t; t2]. split.
    + by apply Grammar.quantifier_both.
    + rewrite Hu, Hu'. reflexivity.
  - apply bool_decide_eq_true_1 in Hq. exists [t]. split.
    + by apply Grammar.quantifier_one, Grammar.quantifier_opt.
    + rewrite Hu. reflexivity.
  - apply bool_decide_eq_true_1 in Ha. exists [t2]. split.
    + by apply Grammar.quantifier_one, Grammar.quantifier_seq.
    + rewrite Hu'. reflexivity.
  - exists []. split; [apply Grammar.quantifier_one, Grammar.quantifier_none | done].
Qed.

Lemma field_nonempty ts f : Grammar.field Grammar.quantifier_or_both ts f -> ts <> [].
Proof. by destruct 1. Qed.

Lemma field_head t ts f :
  Grammar.field Grammar.quantifier_or_both (t :: ts) f -> kind t = TypeId.
Proof. inversion 1; by subst. Qed.

Lemma field_items_nil_inv fs : field_items [] fs -> fs = [].
Proof.
  intros H. remember [] as ts eqn:E.
  destruct H as [ | ts f Hf | ts f c rest fs Hf _ _ | ts f rest fs Hf _ _ _]; [done|..];
    apply field_nonempty in Hf; destruct ts; done.
Qed.

Lemma field_items_head t ts fs : field_items (t :: ts) fs -> kind t = TypeId.
Proof.
  intros H. remember (t :: ts) as ts0 eqn:E.
  destruct H as [ | ts' f Hf | ts' f c rest fs Hf _ _ | ts' f rest fs Hf _ _ _]; [done|..];
    (destruct ts' as [|t' ts']; [by apply field_nonempty in Hf|]);
    injection E as -> _; by eapply field_head.
Qed.

Lemma fields_loop_sound n : forall s fs s',
  fields_loop n s = Some (Ok (fs, s')) ->
  exists body, field_items body fs /\ unread s = (body ++ unread s')%list.
Proof.
  induction n as [|n IH]; intros s fs s'; [done|]. cbn [fields_loop].
  intros (t & s0 & [-> Ht]%cur_inv & H)%bind_inv.
  destruct (bool_decide (kind t = TypeId)) eqn:Hkind.
  2:{ injection H as <- <-. exists []. split; [constructor | done]. }
  apply bool_decide_eq_true_1 in Hkind.
  apply bind_inv in H as (v & s1 & Hadv & H).
  destruct (advance_inv _ _ _ _ Ht Hadv) as [_ Hu1].
  apply bind_inv in H as ([is_seq is_opt] & s2 & Hq & H).
  destruct (quantifier_inv _ _ _ _ Hq) as (q & HQ & Hu2).
  apply bind_inv in H as (t3 & s3 & [-> Ht3]%cur_inv & H).
  apply bind_inv in H as (id & s4 & Hid & H).
  apply bind_inv in H as (t4 & s5 & [-> Ht4]%cur_inv & H).
  assert (exists i, Grammar.opt_id i id /\ unread s2 = (i ++ unread s4)%list /\
                    (id = None -> s4 = s2 /\ kind t3 ∉ _id_kinds)) as (i & Hi & Hu3 & Hnone).
  { destruct (bool_decide (kind t3 ∈ _id_kinds)) eqn:Hk.
    - destruct (advance_inv _ _ _ _ Ht3 Hid) as [-> Hu]. exists [t3].
      split; [|by split].
      apply Grammar.opt_id_some. apply bool_decide_eq_true_1 in Hk.
      unfold _id_kinds, Grammar.is_Id in *.
      apply elem_of_cons in Hk as [?|Hk]; [by left|].
      apply list_elem_of_singleton in Hk. by right.
    - injection Hid as <- <-. exists []. split; [constructor|]. split; [done|].
      intros _. split; [done|]. by apply bool_decide_eq_false_1 in Hk. }
  assert (Grammar.field Grammar.quantifier_or_both (t :: q ++ i)
            (mkField (value t) id is_seq is_opt)) as Hf by by constructor.
  assert (unread s = ((t :: q ++ i) ++ unread s4)%list) as Hu.
  { rewrite Hu1, Hu2, Hu3. simpl. by rewrite app_assoc. }
  destruct (bool_decide (kind t4 = RParen)) eqn:Hr.
  { injection H as <- <-. eexists. split; [by apply field_items_last | done]. }
  apply bind_inv in H as ([] & s6 & Hcomma & H).
  apply bind_inv in H as (fs' & s7 & Hloop & [= <- <-]).
  destruct (IH _ _ _ Hloop) as (body & Hbody & Hu6).
  destruct (if_advance_inv _ _ _ _ _ _ _ Ht4 Hcomma) as [(Hc & _ & Hu5) | (Hc & _ & ->)].
  - apply bool_decide_eq_true_1 in Hc.
    exists ((t :: q ++ i) ++ t4 :: body)%list. split.
    + by apply field_items_comma.
    + rewrite Hu, Hu5, Hu6. by rewrite <- app_assoc.
  - destruct body as [|b body].
    + apply field_items_nil_inv in Hbody as ->.
      exists (t :: q ++ i)%list. split; [by apply field_items_last|].
      by rewrite Hu, Hu6.
    + exists ((t :: q ++ i) ++ b :: body)%list. split.
      * apply field_items_juxtaposed; [done | | done..].
        simpl. intros ->. destruct (Hnone eq_refl) as [-> Hnot].
        apply Hnot. apply field_items_head in Hbody.
        rewrite (unread_cur _ _ Ht4) in Hu6. injection Hu6 as -> _.
        assert (t3 = b) as -> by congruence.
        rewrite Hbody. unfold _id_kinds. apply elem_of_cons. right. by apply list_elem_of_singleton.
      * rewrite Hu, Hu6. by rewrite <- app_assoc.
Qed.

Lemma parse_fields_sound n s fs s' :
  _parse_fields n s = Some (Ok (fs, s')) ->
  exists l body r, kind l = LParen /\ kind r = RParen /\ field_items body fs /\
    unread s = (l :: body ++ r :: unread s')%list.
Proof.
  unfold _parse_fields.
  intros (v & s1 & (l & Hl & _ & Hu1)%match_inv & H)%bind_inv.
  apply bind_inv in H as (fs' & s2 & (body & Hbody & Hu2)%fields_loop_sound & H).
  apply bind_inv in H as (v' & s3 & (r & Hr & _ & Hu3)%match_inv & [= <- <-]).
  exists l, body, r. simpl in Hl, Hr. apply bool_decide_eq_true_1 in Hl, Hr.
  repeat split; [done..|]. by rewrite Hu1, Hu2, Hu3.
Qed.

Lemma field_items_fields_loop body fs :
  field_items body fs ->
  forall n r rest, kind r = RParen -> length body < n ->
  fields_loop n (at_tokens (body ++ r :: rest)) = Some (Ok (fs, at_tokens (r :: rest))).
Proof.
  pose proof (fun q s o (H : Grammar.quantifier_or_both q s o) => H) as HQ.
  induction 1 as [ | ts f Hf | ts f c more fs Hf Hc Hmore IH
                   | ts f more fs Hf Hname Hne Hmore IH]; intros n r rest Hr Hn;
    (destruct n as [|n]; [simpl in Hn; lia|]).
  - apply fields_loop_stop. congruence.
  - by apply (fields_loop_last _ HQ).
  - rewrite length_app in Hn. simpl in Hn.
    rewrite <- app_assoc, <- app_comm_cons.
    rewrite (fields_loop_comma _ HQ _ _ _ _ _ Hf Hc).
    erewrite bind_ok; [reflexivity|]. apply IH; [done | lia].
  - rewrite length_app in Hn.
    destruct more as [|nx more]; [done|].
    pose proof (field_items_head _ _ _ Hmore) as Hnx.
    rewrite <- app_assoc, <- app_comm_cons.
    rewrite (fields_loop_juxtaposed _ HQ _ _ _ _ _ Hf Hname Hnx).
    erewrite bind_ok; [reflexivity|].
    rewrite app_comm_cons. apply IH; [done|].
    assert (0 < length ts) by (destruct Hf; simpl; lia). lia.
Qed.

End Language.

(** X10.  The field lists [_parse_fields] accepts, exactly: between the
    parentheses it takes any number of fields, each followed by a comma,
    by the closing parenthesis or, if it has a name, by the next field at
    once; the markers of a field are [?], [*] or [?*].  It returns the
    fields in order, and nothing else is accepted. *)
Theorem parse_fields_language
    (l r : Token) (body rest : list Token) (fs : list Field) (n : nat) :
  kind l = LParen -> kind r = RParen -> length body < n ->
  _parse_fields n (at_tokens (l :: body ++ r :: rest)) = Some (Ok (fs, at_tokens rest)) <->
  field_items body fs.
Proof.
  intros Hl Hr Hn. split.
  - intros (l' & body' & r' & _ & _ & Hbody & Hu)%parse_fields_sound.
    rewrite !unread_at_tokens in Hu. injection Hu as _ Hu.
    change (body ++ [r] ++ rest = body' ++ [r'] ++ rest)%list in Hu.
    rewrite !app_assoc in Hu. apply app_inv_tail in Hu.
    apply app_inj_tail in Hu as [-> _]. exact Hbody.
  - intros Hbody. unfold _parse_fields.
    erewrite bind_ok by (apply match_at; simpl; by rewrite Hl).
    erewrite bind_ok by (by apply field_items_fields_loop).
    erewrite bind_ok by (apply match_at; simpl; by rewrite Hr).
    reflexivity.
Qed.

Lemma loose_fields_items : field_items loose_fields_tokens loose_fields.
Proof.
  assert (forall l (w : string), Grammar.opt_id [word l w] (Some (value (word l w)))) as Hid.
  { intros l w. apply Grammar.opt_id_some. unfold Grammar.is_Id, word.
    destruct w as [|c w]; [by right|]. simpl. destruct (Chars.isupper c); auto. }
  apply (field_items_juxtaposed [word 1 "int"; word 1 "x"] _
           [word 1 "string"; op 1 Question; word 1 "y"; op 1 Comma;
            word 2 "expr"; op 2 Asterisk; word 2 "z"; op 2 Comma] [_; _]);
    [ | done | done | ].
  { apply (Grammar.field_intro _ (word 1 "int") [] [word 1 "x"] false false);
      [done | apply Grammar.quantifier_one; constructor | apply (Hid 1 "x")]. }
  apply (field_items_comma [word 1 "string"; op 1 Question; word 1 "y"] _ (op 1 Comma)
           [word 2 "expr"; op 2 Asterisk; word 2 "z"; op 2 Comma] [_]); [ | done | ].
  { apply (Grammar.field_intro _ (word 1 "string") [op 1 Question] [word 1 "y"] false true);
      [done | by apply Grammar.quantifier_one, Grammar.quantifier_opt | apply (Hid 1 "y")]. }
  apply (field_items_comma [word 2 "expr"; op 2 Asterisk; word 2 "z"] _ (op 2 Comma) [] []);
    [ | done | constructor].
  apply (Grammar.field_intro _ (word 2 "expr") [op 2 Asterisk] [word 2 "z"] true false);
    [done | by apply Grammar.quantifier_one, Grammar.quantifier_seq | apply (Hid 2 "z")].
Qed.

Lemma loose_module_accepted : Accepted.module loose_module_tokens loose_module.
Proof.
  apply (Accepted.module_of (word 1 "module") (word 1 "M") (op 1 LBrace)
           ([word 1 "t"; op 1 Equals; op 1 LParen] ++ loose_fields_tokens ++ [op 2 RParen])
           (op 3 RBrace)); [by split | by left | done | | done].
  apply (Accepted.one_more_definition (word 1 "t") (op 1 Equals)
           ([op 1 LParen] ++ loose_fields_tokens ++ [op 2 RParen]) _ [] []);
    [done | done | | constructor].
  apply Accepted.type_of_product.
  apply (Accepted.product_of ([op 1 LParen] ++ loose_fields_tokens ++ [op 2 RParen]) _ [] None);
    [|constructor].
  apply (Accepted.fields_of_items (op 1 LParen) loose_fields_tokens (op 2 RParen));
    [done | apply loose_fields_items | done].
Qed.

Lemma parse_fields_language_witness :
  kind (op 1 LParen) = LParen /\ kind (op 2 RParen) = RParen /\
  length loose_fields_tokens < 11 /\
  field_items loose_fields_tokens loose_fields /\
  _parse_fields 11
    (at_tokens (op 1 LParen :: loose_fields_tokens ++ op 2 RParen :: [op 3 RBrace])) =
    Some (Ok (loose_fields, at_tokens [op 3 RBrace])).
Proof.
  assert (length loose_fields_tokens < 11) as Hn by (simpl; lia).
  split; [reflexivity|]. split; [reflexivity|]. split; [exact Hn|].
  split; [exact loose_fields_items|].
  exact (proj2 (parse_fields_language (op 1 LParen) (op 2 RParen) loose_fields_tokens
                  [op 3 RBrace] loose_fields 11 eq_refl eq_refl Hn) loose_fields_items).
Defined.

(** ** What a successful parse has read *)
Section Soundness.

Lemma at_keyword_inv w s b s' :
  _at_keyword w s = Some (Ok (b, s')) ->
  s' = s /\ exists t, cur_token s = Some t /\
    (b = true <-> Grammar.is_keyword w t).
Proof.
  unfold _at_keyword. intros (t & s1 & [-> Ht]%cur_inv & [= <- <-])%bind_inv.
  split; [done|]. exists t. split; [done|]. unfold Grammar.is_keyword.
  rewrite andb_true_iff, !bool_decide_eq_true. done.
Qed.

Lemma parse_fields_accepted n s fs s' :
  _parse_fields n s = Some (Ok (fs, s')) ->
  exists ts, Accepted.fields ts fs /\ unread s = (ts ++ unread s')%list.
Proof.
  intros (l & body & r & Hl & Hr & Hbody & Hu)%parse_fields_sound.
  exists (l :: body ++ [r])%list. split; [by constructor|].
  rewrite Hu. simpl. by rewrite <- app_assoc.
Qed.

Lemma optional_attributes_sound n s o s' :
  _parse_optional_attributes n s = Some (Ok (o, s')) ->
  exists ts, Accepted.opt_attributes ts o /\ unread s = (ts ++ unread s')%list.
Proof.
  unfold _parse_optional_attributes.
  intros (b & s1 & (-> & t & Ht & Hb)%at_keyword_inv & H)%bind_inv.
  destruct b.
  - apply bind_inv in H as (v & s2 & Hadv & H).
    destruct (advance_inv _ _ _ _ Ht Hadv) as [_ Hu1].
    apply bind_inv in H as (fs & s3 & (ts & Hts & Hu2)%parse_fields_accepted & [= <- <-]).
    exists (t :: ts). split; [constructor; [by apply Hb | done]|].
    by rewrite Hu1, Hu2.
  - injection H as <- <-. exists []. split; [constructor | done].
Qed.

Lemma product_sound n s p s' :
  _parse_product n s = Some (Ok (p, s')) ->
  exists ts, Accepted.product ts p /\ unread s = (ts ++ unread s')%list.
Proof.
  unfold _parse_product.
  intros (fs & s1 & (ts & Hts & Hu1)%parse_fields_accepted & H)%bind_inv.
  apply bind_inv in H as (o & s2 & (ats & Hats & Hu2)%optional_attributes_sound & [= <- <-]).
  exists (ts ++ ats)%list. split; [by constructor|].
  by rewrite Hu1, Hu2, app_assoc.
Qed.

Lemma constructor_sound n s c s' :
  parse_constructor n s = Some (Ok (c, s')) ->
  exists ts, Accepted.constructor ts c /\ unread s = (ts ++ unread s')%list.
Proof.
  unfold parse_constructor, _parse_optional_fields.
  intros (v & s1 & (t & Ht & -> & Hu1)%match_inv & H)%bind_inv.
  simpl in Ht. apply bool_decide_eq_true_1 in Ht.
  apply bind_inv in H as (o & s2 & H & [= <- <-]).
  apply bind_inv in H as (t2 & s3 & [-> Ht2]%cur_inv & H).
  destruct (bool_decide (kind t2 = LParen)).
  - apply bind_inv in H as (fs & s4 & (ts & Hts & Hu2)%parse_fields_accepted & [= <- <-]).
    exists (t :: ts). split; [by constructor|]. by rewrite Hu1, Hu2.
  - injection H as <- <-. exists [t]. split; [by constructor | done].
Qed.

Lemma sum_loop_sound n : forall s cs s',
  sum_loop n s = Some (Ok (cs, s')) ->
  exists ts, Accepted.more_constructors ts cs /\ unread s = (ts ++ unread s')%list.
Proof.
  induction n as [|n IH]; intros s cs s'; [done|]. cbn [sum_loop].
  intros (t & s0 & [-> Ht]%cur_inv & H)%bind_inv.
  destruct (bool_decide (kind t = Pipe)) eqn:Hp.
  2:{ injection H as <- <-. exists []. split; [constructor | done]. }
  apply bool_decide_eq_true_1 in Hp.
  apply bind_inv in H as (v & s1 & Hadv & H).
  destruct (advance_inv _ _ _ _ Ht Hadv) as [_ Hu1].
  apply bind_inv in H as (c & s2 & (ts & Hts & Hu2)%constructor_sound & H).
  apply bind_inv in H as (cs' & s3 & (rest & Hrest & Hu3)%IH & [= <- <-]).
  exists (t :: ts ++ rest)%list. split; [by constructor|].
  rewrite Hu1, Hu2, Hu3. simpl. by rewrite app_assoc.
Qed.

Lemma type_sound n s v s' :
  _parse_type n s = Some (Ok (v, s')) ->
  exists ts, Accepted.type ts v /\ unread s = (ts ++ unread s')%list.
Proof.
  unfold _parse_type.
  intros (t & s0 & [-> Ht]%cur_inv & H)%bind_inv.
  destruct (bool_decide (kind t = LParen)).
  - apply bind_inv in H as (p & s1 & (ts & Hts & Hu)%product_sound & [= <- <-]).
    exists ts. split; [by constructor | done].
  - apply bind_inv in H as (c & s1 & (ts & Hts & Hu1)%constructor_sound & H).
    apply bind_inv in H as (cs & s2 & (rest & Hrest & Hu2)%sum_loop_sound & H).
    apply bind_inv in H as (o & s3 & (ats & Hats & Hu3)%optional_attributes_sound & [= <- <-]).
    exists (ts ++ rest ++ ats)%list. split; [constructor; by constructor|].
    rewrite Hu1, Hu2, Hu3. by rewrite <- !app_assoc.
Qed.

Lemma definitions_sound n : forall s ds s',
  _parse_definitions n s = Some (Ok (ds, s')) ->
  exists ts, Accepted.definitions ts ds /\ unread s = (ts ++ unread s')%list.
Proof.
  induction n as [|n IH]; intros s ds s'; [done|]. cbn [_parse_definitions].
  intros (t & s0 & [-> Ht]%cur_inv & H)%bind_inv.
  destruct (bool_decide (kind t = TypeId)) eqn:Hk.
  2:{ injection H as <- <-. exists []. split; [constructor | done]. }
  apply bool_decide_eq_true_1 in Hk.
  apply bind_inv in H as (v & s1 & Hadv & H).
  destruct (advance_inv _ _ _ _ Ht Hadv) as [_ Hu1].
  apply bind_inv in H as (v' & s2 & (e & He & _ & Hu2)%match_inv & H).
  simpl in He. apply bool_decide_eq_true_1 in He.
  apply bind_inv in H as (ty & s3 & (ts & Hts & Hu3)%type_sound & H).
  apply bind_inv in H as (ds' & s4 & (rest & Hrest & Hu4)%IH & [= <- <-]).
  exists (t :: e :: ts ++ rest)%list. split; [by constructor|].
  rewrite Hu1, Hu2, Hu3, Hu4. simpl. by rewrite app_assoc.
Qed.

Lemma module_sound n s m s' :
  _parse_module n s = Some (Ok (m, s')) ->
  exists ts, Accepted.module ts m /\ unread s = (ts ++ unread s')%list.
Proof.
  unfold _parse_module.
  intros (b & s1 & (-> & kw & Hkw & Hb)%at_keyword_inv & H)%bind_inv.
  apply bind_inv in H as ([] & s2 & Hadv & H).
  destruct b.
  2:{ apply bind_inv in Hadv as (t & s3 & _ & Hr). done. }
  apply bind_inv in Hadv as (v & s3 & Hadv & [= <-]).
  destruct (advance_inv _ _ _ _ Hkw Hadv) as [_ Hu1].
  apply bind_inv in H as (name & s4 & (nm & Hnm & -> & Hu2)%match_inv & H).
  apply bind_inv in H as (v' & s5 & (l & Hl & _ & Hu3)%match_inv & H).
  apply bind_inv in H as (ds & s6 & (ts & Hts & Hu4)%definitions_sound & H).
  apply bind_inv in H as (v'' & s7 & (r & Hr & _ & Hu5)%match_inv & [= <- <-]).
  simpl in Hnm, Hl, Hr. apply bool_decide_eq_true_1 in Hnm, Hl, Hr.
  exists (kw :: nm :: l :: ts ++ [r])%list. split.
  - constructor; [by apply Hb | | done..].
    unfold _id_kinds, Grammar.is_Id in *.
    apply elem_of_cons in Hnm as [?|Hnm]; [by left|].
    apply list_elem_of_singleton in Hnm. by right.
  - rewrite Hu1, Hu2, Hu3, Hu4, Hu5. simpl. by rewrite <- app_assoc.
Qed.

Lemma advance_first g v s :
  _advance (mkParser g None) = Some (Ok (v, s)) -> unread s = pending g.
Proof.
  unfold _advance, unread. simpl. destruct (pending g) as [|t p] eqn:Hp.
  - destruct (stop g); [done|]. intros [= <- <-]. simpl. by rewrite Hp.
  - by intros [= <- <-].
Qed.

End Soundness.

(** X11.  A module the parser returns is spelt by the tokens it has read:
    a prefix of the stream derives it in the grammar the parser follows,
    and whatever comes after that prefix is left unread. *)
Theorem parsed_module_is_derived (g : generator) (m : Module_) :
  parse_tokens g = Some (Ok m) ->
  exists ts extra, pending g = (ts ++ extra)%list /\ Accepted.module ts m.
Proof.
  unfold parse_tokens. intros H.
  destruct ((_advance;; _parse_module _) _) as [[[m' s']|e]|] eqn:E; [|done..].
  injection H as ->.
  apply bind_inv in E as (v & s1 & Hadv%advance_first & (ts & Hts & Hu)%module_sound).
  exists ts, (unread s'). split; [congruence | done].
Qed.

Lemma parsed_module_is_derived_witness :
  let g := mkGenerator (loose_module_tokens ++ [word 4 "junk"]) None in
  parse_tokens g = Some (Ok loose_module) /\
  exists ts extra, pending g = (ts ++ extra)%list /\ Accepted.module ts loose_module.
Proof.
  intros g.
  assert (parse_tokens g = Some (Ok loose_module)) as H by (by vm_compute).
  split; [exact H | exact (parsed_module_is_derived g loose_module H)].
Defined.

(** ** What the parser accepts *)
Section Acceptance.

Lemma accepted_fields_parse ts fs n rest :
  Accepted.fields ts fs -> length ts < n ->
  _parse_fields n (at_tokens (ts ++ rest)) = Some (Ok (fs, at_tokens rest)).
Proof.
  destruct 1 as [l body r fs Hl Hbody Hr]. intros Hn.
  simpl in Hn. rewrite length_app in Hn. simpl in Hn.
  unfold _parse_fields. rewrite <- app_comm_cons, <- app_assoc.
  change ([r] ++ rest)%list with (r :: rest).
  erewrite bind_ok by (apply match_at; simpl; by rewrite Hl).
  erewrite bind_ok by (apply field_items_fields_loop; [done.. | lia]).
  erewrite bind_ok by (apply match_at; simpl; by rewrite Hr).
  reflexivity.
Qed.

Lemma accepted_attributes_parse ats attrs n h rest :
  Accepted.opt_attributes ats attrs ->
  (attrs = None -> ~ Grammar.is_keyword "attributes" h) ->
  length ats < n ->
  _parse_optional_attributes n (at_tokens (ats ++ h :: rest)) =
    Some (Ok (attrs, at_tokens (h :: rest))).
Proof.
  destruct 1 as [| kw ts fs [Hk Hv] Hfs]; intros Hh Hn;
    unfold _parse_optional_attributes.
  - erewrite bind_ok by reflexivity.
    destruct (bool_decide (kind h = TypeId) && bool_decide (value h = "attributes")) eqn:E;
      [|reflexivity].
    exfalso. apply andb_true_iff in E as [E1 E2].
    apply bool_decide_eq_true in E1, E2. by apply Hh.
  - rewrite <- app_comm_cons.
    erewrite bind_ok by reflexivity.
    rewrite !bool_decide_eq_true_2 by done. cbn [andb].
    erewrite bind_ok by apply advance_at.
    erewrite bind_ok by (apply accepted_fields_parse; [done | simpl in Hn; lia]).
    reflexivity.
Qed.

Lemma accepted_product_parse ts p n h rest :
  Accepted.product ts p ->
  (Product_attributes p = [] -> ~ Grammar.is_keyword "attributes" h) ->
  length ts < n ->
  _parse_product n (at_tokens (ts ++ h :: rest)) = Some (Ok (p, at_tokens (h :: rest))).
Proof.
  destruct 1 as [ts fs ats attrs Hfs Hats]. intros Hh Hn.
  rewrite length_app in Hn.
  unfold _parse_product. rewrite <- app_assoc.
  erewrite bind_ok by (apply accepted_fields_parse; [done | lia]).
  erewrite bind_ok; [reflexivity|].
  apply accepted_attributes_parse; [done | | lia].
  intros ->. by apply Hh.
Qed.

Lemma accepted_constructor_parse ts c n h rest :
  Accepted.constructor ts c ->
  kind h <> LParen ->
  length ts < n ->
  parse_constructor n (at_tokens (ts ++ h :: rest)) = Some (Ok (c, at_tokens (h :: rest))).
Proof.
  destruct 1 as [t Ht | t ts fs Ht Hfs]; intros Hh Hn; unfold parse_constructor.
  - erewrite bind_ok by (apply match_at; simpl; by rewrite Ht).
    erewrite bind_ok by (by apply optional_fields_absent).
    reflexivity.
  - rewrite <- app_comm_cons.
    erewrite bind_ok by (apply match_at; simpl; by rewrite Ht).
    erewrite bind_ok; [reflexivity|].
    unfold _parse_optional_fields.
    assert (exists l ts', ts = l :: ts' /\ kind l = LParen) as (l & ts' & Hts & Hl)
      by (destruct Hfs; eauto).
    erewrite bind_ok by (rewrite Hts; reflexivity).
    rewrite bool_decide_eq_true_2 by done.
    erewrite bind_ok by (apply accepted_fields_parse; [done | simpl in Hn; lia]).
    reflexivity.
Qed.

Lemma accepted_constructor_starts ts c :
  Accepted.constructor ts c -> exists t ts', ts = t :: ts' /\ kind t = ConstructorId.
Proof. destruct 1; eauto. Qed.

Lemma accepted_more_constructors_parse ts cs :
  Accepted.more_constructors ts cs ->
  forall n h rest, kind h <> LParen -> kind h <> Pipe -> length ts < n ->
  sum_loop n (at_tokens (ts ++ h :: rest)) = Some (Ok (cs, at_tokens (h :: rest))).
Proof.
  induction 1 as [| p ts c more cs Hp Hc Hmore IH]; intros n h rest HhL HhP Hn;
    (destruct n as [|n]; [simpl in Hn; lia|]).
  - simpl. erewrite bind_ok by reflexivity.
    rewrite bool_decide_eq_false_2 by done. reflexivity.
  - simpl in Hn. rewrite length_app in Hn.
    rewrite <- app_comm_cons, <- app_assoc.
    cbn [sum_loop]. erewrite bind_ok by reflexivity.
    rewrite bool_decide_eq_true_2 by done.
    erewrite bind_ok by apply advance_at.
    assert (exists h' rest', (more ++ h :: rest)%list = h' :: rest' /\ kind h' <> LParen)
      as (h' & rest' & Heq & Hh').
    { destruct Hmore; simpl; eauto. eexists _, _. split; [reflexivity|]. congruence. }
    erewrite bind_ok by (rewrite Heq; apply accepted_constructor_parse; [done.. | lia]).
    rewrite <- Heq.
    erewrite bind_ok by (apply IH; [done.. | lia]).
    reflexivity.
Qed.

Lemma accepted_type_parse ts v n h rest :
  Accepted.type ts v ->
  kind h = TypeId \/ kind h = RBrace ->
  (attribute_fields v = [] -> ~ Grammar.is_keyword "attributes" h) ->
  length ts < n ->
  _parse_type n (at_tokens (ts ++ h :: rest)) = Some (Ok (v, at_tokens (h :: rest))).
Proof.
  destruct 1 as [ts p Hp | ts s Hs]; intros Hk Hh Hn; unfold _parse_type.
  - assert (exists l ts', ts = l :: ts' /\ kind l = LParen) as (l & ts' & Hts & Hl).
    { destruct Hp as [? ? ? ? Hfs _]. destruct Hfs. eauto. }
    erewrite bind_ok by (rewrite Hts; reflexivity).
    rewrite bool_decide_eq_true_2 by done.
    erewrite bind_ok by (apply accepted_product_parse; done).
    reflexivity.
  - destruct Hs as [ts c more cs ats attrs Hc Hmore Hats].
    rewrite !length_app in Hn.
    destruct (accepted_constructor_starts _ _ Hc) as (t & ts' & Hts & Ht).
    erewrite bind_ok by (rewrite Hts; reflexivity).
    rewrite bool_decide_eq_false_2 by congruence.
    rewrite <- !app_assoc.
    assert (kind h <> LParen /\ kind h <> Pipe) as [HhL HhP]
      by (destruct Hk as [-> | ->]; done).
    assert (exists a rest', (ats ++ h :: rest)%list = a :: rest' /\
              kind a <> LParen /\ kind a <> Pipe) as (a & rest' & Hats_eq & HaL & HaP).
    { destruct Hats as [| kw ? ? [Hkw _] _]; simpl; eauto.
      eexists _, _. split; [reflexivity|]. rewrite Hkw. done. }
    assert (exists b rest'', (more ++ ats ++ h :: rest)%list = b :: rest'' /\ kind b <> LParen)
      as (b & rest'' & Hmore_eq & HbL).
    { destruct Hmore; simpl; [rewrite Hats_eq; eauto|].
      eexists _, _. split; [reflexivity|]. congruence. }
    erewrite bind_ok by (rewrite Hmore_eq; apply accepted_constructor_parse; [done.. | lia]).
    rewrite <- Hmore_eq.
    erewrite bind_ok by (rewrite Hats_eq; apply accepted_more_constructors_parse; [done.. | lia]).
    rewrite <- Hats_eq.
    erewrite bind_ok; [reflexivity|].
    apply accepted_attributes_parse; [done | | lia].
    intros ->. by apply Hh.
Qed.

Lemma accepted_definitions_parse ts ds :
  Accepted.definitions ts ds ->
  forall n r rest, attributes_unambiguous ds = true -> kind r = RBrace ->
  length ts < n ->
  _parse_definitions n (at_tokens (ts ++ r :: rest)) = Some (Ok (ds, at_tokens (r :: rest))).
Proof.
  induction 1 as [| t e ts v more ds Ht He Hv Hmore IH]; intros n r rest Hu Hr Hn;
    (destruct n as [|n]; [simpl in Hn; lia|]).
  - simpl. erewrite bind_ok by reflexivity.
    rewrite bool_decide_eq_false_2 by congruence. reflexivity.
  - simpl in Hn. rewrite length_app in Hn.
    rewrite <- !app_comm_cons, <- app_assoc.
    cbn [_parse_definitions]. erewrite bind_ok by reflexivity.
    rewrite bool_decide_eq_true_2 by done.
    erewrite bind_ok by apply advance_at.
    erewrite bind_ok by (apply match_at; simpl; by rewrite He).
    assert (exists h rest', (more ++ r :: rest)%list = h :: rest' /\
              (kind h = TypeId \/ kind h = RBrace) /\
              (attribute_fields v = [] -> ~ Grammar.is_keyword "attributes" h))
      as (h & rest' & Heq & Hk & Hh).
    { destruct Hmore as [| t' e' ts' v' more' ds' Ht' _ _ _]; simpl.
      - eexists _, _. split; [reflexivity|]. split; [by right|].
        intros _ [Hkind _]. congruence.
      - eexists _, _. split; [reflexivity|]. split; [by left|].
        intros Hnil [_ Hval]. simpl in Hu.
        rewrite (bool_decide_eq_true_2 _ Hnil), (bool_decide_eq_true_2 _ Hval) in Hu.
        discriminate. }
    erewrite bind_ok by (rewrite Heq; apply accepted_type_parse; [done.. | lia]).
    rewrite <- Heq.
    erewrite bind_ok; [reflexivity|].
    apply IH; [| done | lia].
    simpl in Hu. apply andb_true_iff in Hu as [_ Hu]. exact Hu.
Qed.

End Acceptance.

(** The EBNF of the specification, with any markers the parser takes, is
    part of the accepted grammar. *)
Section Grammar_accepted.
Variable Q : list Token -> bool -> bool -> Prop.
Hypothesis HQ : forall q s o, Q q s o -> Grammar.quantifier_or_both q s o.

Lemma grammar_field ts f :
  Grammar.field Q ts f -> Grammar.field Grammar.quantifier_or_both ts f.
Proof. destruct 1; constructor; auto. Qed.

Lemma grammar_field_seq ts fs : Grammar.field_seq Q ts fs -> field_items ts fs.
Proof.
  induction 1 as [ts f Hf | ts f c rest fs Hf Hc _ IH].
  - by apply field_items_last, grammar_field.
  - apply field_items_comma; [by apply grammar_field | done..].
Qed.

Lemma grammar_fields ts fs : Grammar.fields Q ts fs -> Accepted.fields ts fs.
Proof. destruct 1; constructor; [done | by apply grammar_field_seq | done]. Qed.

Lemma grammar_opt_attributes ts o :
  Grammar.opt_attributes Q ts o -> Accepted.opt_attributes ts o.
Proof. destruct 1; constructor; [done | by apply grammar_fields]. Qed.

Lemma grammar_constructor ts c :
  Grammar.constructor Q ts c -> Accepted.constructor ts c.
Proof. destruct 1; constructor; [done.. | by apply grammar_fields]. Qed.

Lemma grammar_more_constructors ts cs :
  Grammar.more_constructors Q ts cs -> Accepted.more_constructors ts cs.
Proof.
  induction 1; constructor; [done | by apply grammar_constructor | done].
Qed.

Lemma grammar_type ts v : Grammar.type Q ts v -> Accepted.type ts v.
Proof.
  destruct 1 as [? p [ts fs ats attrs Hfs Hats] | ? s [ts c rest cs ats attrs Hc Hcs Hats]].
  - apply Accepted.type_of_product. constructor;
      [by apply grammar_fields | by apply grammar_opt_attributes].
  - apply Accepted.type_of_sum. constructor;
      [by apply grammar_constructor | by apply grammar_more_constructors
      | by apply grammar_opt_attributes].
Qed.

Lemma grammar_definitions ts ds :
  Grammar.definitions Q ts ds -> Accepted.definitions ts ds.
Proof. induction 1; constructor; [done.. | by apply grammar_type | done]. Qed.

Lemma grammar_module ts m : Grammar.module Q ts m -> Accepted.module ts m.
Proof. destruct 1; constructor; [done.. | by apply grammar_definitions | done]. Qed.

End Grammar_accepted.

(** X12.  A token stream that starts with a module of the accepted grammar
    parses to that module, whatever follows the closing brace: the parser
    never looks for the end of the input.  The one proviso is the
    contextual keyword: no definition named [attributes] comes right
    after a type without attribute fields. *)
Theorem accepted_module_parses (ts extra : list Token) (m : Module_) :
  Accepted.module ts m ->
  attributes_unambiguous (Module_dfns m) = true ->
  parse_tokens (mkGenerator (ts ++ extra) None) = Some (Ok m).
Proof.
  destruct 1 as [kw n l ts r ds [Hkw Hval] Hn Hl Hds Hr]. simpl. intros Hu.
  unfold parse_tokens. cbn [pending].
  rewrite <- ?app_comm_cons, <- app_assoc. change ([r] ++ extra)%list with (r :: extra).
  erewrite bind_ok by reflexivity.
  unfold _parse_module.
  erewrite bind_ok by reflexivity.
  rewrite !bool_decide_eq_true_2 by done. cbn [andb].
  erewrite bind_ok by (erewrite bind_ok by reflexivity; reflexivity).
  erewrite bind_ok.
  2:{ apply (match_at _ n). simpl. apply bool_decide_eq_true_2.
      unfold _id_kinds. destruct Hn as [-> | ->]; repeat constructor. }
  erewrite bind_ok by (apply match_at; simpl; by rewrite Hl).
  erewrite bind_ok.
  2:{ apply accepted_definitions_parse; [done..|].
      simpl. rewrite !length_app. simpl. lia. }
  erewrite bind_ok by (apply match_at; simpl; by rewrite Hr).
  reflexivity.
Qed.

Lemma accepted_module_parses_witness :
  Accepted.module loose_module_tokens loose_module /\
  attributes_unambiguous (Module_dfns loose_module) = true /\
  parse_tokens (mkGenerator (loose_module_tokens ++ [word 4 "junk"]) None) =
    Some (Ok loose_module).
Proof.
  split; [exact loose_module_accepted|]. split; [reflexivity|].
  exact (accepted_module_parses loose_module_tokens [word 4 "junk"] loose_module
           loose_module_accepted eq_refl).
Defined.

(** ** The mapping of a module *)

(** X13.  [Module.__init__] maps each defined name to the value of the
    last definition of that name, and no other name. *)
Theorem module_types_last_definition (name : string) (dfns : list Type_) (x : string) :
  Module_types (Module_init name dfns) !! x =
    Type_value <$> last (filter (fun d => Type_name d = x) dfns).
Proof.
  simpl. induction dfns as [|d ds IH] using rev_ind; [done|].
  rewrite types_of_snoc, filter_app.
  rewrite (filter_cons (fun d => Type_name d = x)), filter_nil.
  destruct (decide (Type_name d = x)) as [->|Hne].
  - by rewrite lookup_insert_eq, last_snoc.
  - by rewrite lookup_insert_ne, app_nil_r.
Qed.

(** ** What the checker records *)
Section Checker_records.
Import Checker.

Lemma sites_of_app k l1 l2 : sites_of k (l1 ++ l2) = (sites_of k l1 ++ sites_of k l2)%list.
Proof. unfold sites_of. by rewrite filter_app, fmap_app. Qed.

Lemma sites_of_cons k i x l :
  sites_of k ((i, x) :: l) = if decide (i = k) then x :: sites_of k l else sites_of k l.
Proof.
  unfold sites_of. rewrite (filter_cons (fun p : string * string => p.1 = k)). simpl.
  by destruct (decide (i = k)).
Qed.

Lemma list_to_map_first (l : list (string * string)) k :
  (list_to_map l : gmap string string) !! k = head (sites_of k l).
Proof.
  induction l as [|[i x] l IH]; [done|].
  rewrite list_to_map_cons, sites_of_cons.
  destruct (decide (i = k)) as [->|Hne].
  - by rewrite lookup_insert_eq.
  - by rewrite lookup_insert_ne.
Qed.

Lemma list_to_map_snoc_old (l : list (string * string)) i x :
  is_Some ((list_to_map l : gmap string string) !! i) ->
  list_to_map (l ++ [(i, x)]) = (list_to_map l : gmap string string).
Proof.
  intros [y Hy]. apply map_eq. intros k.
  rewrite !list_to_map_first, sites_of_app.
  rewrite list_to_map_first in Hy.
  destruct (decide (k = i)) as [->|Hne].
  - by destruct (sites_of i l).
  - rewrite sites_of_cons. destruct (decide (i = k)); [congruence|].
    by rewrite app_nil_r.
Qed.

Lemma recorded_init : recorded Check_init [] [].
Proof. split; [done | split; [done|]]. intros t. apply lookup_empty. Qed.

Lemma recorded_field v cs us f name :
  recorded v cs us -> recorded (visitField v f name) cs (us ++ [(Field_type f, name)]).
Proof.
  intros (Hc & He & Ht). split; [exact Hc | split; [exact He|]].
  intros t. simpl. rewrite sites_of_app, sites_of_cons.
  destruct (decide (Field_type f = t)) as [->|Hne].
  - rewrite lookup_insert_eq, Ht. change (sites_of t []) with (@nil string).
    destruct (decide ((sites_of t us ++ [name])%list = [])) as [Hnil|_];
      [by destruct (sites_of t us)|].
    destruct (decide (sites_of t us = [])) as [Hn|Hn]; [rewrite Hn|]; done.
  - rewrite lookup_insert_ne by done. by rewrite Ht, app_nil_r.
Qed.

Lemma recorded_fields fs name : forall v cs us,
  recorded v cs us ->
  recorded (foldl (fun v f => visitField v f name) v fs) cs
           (us ++ ((fun f => (Field_type f, name)) <$> fs)).
Proof.
  induction fs as [|f fs IH]; intros v cs us Hv.
  - simpl. by rewrite app_nil_r.
  - rewrite fmap_cons. cbn [foldl].
    rewrite (cons_middle _ us), (app_assoc us).
    apply IH. by apply recorded_field.
Qed.

Lemma recorded_constructor v cs us c name :
  recorded v cs us ->
  recorded (visitConstructor v c name)
           (cs ++ [(Constructor_name c, name)])
           (us ++ ((fun f => (Field_type f, Constructor_name c)) <$> Constructor_fields c)).
Proof.
  intros (Hc & He & Ht). unfold visitConstructor.
  apply recorded_fields.
  destruct (cons v !! Constructor_name c) as [conflict|] eqn:Hlook.
  - split; [|split; [|exact Ht]]; simpl.
    + rewrite list_to_map_snoc_old; [done|]. rewrite <- Hc. by eexists.
    + rewrite length_app. simpl. lia.
  - split; [|split; [|exact Ht]]; simpl.
    + rewrite list_to_map_snoc, Hc; [done|].
      apply not_elem_of_list_to_map. by rewrite <- Hc.
    + rewrite map_size_insert_None by done. rewrite length_app. simpl. lia.
Qed.

Lemma recorded_sum cs' name : forall v cs us,
  recorded v cs us ->
  recorded (foldl (fun v t => visitConstructor v t name) v cs')
           (cs ++ ((fun c => (Constructor_name c, name)) <$> cs'))
           (us ++ (cs' ≫= fun c =>
                     (fun f => (Field_type f, Constructor_name c)) <$> Constructor_fields c)).
Proof.
  induction cs' as [|c cs' IH]; intros v cs us Hv.
  - simpl. by rewrite !app_nil_r.
  - rewrite fmap_cons, bind_cons. cbn [foldl].
    rewrite (app_assoc us), (cons_middle _ cs), (app_assoc cs).
    apply IH. by apply recorded_constructor.
Qed.

Lemma recorded_type v cs us t :
  recorded v cs us ->
  recorded (visitType v t) (cs ++ constructor_sites_of t) (us ++ usage_sites_of t).
Proof.
  intros Hv. unfold visitType, constructor_sites_of, usage_sites_of.
  destruct (Type_value t) as [s|p]; simpl.
  - by apply recorded_sum.
  - rewrite app_nil_r. by apply recorded_fields.
Qed.

Lemma recorded_dfns dfns : forall v cs us,
  recorded v cs us ->
  recorded (foldl visitType v dfns)
           (cs ++ (dfns ≫= constructor_sites_of)) (us ++ (dfns ≫= usage_sites_of)).
Proof.
  induction dfns as [|t dfns IH]; intros v cs us Hv.
  - simpl. by rewrite !app_nil_r.
  - rewrite !bind_cons, !app_assoc. cbn [foldl].
    apply IH. by apply recorded_type.
Qed.

Lemma recorded_module mod_ :
  recorded (visitModule Check_init mod_)
           (module_constructor_sites mod_) (module_usage_sites mod_).
Proof. apply (recorded_dfns _ _ [] []), recorded_init. Qed.

Lemma constructor_sites_names mod_ :
  (module_constructor_sites mod_).*1 = Constructor_name <$> module_constructors mod_.
Proof.
  unfold module_constructor_sites, module_constructors.
  induction (Module_dfns mod_) as [|t dfns IH]; [done|].
  rewrite !bind_cons, !fmap_app, IH. f_equal.
  unfold constructor_sites_of. rewrite <- list_fmap_compose. done.
Qed.

Lemma undefined_fold mod_ (e : nat) (m : gmap string (list string)) :
  map_fold (fun t _ n => if undefined mod_ t then S n else n) e m =
  e + size (filter (fun t => undefined mod_ t = true) (dom m)).
Proof.
  apply (map_fold_weak_ind
           (fun r (m : gmap string (list string)) =>
              r = e + size (filter (fun t => undefined mod_ t = true) (dom m)))).
  - rewrite dom_empty_L, filter_empty_L, size_empty; [lia | apply _].
  - intros t x m' r Hnone ->.
    rewrite dom_insert_L, filter_union_L, size_union.
    2:{ apply disjoint_filter. apply disjoint_singleton_l. by apply not_elem_of_dom. }
    assert (size (filter (fun t => undefined mod_ t = true) ({[t]} : gset string)) =
            if undefined mod_ t then 1 else 0) as ->.
    { destruct (undefined mod_ t) eqn:Hu.
      - rewrite <- (size_singleton (C := gset string) t). f_equal.
        apply set_eq. intros y. rewrite elem_of_filter, elem_of_singleton.
        split; [by intros [_ ->] | by intros ->].
      - rewrite <- (size_empty (C := gset string)). f_equal.
        apply set_eq. intros y. rewrite elem_of_filter, elem_of_singleton.
        split; [intros [Hy ->]; congruence | by intros ?%not_elem_of_empty]. }
    destruct (undefined mod_ t); lia.
    Unshelve. all: apply _.
Qed.

Lemma visited_types_dom mod_ :
  dom (types (visitModule Check_init mod_)) = referenced_types mod_.
Proof.
  destruct (visited_module mod_) as (_ & _ & Ht).
  apply set_eq. intros t. unfold referenced_types.
  by rewrite elem_of_dom, elem_of_list_to_set, Ht.
Qed.

End Checker_records.

(** X14.  After the visit of a module, [cons] maps each constructor name
    to the type that defines it first in the traversal; later definitions
    of the name leave the entry as it is. *)
Theorem constructor_registry_first_definer (mod_ : Module_) (k : string) :
  cons (Checker.visitModule Checker.Check_init mod_) !! k =
    head (sites_of k (module_constructor_sites mod_)).
Proof.
  destruct (recorded_module mod_) as (Hc & _ & _).
  rewrite Hc. apply list_to_map_first.
Qed.

(** X15.  After the visit of a module, [types] has a key for each type
    name a visited field refers to, and lists under it the constructors
    and products with such a field, once per field and in the order of the
    traversal: the uses that [check] prints for an undefined type. *)
Theorem usage_index_lists_users (mod_ : Module_) (t : string) :
  types (Checker.visitModule Checker.Check_init mod_) !! t =
    if decide (sites_of t (module_usage_sites mod_) = []) then None
    else Some (sites_of t (module_usage_sites mod_)).
Proof. by destruct (recorded_module mod_) as (_ & _ & Ht). Qed.

(** X16.  The errors [check] has counted when it returns: one for each
    definition of a constructor name beyond the first, and one for each
    referenced type name that is neither defined nor builtin, however
    often it is used.  The result is whether the count is zero. *)
Theorem check_counts_errors (mod_ : Module_) :
  Checker.check mod_ = bool_decide (check_errors mod_ = 0) /\
  check_errors mod_ =
    redefinitions (Constructor_name <$> module_constructors mod_) +
    size (filter (fun t => Checker.undefined mod_ t = true) (referenced_types mod_)).
Proof.
  split; [reflexivity|].
  unfold check_errors. rewrite undefined_fold, visited_types_dom. f_equal.
  destruct (recorded_module mod_) as (Hc & He & _).
  unfold redefinitions. rewrite <- constructor_sites_names.
  rewrite <- (dom_list_to_map_L (D := gset string)), <- Hc, size_dom.
  rewrite length_fmap. lia.
Qed.
